(** * ReGraph hierarchies: a shallow embedding of [regraph/hierarchies.py]

    The development follows the Python sources:
    - [regraph/hierarchies.py]       (class [Hierarchy]: [__eq__], [to_json],
      [from_json], [get_ancestors], [get_descendants], [duplicate_subgraph],
      [rewrite], [_check_rule_instance_typing], [get_rule_propagations]);
    - [regraph/neo4j/hierarchies.py] (class [Neo4jHierarchy]: [bfs_tree],
      [copy_graph]).

    Python dictionaries keep insertion order and are iterated in that order,
    so they are association lists here; Python exceptions are the [Raise]
    branch of an error monad. *)

From Stdlib Require Import List String Ascii Bool Arith Lia.
From Stdlib Require DecimalNat DecimalString.
Import ListNotations.
Open Scope string_scope.
Open Scope list_scope.

Set Implicit Arguments.

(** ** Hashable keys *)

Class EqKey (K : Type) := {
  keqb : K -> K -> bool;
  keqb_spec : forall x y, reflect (x = y) (keqb x y)
}.

#[export] Instance string_EqKey : EqKey string :=
  {| keqb := String.eqb; keqb_spec := String.eqb_spec |}.

Definition pair_eqb {A B} `{EqKey A} `{EqKey B} (x y : A * B) : bool :=
  keqb (fst x) (fst y) && keqb (snd x) (snd y).

Lemma pair_eqb_spec {A B} `{EqKey A} `{EqKey B} (x y : A * B) :
  reflect (x = y) (pair_eqb x y).
Proof.
  destruct x as [a b], y as [a' b']; unfold pair_eqb; simpl.
  destruct (keqb_spec a a'); destruct (keqb_spec b b'); simpl;
    constructor; congruence.
Qed.

#[export] Instance pair_EqKey {A B} `{EqKey A} `{EqKey B} : EqKey (A * B) :=
  {| keqb := pair_eqb; keqb_spec := pair_eqb_spec |}.

Fixpoint list_eqb {A} `{EqKey A} (l1 l2 : list A) : bool :=
  match l1, l2 with
  | [], [] => true
  | x :: r1, y :: r2 => keqb x y && list_eqb r1 r2
  | _, _ => false
  end.

Lemma list_eqb_spec {A} `{EqKey A} (l1 l2 : list A) :
  reflect (l1 = l2) (list_eqb l1 l2).
Proof.
  revert l2; induction l1 as [|x r1 IH]; intros [|y r2]; simpl;
    try (constructor; congruence).
  destruct (keqb_spec x y); simpl; [| constructor; congruence].
  destruct (IH r2); constructor; congruence.
Qed.

#[export] Instance list_EqKey {A} `{EqKey A} : EqKey (list A) :=
  {| keqb := list_eqb; keqb_spec := list_eqb_spec |}.

Lemma keqb_refl {K} `{EqKey K} (x : K) : keqb x x = true.
Proof. destruct (keqb_spec x x); congruence. Qed.

Lemma keqb_eq {K} `{EqKey K} (x y : K) : keqb x y = true <-> x = y.
Proof. destruct (keqb_spec x y); split; congruence. Qed.

Lemma keqb_neq {K} `{EqKey K} (x y : K) : keqb x y = false <-> x <> y.
Proof. destruct (keqb_spec x y); split; congruence. Qed.

(** [x in l] for a Python list or set. *)
Definition inb {K} `{EqKey K} (x : K) (l : list K) : bool := existsb (keqb x) l.

Lemma inb_In {K} `{EqKey K} (x : K) l : inb x l = true <-> In x l.
Proof.
  unfold inb. rewrite existsb_exists. split.
  - intros [y [Hy E]]. apply keqb_eq in E. now subst.
  - intros Hx. exists x. split; [assumption | apply keqb_refl].
Qed.

Lemma inb_not_In {K} `{EqKey K} (x : K) l : inb x l = false <-> ~ In x l.
Proof.
  rewrite <- inb_In. destruct (inb x l); split; congruence.
Qed.

(** ** Python dictionaries (insertion ordered) *)

Definition dict (K V : Type) := list (K * V).

Section Dict.
Context {K V : Type} `{EqKey K}.

(** [d[k]]; [None] stands for the [KeyError]. *)
Fixpoint dget (d : dict K V) (k : K) : option V :=
  match d with
  | [] => None
  | (k', v) :: r => if keqb k' k then Some v else dget r k
  end.

(** [k in d.keys()] *)
Definition dmem (d : dict K V) (k : K) : bool :=
  match dget d k with Some _ => true | None => false end.

(** [d[k] = v]: an existing key keeps its position. *)
Fixpoint dset (d : dict K V) (k : K) (v : V) : dict K V :=
  match d with
  | [] => [(k, v)]
  | (k', v') :: r =>
      if keqb k' k then (k', v) :: r else (k', v') :: dset r k v
  end.

(** [d.update(d2)] *)
Definition dupdate (d d2 : dict K V) : dict K V :=
  fold_left (fun acc kv => dset acc (fst kv) (snd kv)) d2 d.

Definition dkeys (d : dict K V) : list K := map fst d.
Definition dvalues (d : dict K V) : list V := map snd d.
End Dict.

(** ** Exceptions *)

Inductive exn : Type :=
| HierarchyError
| InvalidHomomorphism
| RewritingError
| ReGraphError
| KeyError
| ValueError
| IndexError
| UnboundLocalError
| NameError
| RecursionError.

Inductive result (A : Type) : Type :=
| Ok : A -> result A
| Raise : exn -> result A.
Arguments Ok {A} _.
Arguments Raise {A} _.

Definition bind {A B} (m : result A) (f : A -> result B) : result B :=
  match m with
  | Ok a => f a
  | Raise e => Raise e
  end.

Notation "x <- m ;; k" := (bind m (fun x => k))
  (at level 61, m at next level, right associativity).
Notation "m ;;; k" := (bind m (fun _ => k))
  (at level 61, right associativity).

(** A dictionary access that raises [KeyError]. *)
Definition getitem {K V} `{EqKey K} (d : dict K V) (k : K) : result V :=
  match dget d k with
  | Some v => Ok v
  | None => Raise KeyError
  end.

(** [for x in l: body], stopping at the first exception. *)
Fixpoint for_each {A S} (l : list A) (body : S -> A -> result S) (s : S)
  : result S :=
  match l with
  | [] => Ok s
  | x :: r => s' <- body s x ;; for_each r body s'
  end.

(** ** Attributed graphs, maps, typing relations *)

Definition gid := string.   (* identifier of a graph of the hierarchy *)
Definition node := string.  (* identifier of a node of a graph *)

(** Attributes: name -> finite set of values. *)
Definition attrs := dict string (list string).

Definition attrs_eqb (a b : attrs) : bool := keqb a b.

Lemma attrs_eqb_eq a b : attrs_eqb a b = true <-> a = b.
Proof. apply keqb_eq. Qed.

Record Graph := mkGraph {
  g_nodes : list (node * attrs);
  g_edges : list (node * node * attrs)
}.

Definition nodes (g : Graph) : list node := map fst (g_nodes g).

(** A (partial) map between node sets, a Python dict. *)
Definition mapping := dict node node.

(** A relation between two graphs: node -> set of nodes. *)
Definition relation := dict node (list node).

(** ** The hierarchy store

    Modelled from the spec: the in-memory store behind the abstract
    accessors of [Hierarchy] ([graphs], [typings], [relations], [get_graph],
    [get_typing], [get_relation], [get_*_attrs]) is not part of the sources;
    the spec gives a hierarchy as graphs, typing edges (s, t, h), relations
    on unordered pairs (stored as a mapping from the nodes of the first graph
    to sets of nodes of the second, the symmetric view being derived) and
    attributes for each of them. *)
Record Hierarchy := mkHierarchy {
  h_graphs : dict gid (Graph * attrs);
  h_typings : dict (gid * gid) (mapping * attrs);
  h_relations : dict (gid * gid) (relation * attrs)
}.

Definition empty_hierarchy : Hierarchy := mkHierarchy [] [] [].

(** [self.graphs()] and [self.graphs(True)] *)
Definition graphs (h : Hierarchy) : list gid := dkeys (h_graphs h).
Definition graphs_data (h : Hierarchy) : list (gid * attrs) :=
  map (fun e => (fst e, snd (snd e))) (h_graphs h).

(** [self.typings()] / [self.edges()] and [self.typings(True)] *)
Definition typings (h : Hierarchy) : list (gid * gid) := dkeys (h_typings h).
Definition edges (h : Hierarchy) : list (gid * gid) := typings h.
Definition typings_data (h : Hierarchy) : list (gid * gid * attrs) :=
  map (fun e => (fst e, snd (snd e))) (h_typings h).

(** The inverse of a relation: the derived symmetric view. *)
Definition rel_pairs (r : relation) : list (node * node) :=
  flat_map (fun e => map (fun b => (fst e, b)) (snd e)) r.

Definition rel_add (r : relation) (a b : node) : relation :=
  match dget r a with
  | Some bs => if inb b bs then r else dset r a (bs ++ [b])
  | None => dset r a [b]
  end.

Definition rel_inverse (r : relation) : relation :=
  fold_left (fun acc p => rel_add acc (snd p) (fst p)) (rel_pairs r) [].

(** [self.relations()] and [self.relations(True)]: both orientations of
    every stored relation. *)
Definition relations (h : Hierarchy) : list (gid * gid) :=
  flat_map (fun e => [fst e; (snd (fst e), fst (fst e))]) (h_relations h).
Definition relations_data (h : Hierarchy) : list (gid * gid * attrs) :=
  flat_map (fun e => [(fst e, snd (snd e));
                      ((snd (fst e), fst (fst e)), snd (snd e))])
           (h_relations h).

Definition get_graph (h : Hierarchy) (g : gid) : result Graph :=
  match dget (h_graphs h) g with
  | Some ga => Ok (fst ga)
  | None => Raise HierarchyError
  end.

Definition get_graph_attrs (h : Hierarchy) (g : gid) : result attrs :=
  match dget (h_graphs h) g with
  | Some ga => Ok (snd ga)
  | None => Raise HierarchyError
  end.

(** The typing dict of the edge [s -> t]. *)
Definition get_typing (h : Hierarchy) (s t : gid) : result mapping :=
  match dget (h_typings h) (s, t) with
  | Some ma => Ok (fst ma)
  | None => Raise HierarchyError
  end.

Definition get_typing_attrs (h : Hierarchy) (s t : gid) : result attrs :=
  match dget (h_typings h) (s, t) with
  | Some ma => Ok (snd ma)
  | None => Raise HierarchyError
  end.

Definition get_relation (h : Hierarchy) (l r : gid) : result relation :=
  match dget (h_relations h) (l, r) with
  | Some ra => Ok (fst ra)
  | None =>
      match dget (h_relations h) (r, l) with
      | Some ra => Ok (rel_inverse (fst ra))
      | None => Raise HierarchyError
      end
  end.

Definition get_relation_attrs (h : Hierarchy) (l r : gid) : result attrs :=
  match dget (h_relations h) (l, r) with
  | Some ra => Ok (snd ra)
  | None =>
      match dget (h_relations h) (r, l) with
      | Some ra => Ok (snd ra)
      | None => Raise HierarchyError
      end
  end.

Definition successors (h : Hierarchy) (g : gid) : list gid :=
  map snd (filter (fun e => keqb (fst e) g) (typings h)).

Definition predecessors (h : Hierarchy) (g : gid) : list gid :=
  map fst (filter (fun e => keqb (snd e) g) (typings h)).

(** ** [Hierarchy.__eq__] *)

(** [attrs != other.get_..._attrs(..)]; the lookup cannot fail where
    [__eq__] performs it, the membership test above it has passed. *)
Definition attrs_differ (a : attrs) (r : result attrs) : bool :=
  match r with
  | Ok b => negb (attrs_eqb a b)
  | Raise _ => true
  end.

Definition hierarchy_eq (self hierarchy : Hierarchy) : bool :=
  forallb (fun na =>
             let '(n, a) := na in
             if negb (inb n (graphs hierarchy)) then false
             else if attrs_differ a (get_graph_attrs hierarchy n) then false
             else true)
          (graphs_data self)
  && forallb (fun sta =>
             let '(st, a) := sta in
             if negb (inb st (edges hierarchy)) then false
             else if attrs_differ a (get_typing_attrs hierarchy (fst st) (snd st))
                  then false
             else true)
          (typings_data self)
  && forallb (fun nna =>
             let '(nn, a) := nna in
             if negb (inb nn (relations hierarchy))
                && negb (inb (snd nn, fst nn) (relations hierarchy)) then false
             else if attrs_differ a
                       (get_relation_attrs hierarchy (fst nn) (snd nn))
                  then false
             else true)
          (relations_data self).

(** ** [Neo4jHierarchy.bfs_tree]

    The [while] loop is bounded by [fuel]; [None] means the bound was reached
    before the loop ended ([bfs_tree_terminates] below shows that one more
    than the number of typing edges is always enough). *)

Definition neighbours (h : Hierarchy) (reverse : bool) (g : gid) : list gid :=
  if reverse then predecessors h g else successors h g.

(** The body of the [while] loop: the [for g in current_level] loop, which
    filters against [bfs_result] as it was when the level started. *)
Definition bfs_next_level (h : Hierarchy) (reverse : bool)
           (bfs_result current_level : list gid) : list gid :=
  flat_map (fun g =>
              filter (fun p => negb (inb p bfs_result)) (neighbours h reverse g))
           current_level.

Fixpoint bfs_loop (fuel : nat) (h : Hierarchy) (reverse : bool)
         (bfs_result current_level : list gid) : option (list gid) :=
  match current_level with
  | [] => Some bfs_result
  | _ :: _ =>
      match fuel with
      | O => None
      | S fuel' =>
          let next_level := bfs_next_level h reverse bfs_result current_level in
          bfs_loop fuel' h reverse (bfs_result ++ next_level) next_level
      end
  end.

Definition bfs_tree (fuel : nat) (h : Hierarchy) (graph : gid) (reverse : bool)
  : option (list gid) :=
  let bfs_result := [graph] in
  let current_level := neighbours h reverse graph in
  bfs_loop fuel h reverse (bfs_result ++ current_level) current_level.

(** ** Finite sets of nodes (Python [set]) as lists *)

Fixpoint dedup {K} `{EqKey K} (l : list K) : list K :=
  match l with
  | [] => []
  | x :: r => if inb x r then dedup r else x :: dedup r
  end.

Definition subsetb {K} `{EqKey K} (a b : list K) : bool :=
  forallb (fun x => inb x b) a.

(** [a == b] on sets *)
Definition set_eqb {K} `{EqKey K} (a b : list K) : bool :=
  subsetb a b && subsetb b a.

(** [len(s)] of a set *)
Definition set_len {K} `{EqKey K} (s : list K) : nat :=
  List.length (dedup s).

(** ** Helpers of [regraph.utils] and [regraph.category_utils] *)

(** Modelled from the spec: [keys_by_value] is not part of the sources; it
    gives the preimages of a node under a map ("L-nodes with >= 2 preimages
    under p_lhs"), in the order of the dictionary. *)
Definition keys_by_value (d : mapping) (val : node) : list node :=
  map fst (filter (fun kv => keqb (snd kv) val) d).

(** Modelled from the spec: [compose] (map composition of the category
    kernel) is not part of the sources; the composite sends a key of [d1] to
    the image under [d2] of its image under [d1]. *)
Definition compose (d1 d2 : mapping) : mapping :=
  flat_map (fun kv =>
              match dget d2 (snd kv) with
              | Some v => [(fst kv, v)]
              | None => []
              end) d1.

(** Modelled from the spec: [is_monic] (mono test of the category kernel) is
    not part of the sources; a map is a mono when no two nodes share an
    image. *)
Definition is_monic (f : mapping) : bool :=
  forallb (fun kv =>
             forallb (fun kv' =>
                        implb (keqb (snd kv) (snd kv')) (keqb (fst kv) (fst kv')))
                     f) f.

(** Attribute inclusion: every value of [a] is a value of [b] under the same
    name. *)
Definition attrs_included (a b : attrs) : bool :=
  forallb (fun kv =>
             match dget b (fst kv) with
             | Some vs => subsetb (snd kv) vs
             | None => match snd kv with [] => true | _ => false end
             end) a.

Definition node_attrs (g : Graph) (n : node) : attrs :=
  match dget (g_nodes g) n with Some a => a | None => [] end.

Definition edge_attrs (g : Graph) (s t : node) : option attrs :=
  dget (g_edges g) (s, t).

(** Modelled from the spec: [check_homomorphism] is not part of the sources;
    a homomorphism is a total map that preserves edges and whose image
    attributes include the source attributes, on nodes and on edges. *)
Definition is_homomorphism (source target : Graph) (d : mapping) : bool :=
  forallb (fun n => dmem d n) (nodes source)
  && forallb (fun kv => inb (fst kv) (nodes source)
                        && inb (snd kv) (nodes target)) d
  && forallb (fun n =>
                match dget d n with
                | Some n' => attrs_included (node_attrs source n)
                                            (node_attrs target n')
                | None => false
                end) (nodes source)
  && forallb (fun e =>
                let '(s, t, a) := e in
                match dget d s, dget d t with
                | Some s', Some t' =>
                    match edge_attrs target s' t' with
                    | Some a' => attrs_included a a'
                    | None => false
                    end
                | _, _ => false
                end) (g_edges source).

Definition check_homomorphism (source target : Graph) (d : mapping)
  : result unit :=
  if is_homomorphism source target d then Ok tt else Raise InvalidHomomorphism.

(** A control relation: graph id -> node -> set of nodes. *)
Definition typing_rel := dict gid (dict node (list node)).

(** Modelled from the spec: [normalize_typing_relation] is not part of the
    sources; Stage 0 normalizes [p_typing] and [rhs_typing] to
    graph -> node -> set-of-nodes. *)
Definition normalize_typing_relation (t : typing_rel) : typing_rel :=
  map (fun ge => (fst ge, map (fun nv => (fst nv, dedup (snd nv))) (snd ge))) t.

(** ** Rules

    Modelled from the spec: the class [Rule] is not part of the sources; a
    rule is a span L <- P -> R, and its added nodes are the nodes of R not
    reached from P. *)
Record Rule := mkRule {
  lhs : Graph;
  p : Graph;
  rhs : Graph;
  p_lhs : mapping;
  p_rhs : mapping
}.

Definition added_nodes (rule : Rule) : list node :=
  filter (fun n => negb (inb n (dvalues (p_rhs rule)))) (nodes (rhs rule)).

(** ** [Hierarchy.get_ancestors], [get_descendants], [compose_path_typing]

    [self.in_edges(g)] and [self.out_edges(g)] are the typing edges into and
    out of [g]; the recursion of the Python functions is bounded by [fuel]
    (the interpreter's recursion limit), and raises [RecursionError] when it
    is exhausted. *)

Definition in_edges (h : Hierarchy) (g : gid) : list (gid * gid) :=
  filter (fun e => keqb (snd e) g) (typings h).

Definition out_edges (h : Hierarchy) (g : gid) : list (gid * gid) :=
  filter (fun e => keqb (fst e) g) (typings h).

(** The inner loop of both functions:
    [for anc, t in others.items(): if anc in acc.keys(): acc[anc].update(c)
     else: acc[anc] = c], where [c] is the composite computed by [comp]. *)
Definition merge_composed (comp : mapping -> mapping)
           (others acc : dict gid mapping) : dict gid mapping :=
  fold_left (fun acc at_ =>
               match dget acc (fst at_) with
               | Some cur => dset acc (fst at_) (dupdate cur (comp (snd at_)))
               | None => dset acc (fst at_) (comp (snd at_))
               end) others acc.

(** The body of the loop of [get_ancestors]; [rec] is the recursive call. *)
Definition ancestors_step (h : Hierarchy) (graph_id : gid)
           (rec : gid -> result (dict gid mapping))
           (ancestors : dict gid mapping) (e : gid * gid)
  : result (dict gid mapping) :=
  let pred := fst e in
  typing <- get_typing h pred graph_id ;;
  pred_ancestors <- rec pred ;;
  let ancestors :=
    if dmem ancestors pred then dupdate ancestors pred_ancestors
    else dset ancestors pred typing in
  Ok (merge_composed (fun anc_typing => compose anc_typing typing)
                     pred_ancestors ancestors).

Fixpoint get_ancestors (fuel : nat) (h : Hierarchy) (graph_id : gid)
  : result (dict gid mapping) :=
  match fuel with
  | O => Raise RecursionError
  | S fuel' =>
      for_each (in_edges h graph_id)
               (ancestors_step h graph_id (get_ancestors fuel' h)) []
  end.

(** The body of the loop of [get_descendants]. *)
Definition descendants_step (h : Hierarchy) (graph_id : gid)
           (rec : gid -> result (dict gid mapping))
           (descendants : dict gid mapping) (e : gid * gid)
  : result (dict gid mapping) :=
  let typing := snd e in
  mapping <- get_typing h graph_id typing ;;
  typing_descendants <- rec typing ;;
  let descendants :=
    match dget descendants typing with
    | Some cur => dset descendants typing (dupdate cur mapping)
    | None => dset descendants typing mapping
    end in
  Ok (merge_composed (fun typ => compose mapping typ)
                     typing_descendants descendants).

Fixpoint get_descendants (fuel : nat) (h : Hierarchy) (graph_id : gid)
  : result (dict gid mapping) :=
  match fuel with
  | O => Raise RecursionError
  | S fuel' =>
      for_each (out_edges h graph_id)
               (descendants_step h graph_id (get_descendants fuel' h)) []
  end.

(** One turn of the loop of [compose_path_typing]: the state is the graph
    [path[i - 1]] and the map composed so far. *)
Definition compose_step (h : Hierarchy) (st : gid * mapping) (t' : gid)
  : result (gid * mapping) :=
  m <- get_typing h (fst st) t' ;; Ok (t', compose (snd st) m).

Definition compose_path_typing (h : Hierarchy) (path : list gid)
  : result mapping :=
  match path with
  | s :: t :: rest =>
      homomorphism <- get_typing h s t ;;
      st <- for_each rest (compose_step h) (t, homomorphism) ;;
      Ok (snd st)
  | _ => Raise IndexError
  end.

(** ** [Hierarchy._check_rule_instance_typing] (Stage 0 of [rewrite]) *)

(** [{typing[n] for n in ns}]: the image of a set of nodes; a node outside of
    the map raises [KeyError]. *)
Definition image_set (typing : mapping) (ns : list node) : result (list node) :=
  imgs <- for_each ns (fun acc n => v <- getitem typing n ;; Ok (acc ++ [v])) [] ;;
  Ok (dedup imgs).

(** "Check p_typing does not retype nodes" *)
Definition check_p_retype_graph (h : Hierarchy) (origin_id : gid)
           (rule : Rule) (instance : mapping)
           (gt : gid * dict node (list node)) : result unit :=
  let '(graph_id, typing) := gt in
  graph_to_origin <- get_typing h graph_id origin_id ;;
  for_each typing
    (fun _ kv =>
       let '(k, v) := kv in
       for_each v
         (fun _ vv =>
            a <- getitem graph_to_origin k ;;
            l <- getitem (p_lhs rule) vv ;;
            b <- getitem instance l ;;
            if negb (keqb a b) then Raise RewritingError else Ok tt)
         tt)
    tt.

Definition check_p_retype (h : Hierarchy) (origin_id : gid) (rule : Rule)
           (instance : mapping) (p_typing : typing_rel) : result unit :=
  for_each p_typing
    (fun _ gt => check_p_retype_graph h origin_id rule instance gt) tt.

(** The loop that computes [canonical] for one predecessor.  The state is
    the pair of [canonical] and of whether the local [canonical_clones] has
    been bound so far (it is read by the error message below). *)
Definition check_canonical (rule : Rule) (typing : dict node (list node))
           (bound : bool) : result (bool * bool) :=
  for_each typing
    (fun st gp =>
       let p_nodes := snd gp in
       match p_nodes with
       | first :: _ =>
           lhs_n <- getitem (p_lhs rule) first ;;
           let canonical_clones := keys_by_value (p_lhs rule) lhs_n in
           if set_eqb p_nodes canonical_clones
           then Ok (false, true)      (* canonical = False *)
           else Ok (fst st, true)
       | [] => Ok st
       end)
    (false, bound).                   (* canonical = False *)

(** "Check composability of p_typing"; the state is whether
    [canonical_clones] is bound. *)
Definition check_p_composable (h : Hierarchy) (rule : Rule)
           (p_typing : typing_rel) : result bool :=
  for_each p_typing
    (fun bound gt =>
       let '(graph_id, typing) := gt in
       bound <- for_each (predecessors h graph_id)
                  (fun bound pred =>
                     if negb (dmem p_typing pred) then
                       cb <- check_canonical rule typing bound ;;
                       if negb (fst cb) then
                         (if snd cb then Raise RewritingError
                          else Raise UnboundLocalError)
                       else Ok (snd cb)
                     else Ok bound)
                  bound ;;
       for_each (successors h graph_id)
         (fun _ suc =>
            suc_typing <- get_typing h graph_id suc ;;
            for_each typing
              (fun _ gp =>
                 let '(graph_n, p_nodes) := gp in
                 suc_n <- getitem suc_typing graph_n ;;
                 match dget p_typing suc with
                 | Some suc_rel =>
                     match dget suc_rel suc_n with
                     | Some suc_p_nodes =>
                         if negb (subsetb p_nodes suc_p_nodes)
                         then Raise RewritingError else Ok tt
                     | None => Ok tt
                     end
                 | None => Ok tt
                 end)
              tt)
         tt ;;;
       Ok bound)
    false.

(** "Autocomplete and check rhs_typing".  The state is the pair of
    [rhs_typing] and [new_rhs_typing].  In the last branch the Python code
    stores [rhs_typing[descendant]] itself in [new_rhs_typing] and then adds
    a key to it: the dictionary is shared, so the key is added to
    [rhs_typing[descendant]] in place, and copying that entry back at the end
    changes nothing; [new_rhs_typing] therefore only keeps the fresh
    entries here. *)
Definition autocomplete_descendant (rhs0 : typing_rel)
           (typing : dict node (list node))
           (st : typing_rel * typing_rel) (dt : gid * mapping)
  : result (typing_rel * typing_rel) :=
  let '(descendant, descendant_typing) := dt in
  if negb (dmem rhs0 descendant) then
    fresh <- for_each typing
               (fun acc rg =>
                  img <- image_set descendant_typing (snd rg) ;;
                  Ok (dset acc (fst rg) img))
               [] ;;
    Ok (fst st, dset (snd st) descendant fresh)
  else
    for_each typing
      (fun st rg =>
         let '(rhs_n, graph_ns) := rg in
         descendant_rhs_typing <- getitem (fst st) descendant ;;
         match dget descendant_rhs_typing rhs_n with
         | Some descendant_ns =>
             for_each graph_ns
               (fun _ graph_n =>
                  v <- getitem descendant_typing graph_n ;;
                  if negb (inb v descendant_ns)
                  then Raise RewritingError else Ok tt)
               tt ;;;
             Ok st
         | None =>
             img <- image_set descendant_typing graph_ns ;;
             Ok (dset (fst st) descendant (dset descendant_rhs_typing rhs_n img),
                 snd st)
         end)
      st.

Definition autocomplete_rhs_typing (fuel : nat) (h : Hierarchy)
           (rhs_typing : typing_rel) : result typing_rel :=
  st <- for_each (dkeys rhs_typing)
          (fun st graph_id =>
             typing <- getitem (fst st) graph_id ;;
             descendants <- get_descendants fuel h graph_id ;;
             for_each descendants (autocomplete_descendant rhs_typing typing) st)
          (rhs_typing, []) ;;
  (* for g, t in new_rhs_typing.items(): rhs_typing[g] = t *)
  Ok (dupdate (fst st) (snd st)).

(** "Check rhs_typing does not retype nodes" *)
Definition check_rhs_retype (h : Hierarchy) (origin_id : gid) (rule : Rule)
           (instance : mapping) (rhs_typing : typing_rel) : result unit :=
  for_each rhs_typing
    (fun _ gt =>
       let '(graph_id, typing) := gt in
       origin_to_graph <- get_typing h origin_id graph_id ;;
       for_each typing
         (fun _ kv =>
            let '(k, v) := kv in
            let p_nodes := keys_by_value (p_rhs rule) k in
            match p_nodes with
            | _ :: _ =>
                imgs <- for_each p_nodes
                          (fun acc p_node =>
                             l <- getitem (p_lhs rule) p_node ;;
                             g <- getitem instance l ;;
                             t <- getitem origin_to_graph g ;;
                             Ok (acc ++ [t]))
                          [] ;;
                if negb (set_eqb (dedup imgs) v)
                then Raise RewritingError else Ok tt
            | [] => Ok tt
            end)
         tt)
    tt.

(** "If rewriting is strict, check rhs typing types all new nodes" *)
Definition check_strict_descendant (rule : Rule) (rhs_typing : typing_rel)
           (desc : gid) : result unit :=
  match dget rhs_typing desc with
  | None => Raise RewritingError
  | Some desc_typing =>
      for_each (added_nodes rule)
        (fun _ rhs_n =>
           match dget desc_typing rhs_n with
           | None => Raise RewritingError
           | Some ns =>
               if negb (Nat.eqb (set_len ns) 1)
               then Raise RewritingError else Ok tt
           end)
        tt
  end.

Definition check_strict (fuel : nat) (h : Hierarchy) (origin_id : gid)
           (rule : Rule) (rhs_typing : typing_rel) (strict : bool)
  : result unit :=
  if strict then
    match added_nodes rule with
    | _ :: _ =>
        descendants <- get_descendants fuel h origin_id ;;
        for_each (dkeys descendants)
          (fun _ desc => check_strict_descendant rule rhs_typing desc) tt
    | [] => Ok tt
    end
  else Ok tt.

(** "Normalize the instance, p_typing and rhs_typing" *)
Definition normalized_instance (rule : Rule) (instance : option mapping)
  : mapping :=
  match instance with
  | None => map (fun n => (n, n)) (nodes (lhs rule))
  | Some i => i
  end.

Definition normalized_typing (t : option typing_rel) : typing_rel :=
  match t with
  | None => []
  | Some t => normalize_typing_relation t
  end.

Definition _check_rule_instance_typing (fuel : nat) (h : Hierarchy)
           (origin_id : gid) (rule : Rule) (instance : option mapping)
           (p_typing rhs_typing : option typing_rel) (strict : bool)
  : result (mapping * typing_rel * typing_rel) :=
  let instance := normalized_instance rule instance in
  let p_typing := normalized_typing p_typing in
  let rhs_typing := normalized_typing rhs_typing in
  (* Check that the instance is valid *)
  origin <- get_graph h origin_id ;;
  match check_homomorphism (lhs rule) origin instance with
  | Raise InvalidHomomorphism => Raise RewritingError
  | Raise e => Raise e
  | Ok _ =>
      (* Check that the instance is a mono *)
      if negb (is_monic instance) then Raise RewritingError
      else
        check_p_retype h origin_id rule instance p_typing ;;;
        check_p_composable h rule p_typing ;;;
        rhs_typing <- autocomplete_rhs_typing fuel h rhs_typing ;;
        check_rhs_retype h origin_id rule instance rhs_typing ;;;
        check_strict fuel h origin_id rule rhs_typing strict ;;;
        Ok (instance, p_typing, rhs_typing)
  end.

(** ** Methods that mutate the hierarchy

    A method that mutates [self] is a state transformer that also returns its
    result or the exception raised; the state returned with an exception is
    the hierarchy as the exception left it. *)

Definition M (A : Type) := Hierarchy -> result A * Hierarchy.

Definition mret {A} (a : A) : M A := fun h => (Ok a, h).

Definition mraise {A} (e : exn) : M A := fun h => (Raise e, h).

Definition mbind {A B} (m : M A) (f : A -> M B) : M B :=
  fun h =>
    match m h with
    | (Ok a, h') => f a h'
    | (Raise e, h') => (Raise e, h')
    end.

(** A method that only reads the hierarchy. *)
Definition mread {A} (f : Hierarchy -> result A) : M A := fun h => (f h, h).

Notation "x <~ m ;; k" := (mbind m (fun x => k))
  (at level 61, m at next level, right associativity).
Notation "m ;;~ k" := (mbind m (fun _ => k))
  (at level 61, right associativity).

Fixpoint mfor_each {A S} (l : list A) (body : S -> A -> M S) (s : S) : M S :=
  match l with
  | [] => mret s
  | x :: r => s' <~ body s x ;; mfor_each r body s'
  end.

(** ** [Hierarchy.rewrite]

    [_restrictive_rewrite], [_expansive_rewrite] and the [_propagate_*]
    methods behind the two propagation stages are abstract in [Hierarchy];
    the four stages after Stage 0 are parameters here. *)
Section Rewriting.
Variable _restrictive_rewrite : gid -> Rule -> mapping -> M (mapping * mapping).
Variable _propagate_backward :
  gid -> Rule -> mapping -> mapping -> mapping -> typing_rel -> M unit.
Variable _expansive_rewrite : gid -> Rule -> mapping -> M (mapping * mapping).
Variable _propagate_forward :
  gid -> Rule -> mapping -> mapping -> mapping -> mapping -> typing_rel -> M unit.

Definition rewrite (fuel : nat) (graph_id : gid) (rule : Rule)
           (instance : option mapping) (p_typing rhs_typing : option typing_rel)
           (strict : bool) : M mapping :=
  (* Type check the input rule, its instance and typing *)
  checked <~ mread (fun h => _check_rule_instance_typing
                               fuel h graph_id rule instance
                               p_typing rhs_typing strict) ;;
  let '(instance, p_typing, rhs_typing) := checked in
  (* Perform a restrictive rewrite *)
  r1 <~ _restrictive_rewrite graph_id rule instance ;;
  let '(p_g_m, g_m_g) := r1 in
  (* Propagate backward and fix broken homomorphisms *)
  _propagate_backward graph_id rule instance p_g_m g_m_g p_typing ;;~
  (* Perform an expansive rewrite *)
  r2 <~ _expansive_rewrite graph_id rule p_g_m ;;
  let '(rhs_g_prime, g_m_g_prime) := r2 in
  (* Propagate forward and fix broken homomorphisms *)
  _propagate_forward graph_id rule instance p_g_m rhs_g_prime
                     g_m_g_prime rhs_typing ;;~
  mret rhs_g_prime.
End Rewriting.

(** ** Structural mutation: [add_graph_from_data], [add_typing],
    [add_relation] *)

(** Modelled from the spec: [add_graph_from_data] is abstract in the
    sources; it adds a graph built from node and edge lists and fails if the
    id exists. *)
Definition add_graph_from_data (graph_id : gid)
           (node_list : list (node * attrs))
           (edge_list : list (node * node * attrs)) (a : attrs) : M unit :=
  fun h =>
    if inb graph_id (graphs h) then (Raise HierarchyError, h)
    else (Ok tt,
          mkHierarchy
            (h_graphs h ++ [(graph_id, (mkGraph node_list edge_list, a))])
            (h_typings h) (h_relations h)).

(** All the paths [s -> ... -> t] with at most [fuel] typing edges, as lists
    of graph ids. *)
Fixpoint paths_between (fuel : nat) (h : Hierarchy) (s t : gid)
  : list (list gid) :=
  match fuel with
  | O => []
  | S fuel' =>
      flat_map (fun x =>
                  (if keqb x t then [[s; t]] else [])
                  ++ map (cons s) (paths_between fuel' h x t))
               (successors h s)
  end.

Definition option_eqb {K} `{EqKey K} (a b : option K) : bool :=
  match a, b with
  | Some x, Some y => keqb x y
  | None, None => true
  | _, _ => false
  end.

(** Two maps agree on a set of nodes. *)
Definition maps_agree_on (ns : list node) (m1 m2 : mapping) : bool :=
  forallb (fun n => option_eqb (dget m1 n) (dget m2 n)) ns.

Definition path_commutes (h : Hierarchy) (ns : list node) (m : mapping)
           (path : list gid) : bool :=
  match compose_path_typing h path with
  | Ok m' => maps_agree_on ns m' m
  | Raise _ => false
  end.

(** Modelled from the spec: [add_typing] is abstract in the sources.  Its
    edge-addition acceptance algorithm checks that the mapping is a
    homomorphism, that the edge closes no cycle (reachability from the target
    back to the source), and that every existing path from the source to the
    target composes to the mapping on the nodes of the source; source and
    target must exist, and no typing edge may exist between them. *)
Definition add_typing (source target : gid) (m : mapping)
           (a : option attrs) : M unit :=
  fun h =>
    match dget (h_graphs h) source, dget (h_graphs h) target with
    | Some (gs, _), Some (gt, _) =>
        let bound := List.length (typings h) in
        if inb (source, target) (typings h) then (Raise HierarchyError, h)
        else if negb (is_homomorphism gs gt m)
             then (Raise InvalidHomomorphism, h)
        else if keqb source target
                || negb (Nat.eqb (List.length
                                    (paths_between bound h target source)) 0)
             then (Raise HierarchyError, h)
        else if negb (forallb (path_commutes h (nodes gs) m)
                              (paths_between bound h source target))
             then (Raise HierarchyError, h)
        else (Ok tt,
              mkHierarchy
                (h_graphs h)
                (h_typings h
                 ++ [((source, target),
                      (m, match a with Some a => a | None => [] end))])
                (h_relations h))
    | _, _ => (Raise HierarchyError, h)
    end.

(** Modelled from the spec: [add_relation] is abstract in the sources; it
    fails if either graph is missing, if a relation already exists between
    the two graphs, or if an id of the relation is not a node of the left or
    of the right graph. *)
Definition add_relation (left right : gid) (rel : relation)
           (a : option attrs) : M unit :=
  fun h =>
    match dget (h_graphs h) left, dget (h_graphs h) right with
    | Some (gl, _), Some (gr, _) =>
        if inb (left, right) (relations h) then (Raise HierarchyError, h)
        else if negb (forallb
                        (fun kv =>
                           inb (fst kv) (nodes gl)
                           && forallb (fun v => inb v (nodes gr)) (snd kv))
                        rel)
             then (Raise HierarchyError, h)
        else (Ok tt,
              mkHierarchy
                (h_graphs h) (h_typings h)
                (h_relations h
                 ++ [((left, right),
                      (rel, match a with Some a => a | None => [] end))]))
    | _, _ => (Raise HierarchyError, h)
    end.

(** [Hierarchy.adjacent_relations] *)
Definition adjacent_relations (h : Hierarchy) (g : gid) : result (list gid) :=
  if negb (inb g (graphs h)) then Raise HierarchyError
  else Ok (map snd (filter (fun lr => keqb (fst lr) g) (relations h))).

(** ** [Neo4jHierarchy.copy_graph] and [Hierarchy.duplicate_subgraph] *)

(** The body of the loop "copy all typings" of [copy_graph]. *)
Definition copy_attachment (graph_id new_graph_id g : gid) : M unit :=
  sucs <~ mread (fun h => Ok (successors h graph_id)) ;;
  (if inb g sucs then
     m <~ mread (fun h => get_typing h graph_id g) ;;
     add_typing new_graph_id g m None
   else mret tt) ;;~
  preds <~ mread (fun h => Ok (predecessors h graph_id)) ;;
  (if inb g preds then
     m <~ mread (fun h => get_typing h g graph_id) ;;
     add_typing g new_graph_id m None
   else mret tt) ;;~
  adj <~ mread (fun h => adjacent_relations h graph_id) ;;
  (if inb g adj then
     r <~ mread (fun h => get_relation h g graph_id) ;;
     add_relation g new_graph_id r None
   else mret tt).

Definition copy_graph (graph_id new_graph_id : gid) (attach_graphs : list gid)
  : M unit :=
  present <~ mread (fun h => Ok (inb new_graph_id (graphs h))) ;;
  if (present : bool) then mraise HierarchyError
  else
    a <~ mread (fun h => get_graph_attrs h graph_id) ;;
    g <~ mread (fun h => get_graph h graph_id) ;;
    add_graph_from_data new_graph_id (g_nodes g) (g_edges g) a ;;~
    (* copy all typings *)
    mfor_each attach_graphs
      (fun _ g => copy_attachment graph_id new_graph_id g) tt.

(** One step of the loop "copy typing between duplicated graphs": the
    typing edges of [g] from and to duplicated graphs that have not been
    visited are added between the copies. *)
Definition duplicate_typing (graph_dict : dict gid gid) (s t : gid)
           (visited : list (gid * gid)) : M (list (gid * gid)) :=
  new_s <~ mread (fun _ => getitem graph_dict s) ;;
  new_t <~ mread (fun _ => getitem graph_dict t) ;;
  m <~ mread (fun h => get_typing h s t) ;;
  add_typing new_s new_t m None ;;~
  mret (visited ++ [(s, t)]).

Definition duplicate_typings_of (graph_dict : dict gid gid)
           (visited : list (gid * gid)) (g : gid) : M (list (gid * gid)) :=
  preds <~ mread (fun h =>
             Ok (filter (fun p => dmem graph_dict p
                                  && negb (inb (p, g) visited))
                        (predecessors h g))) ;;
  sucs <~ mread (fun h =>
            Ok (filter (fun p => dmem graph_dict p
                                 && negb (inb (g, p) visited))
                       (successors h g))) ;;
  visited <~ mfor_each sucs
               (fun visited s => duplicate_typing graph_dict g s visited)
               visited ;;
  mfor_each preds
    (fun visited p => duplicate_typing graph_dict p g visited) visited.

Definition duplicate_subgraph (graph_dict : dict gid gid)
           (attach_graphs : list gid) : M unit :=
  old_graphs <~ mread (fun h => Ok (graphs h)) ;;
  mread (fun _ =>
           for_each graph_dict
             (fun _ on =>
                if inb (snd on) old_graphs then Raise HierarchyError
                else Ok tt)
             tt) ;;~
  (* copy graphs *)
  mfor_each graph_dict
    (fun _ on => copy_graph (fst on) (snd on) attach_graphs) tt ;;~
  (* copy typing between duplicated graphs *)
  mfor_each (dkeys graph_dict) (duplicate_typings_of graph_dict) [] ;;~
  mret tt.

(** ** JSON representation: [to_json], [add_graph_from_json], [from_json] *)

(** Modelled from the spec: [attrs_to_json] and [attrs_from_json] are not
    part of the sources; attribute JSON is a mapping from a name to a type
    tag and the data of the set. *)
Definition attrs_json := dict string (string * list string).

Definition attrs_to_json (a : attrs) : attrs_json :=
  map (fun kv => (fst kv, ("FiniteSet", snd kv))) a.

Definition attrs_from_json (j : attrs_json) : attrs :=
  map (fun kv => (fst kv, snd (snd kv))) j.

Record node_json := mkNodeJson { nj_id : node; nj_attrs : attrs_json }.
Record edge_json := mkEdgeJson {
  ej_from : node; ej_to : node; ej_attrs : attrs_json
}.
Record graph_json := mkGraphJson {
  gj_nodes : list node_json;
  gj_edges : list edge_json
}.

(** The entries of the three lists of a hierarchy in JSON; the key ["attrs"]
    may be absent. *)
Record graph_data := mkGraphData {
  gd_id : gid; gd_graph : graph_json; gd_attrs : option attrs_json
}.
Record typing_data := mkTypingData {
  td_from : gid; td_to : gid; td_mapping : mapping;
  td_attrs : option attrs_json
}.
Record relation_data := mkRelationData {
  rd_from : gid; rd_to : gid; rd_rel : dict node (list node);
  rd_attrs : option attrs_json
}.
Record json_data := mkJson {
  jd_graphs : list graph_data;
  jd_typing : list typing_data;
  jd_relations : list relation_data
}.

(** Modelled from the spec: the [to_json] method of a graph is not part of
    the sources; it produces the "nodes" and "edges" lists that
    [add_graph_from_json] reads. *)
Definition graph_to_json (g : Graph) : graph_json :=
  mkGraphJson
    (map (fun na => mkNodeJson (fst na) (attrs_to_json (snd na))) (g_nodes g))
    (map (fun e => let '(s, t, a) := e in mkEdgeJson s t (attrs_to_json a))
         (g_edges g)).

Definition add_graph_from_json (graph_id : gid) (json : graph_json)
           (a : attrs) : M unit :=
  let node_list :=
    map (fun n => (nj_id n, attrs_from_json (nj_attrs n))) (gj_nodes json) in
  let edge_list :=
    map (fun e => (ej_from e, ej_to e, attrs_from_json (ej_attrs e)))
        (gj_edges json) in
  add_graph_from_data graph_id node_list edge_list a.

(** [rename_nodes[x] if rename_nodes and x in rename_nodes.keys() else x] *)
Definition renamed (rename_nodes : option (dict gid gid)) (x : gid) : gid :=
  match rename_nodes with
  | Some d => match dget d x with Some y => y | None => x end
  | None => x
  end.

(** The bodies of the three loops of [to_json]. *)
Definition to_json_graph (h : Hierarchy) (rename_nodes : option (dict gid gid))
           (acc : list graph_data) (na : gid * attrs)
  : result (list graph_data) :=
  let '(n, a) := na in
  g <- get_graph h n ;;
  Ok (acc ++ [mkGraphData (renamed rename_nodes n) (graph_to_json g)
                          (Some (attrs_to_json a))]).

Definition to_json_typing (h : Hierarchy) (rename_nodes : option (dict gid gid))
           (acc : list typing_data) (sta : gid * gid * attrs)
  : result (list typing_data) :=
  let '(s, t, a) := sta in
  m <- get_typing h s t ;;
  Ok (acc ++ [mkTypingData (renamed rename_nodes s) (renamed rename_nodes t)
                           m (Some (attrs_to_json a))]).

Definition to_json_relation (h : Hierarchy)
           (rename_nodes : option (dict gid gid))
           (st : list (gid * gid) * list relation_data)
           (uva : gid * gid * attrs)
  : result (list (gid * gid) * list relation_data) :=
  let '(u, v, a) := uva in
  let '(visited, acc) := st in
  if negb (inb (u, v) visited) && negb (inb (v, u) visited) then
    r <- get_relation h u v ;;
    Ok (visited ++ [(u, v)],
        acc ++ [mkRelationData (renamed rename_nodes u)
                               (renamed rename_nodes v)
                               r (Some (attrs_to_json a))])
  else Ok st.

Definition to_json (h : Hierarchy) (rename_nodes : option (dict gid gid))
  : result json_data :=
  gs <- for_each (graphs_data h) (to_json_graph h rename_nodes) [] ;;
  ts <- for_each (typings_data h) (to_json_typing h rename_nodes) [] ;;
  (* visited = set() *)
  rs <- for_each (relations_data h) (to_json_relation h rename_nodes)
                 ([], []) ;;
  Ok (mkJson gs ts (snd rs)).

(** The [ignore] argument of [from_json]: a dictionary whose keys "graphs",
    "typing" and "relations" may be absent. *)
Record ignore_spec := mkIgnore {
  ig_graphs : option (list gid);
  ig_typing : option (list (gid * gid));
  ig_relations : option (list (gid * gid))
}.

Definition ignored {K} `{EqKey K} (ignore : option ignore_spec)
           (field : ignore_spec -> option (list K)) (x : K) : bool :=
  match ignore with
  | Some ig => match field ig with Some l => inb x l | None => false end
  | None => false
  end.

Definition json_attrs (a : option attrs_json) : attrs :=
  match a with
  | None => []
  | Some j => attrs_from_json j
  end.

(** The bodies of the three loops of [from_json]. *)
Definition from_json_graph (ignore : option ignore_spec) (gd : graph_data)
  : M unit :=
  if ignored ignore ig_graphs (gd_id gd) then mret tt
  else add_graph_from_json (gd_id gd) (gd_graph gd) (json_attrs (gd_attrs gd)).

Definition from_json_typing (ignore : option ignore_spec) (td : typing_data)
  : M unit :=
  if ignored ignore ig_typing (td_from td, td_to td) then mret tt
  else add_typing (td_from td) (td_to td) (td_mapping td)
                  (Some (json_attrs (td_attrs td))).

Definition from_json_relation (ignore : option ignore_spec)
           (rd : relation_data) : M unit :=
  let from_g := rd_from rd in
  let to_g := rd_to rd in
  if ignored ignore ig_relations (from_g, to_g)
     || ignored ignore ig_relations (to_g, from_g) then mret tt
  else
    present <~ mread (fun h => Ok (inb (from_g, to_g) (relations h))) ;;
    if (present : bool) then mret tt
    else add_relation from_g to_g
                      (map (fun ab => (fst ab, dedup (snd ab))) (rd_rel rd))
                      (Some (json_attrs (rd_attrs rd))).

Definition from_json_steps (json : json_data) (ignore : option ignore_spec)
  : M unit :=
  (* add graphs *)
  mfor_each (jd_graphs json) (fun _ gd => from_json_graph ignore gd) tt ;;~
  (* add typing *)
  mfor_each (jd_typing json) (fun _ td => from_json_typing ignore td) tt ;;~
  (* add relations *)
  mfor_each (jd_relations json) (fun _ rd => from_json_relation ignore rd) tt.

(** [from_json] is a class method: it starts from [cls()], the empty
    hierarchy, and returns it once filled. *)
Definition from_json (json : json_data) (ignore : option ignore_spec)
  : result Hierarchy :=
  match from_json_steps json ignore empty_hierarchy with
  | (Ok _, h) => Ok h
  | (Raise e, _) => Raise e
  end.

(** ** [Hierarchy.get_rule_propagations]

    The function builds its result in local dictionaries and never calls a
    mutating method of the hierarchy: it is a function of the hierarchy, not
    a state transformer. *)

(** [a, b = s] for a string [s]: a string unpacks into its characters, and
    into two targets only when it has exactly two of them. *)
Definition unpack2 (s : string) : result (string * string) :=
  match s with
  | String a (String b EmptyString) =>
      Ok (String a EmptyString, String b EmptyString)
  | _ => Raise ValueError
  end.

(** [del d[k]] for a key that is present. *)
Definition ddel {K V} `{EqKey K} (d : dict K V) (k : K) : dict K V :=
  filter (fun kv => negb (keqb (fst kv) k)) d.

(** [l[0]] *)
Definition first_item {A} (l : list A) : result A :=
  match l with
  | x :: _ => Ok x
  | [] => Raise IndexError
  end.

(** [for x in l: if test(x): found = x; break] *)
Fixpoint find_first {A} (l : list A) (test : A -> result bool)
  : result (option A) :=
  match l with
  | [] => Ok None
  | x :: r =>
      b <- test x ;;
      if (b : bool) then Ok (Some x) else find_first r test
  end.

(** The values that reach a parameter meant for a map between nodes: the
    loops of the function pass characters of graph ids and one-element tuples
    where a dictionary is expected. *)
Inductive pyobj : Type :=
| PyDict (m : mapping)
| PyStr (s : string)
| PyTuple (elts : list mapping).

(** The value of [rule_hierarchy], a dictionary with two keys. *)
Record RuleHierarchy := mkRuleHierarchy {
  rh_rules : dict gid Rule;
  rh_rule_homomorphisms : dict (gid * gid) (pyobj * pyobj * pyobj)
}.

(** The local dictionaries of the function; [lv_p_g_p] is the variable
    [p_g_p], bound by the first loop and read by the third. *)
Record locals := mkLocals {
  lv_rules : dict gid Rule;
  lv_instances : dict gid mapping;
  lv_l_g_ls : dict gid mapping;
  lv_p_g_ps : dict gid mapping;
  lv_p_g_p : option mapping;
  lv_l_l_ts : dict gid mapping;
  lv_p_p_ts : dict gid (list mapping);
  lv_r_r_ts : dict gid mapping
}.

(** Modelled from the spec: [remove_node] and [add_node] belong to the graph
    class, which is not part of the sources; a node leaves a graph with its
    edges, and enters it with no attribute. *)
Definition remove_node (g : Graph) (n : node) : Graph :=
  mkGraph (ddel (g_nodes g) n)
          (filter (fun e => negb (keqb (fst (fst e)) n)
                            && negb (keqb (snd (fst e)) n)) (g_edges g)).

Definition add_node (g : Graph) (n : node) : Graph :=
  mkGraph (g_nodes g ++ [(n, [])]) (g_edges g).

(** The category kernel ([pullback], [image_factorization], [pushout]), the
    constructor of [Rule] with its defaults, [generate_new_node_id] of the
    graph class, what [compose] does with an argument that is not a
    dictionary and what a rule does when it is subscripted are not part of the
    sources: the function is defined for any of them. *)
Section RulePropagations.
Variable pullback :
  Graph -> Graph -> Graph -> pyobj -> pyobj -> result (Graph * mapping * mapping).
Variable image_factorization :
  Graph -> Graph -> mapping -> result (Graph * mapping * mapping).
Variable pushout :
  Graph -> Graph -> Graph -> mapping -> mapping
  -> result (Graph * mapping * mapping).
Variable compose_obj : pyobj -> pyobj -> result mapping.
(* Rule(p=.., lhs=.., rhs=.., p_lhs=.., p_rhs=..) *)
Variable new_rule :
  option Graph -> option Graph -> option Graph -> option mapping
  -> option mapping -> Rule.
Variable generate_new_node_id : Graph -> node -> node.
Variable rule_getitem : Rule -> string -> result Rule.

(** [{keys_by_value(l_g_g, k)[0]: v for k, v in p_typing[ancestor].items()}] *)
Definition l_g_factorization_of (l_g_g : mapping)
           (rel : dict node (list node)) : result (dict node (list node)) :=
  for_each rel
           (fun acc kv =>
              l_g_node <- first_item (keys_by_value l_g_g (fst kv)) ;;
              Ok (dset acc l_g_node (snd kv))) [].

(** One turn of the loop over [canonical_p_g.nodes()]; the state is
    [p_g_p], [p_g_l_g] and [p_g_nodes_to_remove]. *)
Definition restrict_p_g_node (l_g_factorization : dict node (list node))
           (st : mapping * mapping * list node) (n : node)
  : result (mapping * mapping * list node) :=
  let '(p_g_p, p_g_l_g, p_g_nodes_to_remove) := st in
  l_g_node <- getitem p_g_l_g n ;;
  (* If corresponding L_G node is specified in the controlling relation,
     remove all the instances of P nodes not mentioned in this relations *)
  match dget l_g_factorization l_g_node with
  | Some p_nodes =>
      p_node <- getitem p_g_p n ;;
      if negb (inb p_node p_nodes) then
        Ok (ddel p_g_p n, ddel p_g_l_g n,
            if inb n p_g_nodes_to_remove then p_g_nodes_to_remove
            else p_g_nodes_to_remove ++ [n])
      else Ok st
  | None => Ok st
  end.

(** The body of [for ancestor, origin_typing in ancestors]: the loop runs
    over the keys of the dictionary and unpacks each key. *)
Definition lift_rule (h : Hierarchy) (origin_id : gid) (rule : Rule)
           (instance : mapping) (p_typing : typing_rel)
           (st : locals) (key : gid) : result locals :=
  u <- unpack2 key ;;
  let '(ancestor, origin_typing) := u in
  (* Compute L_G *)
  ancestor_graph <- get_graph h ancestor ;;
  origin_graph <- get_graph h origin_id ;;
  pb <- pullback ancestor_graph (lhs rule) origin_graph
                 (PyStr origin_typing) (PyDict instance) ;;
  let '(l_g, l_g_g, l_g_l) := pb in
  (* Compute canonical P_G *)
  pb' <- pullback l_g (p rule) (lhs rule) (PyDict l_g_l)
                  (PyDict (p_lhs rule)) ;;
  let '(canonical_p_g, p_g_l_g, p_g_p) := pb' in
  (* Remove controlled things from P_G *)
  restricted <-
    match dget p_typing ancestor with
    | Some rel =>
        l_g_factorization <- l_g_factorization_of l_g_g rel ;;
        r <- for_each (nodes canonical_p_g)
                      (restrict_p_g_node l_g_factorization)
                      (p_g_p, p_g_l_g, []) ;;
        let '(p_g_p, p_g_l_g, p_g_nodes_to_remove) := r in
        Ok (fold_left remove_node p_g_nodes_to_remove canonical_p_g,
            p_g_l_g, p_g_p)
    | None => Ok (canonical_p_g, p_g_l_g, p_g_p)
    end ;;
  let '(canonical_p_g, p_g_l_g, p_g_p) := restricted in
  Ok (mkLocals
        (dset (lv_rules st) ancestor
              (new_rule (Some canonical_p_g) (Some l_g) None
                        (Some p_g_l_g) None))
        (dset (lv_instances st) ancestor l_g_g)
        (dset (lv_l_g_ls st) ancestor l_g_l)
        (dset (lv_p_g_ps st) ancestor p_g_p)
        (Some p_g_p)
        (lv_l_l_ts st) (lv_p_p_ts st) (lv_r_r_ts st)).

(** [{r_r_t[k]: v for k, v in rhs_typing[descendant].items()}] *)
Definition r_t_factorization_of (r_r_t : mapping)
           (rel : dict node (list node)) : result (dict node (list node)) :=
  for_each rel
           (fun acc kv =>
              r_t_node <- getitem r_r_t (fst kv) ;;
              Ok (dset acc r_t_node (snd kv))) [].

(** One turn of [for t_node in t_nodes]; the state is [l_t], [l_t_r_t],
    [l_t_t] and [added_t_nodes]. *)
Definition adjoin_t_node (n : node)
           (st : Graph * mapping * mapping * list node) (t_node : node)
  : result (Graph * mapping * mapping * list node) :=
  let '(l_t, l_t_r_t, l_t_t, added_t_nodes) := st in
  if negb (inb t_node (dvalues l_t_t)) && negb (inb t_node added_t_nodes) then
    let new_p_node := generate_new_node_id l_t t_node in
    Ok (add_node l_t new_p_node,
        dset l_t_r_t new_p_node n,
        dset l_t_t new_p_node t_node,
        added_t_nodes ++ [t_node])
  else
    k <- first_item (keys_by_value l_t_t t_node) ;;
    Ok (l_t, dset l_t_r_t k n, l_t_t, added_t_nodes).

(** The body of [for descendant, origin_typing in descendants]. *)
Definition project_rule (h : Hierarchy) (rule : Rule) (instance : mapping)
           (rhs_typing : typing_rel) (st : locals) (key : gid)
  : result locals :=
  u <- unpack2 key ;;
  let '(descendant, origin_typing) := u in
  (* Compute canonical P_T *)
  descendant_graph <- get_graph h descendant ;;
  l_t_map <- compose_obj (PyDict instance) (PyStr origin_typing) ;;
  f <- image_factorization (lhs rule) descendant_graph l_t_map ;;
  let '(l_t, l_l_t, l_t_t) := f in
  (* Compute canonical R_T *)
  po <- pushout (p rule) l_t (rhs rule) l_l_t (p_rhs rule) ;;
  let '(r_t, l_t_r_t, r_r_t) := po in
  (* Modify P_T and R_T according to the controlling relation rhs_typing *)
  adjoined <-
    match dget rhs_typing descendant with
    | Some rel =>
        r_t_factorization <- r_t_factorization_of r_r_t rel ;;
        for_each (nodes r_t)
                 (fun st n =>
                    match dget r_t_factorization n with
                    | Some t_nodes => for_each t_nodes (adjoin_t_node n) st
                    | None => Ok st
                    end)
                 (l_t, l_t_r_t, l_t_t, [])
    | None => Ok (l_t, l_t_r_t, l_t_t, [])
    end ;;
  let '(l_t, l_t_r_t, l_t_t, _) := adjoined in
  (* {k: l_l_t[v] for k, v in rule.p_lhs.items()}, kept in a tuple *)
  p_p_t <- for_each (p_lhs rule)
                    (fun acc kv =>
                       v <- getitem l_l_t (snd kv) ;;
                       Ok (dset acc (fst kv) v)) [] ;;
  Ok (mkLocals
        (dset (lv_rules st) descendant
              (new_rule (Some l_t) (Some l_t) (Some r_t) None
                        (Some l_t_r_t)))
        (dset (lv_instances st) descendant l_t_t)
        (lv_l_g_ls st) (lv_p_g_ps st) (lv_p_g_p st)
        (dset (lv_l_l_ts st) descendant l_l_t)
        (dset (lv_p_p_ts st) descendant [p_p_t])
        (dset (lv_r_r_ts st) descendant r_r_t)).

(** The two dictionaries built when the successor has been lifted to. *)
Definition lifted_lhs_map (st : locals) (graph_id successor : gid)
           (l_graph_successor : mapping) : result mapping :=
  for_each l_graph_successor
           (fun acc kv =>
              l_g_l <- getitem (lv_l_g_ls st) graph_id ;;
              l_node_g <- getitem l_g_l (fst kv) ;;
              instance_s <- getitem (lv_instances st) successor ;;
              found <- find_first
                         (keys_by_value instance_s (snd kv))
                         (fun vv =>
                            l_s_l <- getitem (lv_l_g_ls st) successor ;;
                            l_node_s <- getitem l_s_l vv ;;
                            Ok (keqb l_node_s l_node_g)) ;;
              match found with
              | Some vv => Ok (dset acc (fst kv) vv)
              | None => Ok acc
              end) [].

Definition lifted_p_map (st : locals) (graph_id successor : gid)
           (p_graph_successor p_successor_successor : mapping)
  : result mapping :=
  for_each p_graph_successor
           (fun acc kv =>
              p_g_p <- getitem (lv_p_g_ps st) graph_id ;;
              p_node_g <- getitem p_g_p (fst kv) ;;
              found <- find_first
                         (keys_by_value p_successor_successor (snd kv))
                         (fun vv =>
                            p_s_p <- getitem (lv_p_g_ps st) successor ;;
                            p_node_s <- getitem p_s_p vv ;;
                            Ok (keqb p_node_s p_node_g)) ;;
              match found with
              (* graph_p_successor_p[p_node_g] = p_node_s, and the two are
                 equal here *)
              | Some _ => Ok (dset acc p_node_g p_node_g)
              | None => Ok acc
              end) [].

(** The body of [for successor in self.successors(graph_id)]; the state is
    [rule_hierarchy["rule_homomorphisms"]]. *)
Definition lifted_homomorphism (h : Hierarchy) (origin_id : gid) (rule : Rule)
           (ancestors descendants : dict gid mapping) (st : locals)
           (graph_id : gid)
           (homs : dict (gid * gid) (pyobj * pyobj * pyobj)) (successor : gid)
  : result (dict (gid * gid) (pyobj * pyobj * pyobj)) :=
  old_typing <- get_typing h graph_id successor ;;
  if keqb successor origin_id then
    graph_lhs_successor_lhs <- getitem (lv_l_g_ls st) graph_id ;;
    graph_p_successor_p <-
      match lv_p_g_p st with
      | Some p_g_p => getitem p_g_p graph_id
      | None => Raise UnboundLocalError
      end ;;
    Ok (dset homs (graph_id, successor)
             (PyDict graph_lhs_successor_lhs,
              PyStr graph_p_successor_p,
              PyStr graph_p_successor_p))
  else
    instance_g <- getitem (lv_instances st) graph_id ;;
    let l_graph_successor := compose instance_g old_typing in
    (* already lifted to the successor *)
    if dmem ancestors successor then
      rule_g <- getitem (lv_rules st) graph_id ;;
      let p_graph_successor := compose (p_lhs rule_g) l_graph_successor in
      rule_s <- getitem (lv_rules st) successor ;;
      instance_s <- getitem (lv_instances st) successor ;;
      let p_successor_successor := compose (p_lhs rule_s) instance_s in
      graph_lhs_successor_lhs <-
        lifted_lhs_map st graph_id successor l_graph_successor ;;
      graph_p_successor_p <-
        lifted_p_map st graph_id successor
                     p_graph_successor p_successor_successor ;;
      Ok (dset homs (graph_id, successor)
               (PyDict graph_lhs_successor_lhs,
                PyDict graph_p_successor_p,
                PyDict graph_p_successor_p))
    else if dmem descendants successor then
      l_g_l <- getitem (lv_l_g_ls st) graph_id ;;
      l_l_t <- getitem (lv_l_l_ts st) successor ;;
      p_g_p <- getitem (lv_p_g_ps st) graph_id ;;
      p_p_t <- getitem (lv_p_p_ts st) successor ;;
      p_map <- compose_obj (PyDict p_g_p) (PyTuple p_p_t) ;;
      p_g_p' <- getitem (lv_p_g_ps st) graph_id ;;
      r_r_t <- getitem (lv_r_r_ts st) successor ;;
      Ok (dset homs (graph_id, successor)
               (PyDict (compose l_g_l l_l_t),
                PyDict p_map,
                PyDict (compose (compose p_g_p' (p_rhs rule)) r_r_t)))
    (* didn't touch the successor or projected to it *)
    else Ok homs.

(** [predecessor_l_graph_l] of the last branch. *)
Definition projected_lhs_map (st : locals) (graph_id predecessor : gid)
           (l_pred_graph : mapping) : result mapping :=
  instance_p <- getitem (lv_instances st) predecessor ;;
  for_each instance_p
           (fun acc kv =>
              instance_g <- getitem (lv_instances st) graph_id ;;
              image <- getitem l_pred_graph (fst kv) ;;
              k <- first_item (keys_by_value instance_g image) ;;
              Ok (dset acc (fst kv) k)) [].

(** [predecessor_rhs_graph_rhs] of the last branch. *)
Definition projected_rhs_map (st : locals) (graph_id predecessor : gid)
           (predecessor_l_graph_l : mapping) : result mapping :=
  r_r_t_p <- getitem (lv_r_r_ts st) predecessor ;;
  for_each r_r_t_p
           (fun acc kv =>
              let '(r_node, r_pred_node) := kv in
              rule_p <- getitem (lv_rules st) predecessor ;;
              let p_pred_nodes := keys_by_value (p_rhs rule_p) r_pred_node in
              r_graph_node <-
                for_each p_pred_nodes
                         (fun _ v =>
                            p_graph_node <- getitem predecessor_l_graph_l v ;;
                            rule_g <- getitem (lv_rules st) graph_id ;;
                            rule_g' <- rule_getitem rule_g "rule" ;;
                            r <- getitem (p_rhs rule_g') p_graph_node ;;
                            Ok (Some r)) None ;;
              r_graph_node <-
                (if Nat.eqb (List.length p_pred_nodes) 0 then
                   r_r_t_g <- getitem (lv_r_r_ts st) graph_id ;;
                   r <- getitem r_r_t_g r_node ;;
                   Ok (Some r)
                 else Ok r_graph_node) ;;
              match r_graph_node with
              | Some r => Ok (dset acc r_pred_node r)
              | None => Raise UnboundLocalError
              end) [].

(** The body of [for predecessor in self.predecessors(graph_id)]; the name
    [p_p_t] read by its first branch is bound nowhere. *)
Definition projected_homomorphism (h : Hierarchy) (origin_id : gid)
           (descendants : dict gid mapping) (st : locals) (graph_id : gid)
           (homs : dict (gid * gid) (pyobj * pyobj * pyobj))
           (predecessor : gid)
  : result (dict (gid * gid) (pyobj * pyobj * pyobj)) :=
  old_typing <- get_typing h predecessor graph_id ;;
  if keqb predecessor origin_id then
    predecessor_l_graph_l <- getitem (lv_l_l_ts st) graph_id ;;
    Raise NameError
  else
    (* already projected to the predecessor *)
    if dmem descendants predecessor then
      instance_p <- getitem (lv_instances st) predecessor ;;
      let l_pred_graph := compose instance_p old_typing in
      predecessor_l_graph_l <-
        projected_lhs_map st graph_id predecessor l_pred_graph ;;
      predecessor_rhs_graph_rhs <-
        projected_rhs_map st graph_id predecessor predecessor_l_graph_l ;;
      Ok (dset homs (predecessor, graph_id)
               (PyDict predecessor_l_graph_l,
                PyDict predecessor_l_graph_l,
                PyDict predecessor_rhs_graph_rhs))
    (* didn't touch the predecessor or lifter to it *)
    else Ok homs.

(** The body of [for graph_id, graph_rule in rule_hierarchy["rules"]]: again
    a loop over the keys of a dictionary that unpacks each key. *)
Definition rule_homomorphisms_step (h : Hierarchy) (origin_id : gid)
           (rule : Rule) (ancestors descendants : dict gid mapping)
           (st : locals)
           (homs : dict (gid * gid) (pyobj * pyobj * pyobj)) (key : gid)
  : result (dict (gid * gid) (pyobj * pyobj * pyobj)) :=
  u <- unpack2 key ;;
  let '(graph_id, graph_rule) := u in
  homs <-
    (if dmem ancestors graph_id then
       for_each (successors h graph_id)
                (lifted_homomorphism h origin_id rule ancestors descendants
                                     st graph_id) homs
     else Ok homs) ;;
  if dmem descendants graph_id then
    for_each (predecessors h graph_id)
             (projected_homomorphism h origin_id descendants st graph_id) homs
  else Ok homs.

Definition get_rule_propagations (fuel : nat) (h : Hierarchy)
           (origin_id : gid) (rule : Rule) (instance : option mapping)
           (p_typing rhs_typing : option typing_rel)
  : result (RuleHierarchy * dict gid mapping) :=
  checked <- _check_rule_instance_typing fuel h origin_id rule instance
                                         p_typing rhs_typing false ;;
  let '(instance, p_typing, rhs_typing) := checked in
  let st := mkLocals [(origin_id, rule)] [(origin_id, instance)]
                     [] [] None [] [] [] in
  ancestors <- get_ancestors fuel h origin_id ;;
  descendants <- get_descendants fuel h origin_id ;;
  (* Compute rule liftings *)
  st <- for_each (dkeys ancestors)
                 (lift_rule h origin_id rule instance p_typing) st ;;
  (* Compute rule projections *)
  st <- for_each (dkeys descendants)
                 (project_rule h rule instance rhs_typing) st ;;
  (* Compute homomorphisms between rules *)
  homs <- for_each (dkeys (lv_rules st))
                   (rule_homomorphisms_step h origin_id rule
                                            ancestors descendants st) [] ;;
  Ok (mkRuleHierarchy (lv_rules st) homs, lv_instances st).
End RulePropagations.

(** ** [Hierarchy.__ne__] *)

Definition hierarchy_ne (self hierarchy : Hierarchy) : bool :=
  negb (hierarchy_eq self hierarchy).

(** ** [Hierarchy.node_type] *)

(** One turn of [for successor in self.successors(graph_id)]. *)
Definition node_type_step (h : Hierarchy) (graph_id : gid) (node_id : node)
           (types : dict gid node) (successor : gid)
  : result (dict gid node) :=
  mapping <- get_typing h graph_id successor ;;
  match dget mapping node_id with
  | Some v => Ok (dset types successor v)
  | None => Ok types
  end.

Definition node_type (h : Hierarchy) (graph_id : gid) (node_id : node)
  : result (dict gid node) :=
  if negb (inb graph_id (graphs h)) then Raise HierarchyError
  else
    g <- get_graph h graph_id ;;
    if negb (inb node_id (nodes g)) then Raise HierarchyError
    else for_each (successors h graph_id)
                  (node_type_step h graph_id node_id) [].

(** ** [Hierarchy.unique_graph_id] *)

(** ["{}_{}".format(prefix, i)] for an integer [i]. *)
Definition format_id (prefix : string) (i : nat) : string :=
  prefix ++ "_" ++ DecimalString.NilEmpty.string_of_uint (Nat.to_uint i).

(** The [while] loop, bounded by [fuel]; [None] means the bound was reached
    before the loop ended. *)
Fixpoint unique_graph_id_loop (fuel : nat) (h : Hierarchy) (prefix : string)
         (i : nat) : option string :=
  match fuel with
  | O => None
  | S fuel' =>
      if inb (format_id prefix i) (graphs h)
      then unique_graph_id_loop fuel' h prefix (S i)
      else Some (format_id prefix i)
  end.

Definition unique_graph_id (fuel : nat) (h : Hierarchy) (prefix : string)
  : option string :=
  if negb (inb prefix (graphs h)) then Some prefix
  else unique_graph_id_loop fuel h prefix 0.

(** * Properties *)

(** ** Concrete hierarchies used by the examples *)

Definition plain_graph (ns : list node) : Graph :=
  mkGraph (map (fun n => (n, [])) ns) [].

(** One graph, nothing else. *)
Definition single_hierarchy : Hierarchy :=
  mkHierarchy [("A", (plain_graph ["a"], []))] [] [].

(** Two graphs with a typing edge and a relation between them. *)
Definition typed_hierarchy : Hierarchy :=
  mkHierarchy
    [("A", (plain_graph ["a"], [])); ("B", (plain_graph ["b"], []))]
    [(("A", "B"), ([("a", "b")], []))]
    [(("A", "B"), ([("a", ["b"])], []))].

(** ** Equality of hierarchies is one-sided containment *)

(** Every graph, typing edge and relation of [h1] occurs in [h2], with equal
    attributes. *)
Definition contained_in (h1 h2 : Hierarchy) : Prop :=
  (forall n a, In (n, a) (graphs_data h1) ->
               In n (graphs h2) /\ get_graph_attrs h2 n = Ok a)
  /\ (forall s t a, In (s, t, a) (typings_data h1) ->
                    In (s, t) (edges h2) /\ get_typing_attrs h2 s t = Ok a)
  /\ (forall n1 n2 a, In (n1, n2, a) (relations_data h1) ->
                      (In (n1, n2) (relations h2) \/ In (n2, n1) (relations h2))
                      /\ get_relation_attrs h2 n1 n2 = Ok a).

Lemma attrs_differ_false a r : attrs_differ a r = false <-> r = Ok a.
Proof.
  unfold attrs_differ. destruct r as [b|e].
  - rewrite negb_false_iff, attrs_eqb_eq. split; congruence.
  - split; discriminate.
Qed.

Lemma hierarchy_eq_iff h1 h2 :
  hierarchy_eq h1 h2 = true <-> contained_in h1 h2.
Proof.
  unfold hierarchy_eq, contained_in.
  rewrite !andb_true_iff, !forallb_forall. split.
  - intros [[Hg Ht] Hr]. repeat split.
    + specialize (Hg _ H). simpl in Hg.
      destruct (inb n (graphs h2)) eqn:E; [now apply inb_In | discriminate].
    + specialize (Hg _ H). simpl in Hg.
      destruct (inb n (graphs h2)); [| discriminate].
      simpl in Hg. apply attrs_differ_false.
      destruct (attrs_differ a (get_graph_attrs h2 n)); congruence.
    + specialize (Ht _ H). simpl in Ht.
      destruct (inb (s, t) (edges h2)) eqn:E; [now apply inb_In | discriminate].
    + specialize (Ht _ H). simpl in Ht.
      destruct (inb (s, t) (edges h2)); [| discriminate].
      simpl in Ht. apply attrs_differ_false.
      destruct (attrs_differ a (get_typing_attrs h2 s t)); congruence.
    + specialize (Hr _ H). simpl in Hr.
      destruct (inb (n1, n2) (relations h2)) eqn:E1;
        [left; now apply inb_In |].
      destruct (inb (n2, n1) (relations h2)) eqn:E2;
        [right; now apply inb_In | discriminate].
    + specialize (Hr _ H). simpl in Hr.
      destruct (negb (inb (n1, n2) (relations h2))
                && negb (inb (n2, n1) (relations h2))); [discriminate |].
      apply attrs_differ_false.
      destruct (attrs_differ a (get_relation_attrs h2 n1 n2)); congruence.
  - intros [Hg [Ht Hr]]. repeat split.
    + intros [n a] Hin. destruct (Hg _ _ Hin) as [Hn Ha].
      apply inb_In in Hn. rewrite Hn. simpl.
      apply attrs_differ_false in Ha. now rewrite Ha.
    + intros [[s t] a] Hin. destruct (Ht _ _ _ Hin) as [Hn Ha].
      apply inb_In in Hn. simpl. rewrite Hn. simpl.
      apply attrs_differ_false in Ha. now rewrite Ha.
    + intros [[n1 n2] a] Hin. destruct (Hr _ _ _ Hin) as [Hn Ha].
      simpl. apply attrs_differ_false in Ha. rewrite Ha.
      destruct Hn as [Hn|Hn]; apply inb_In in Hn; rewrite Hn; simpl;
        [reflexivity | now rewrite andb_false_r].
Qed.

(** C10: [__eq__] tests one-sided containment only: [h1 == h2] holds as soon
    as every graph, typing edge and relation of [h1] occurs in [h2] with equal
    attributes; there are hierarchies [h1 == h2] where [h2] has a graph, a
    typing edge and a relation that [h1] lacks, and [h2 == h1] is false, so
    [==] is not symmetric. *)
Theorem hierarchy_eq_one_sided :
  (forall h1 h2, contained_in h1 h2 -> hierarchy_eq h1 h2 = true)
  /\ exists h1 h2,
      hierarchy_eq h1 h2 = true
      /\ hierarchy_eq h2 h1 = false
      /\ (exists g, In g (graphs h2) /\ ~ In g (graphs h1))
      /\ (exists e, In e (typings h2) /\ ~ In e (typings h1))
      /\ (exists r, In r (relations h2) /\ ~ In r (relations h1)).
Proof.
  split.
  - intros h1 h2 Hc. now apply hierarchy_eq_iff.
  - exists single_hierarchy, typed_hierarchy.
    split; [reflexivity |]. split; [reflexivity |].
    split; [| split].
    + exists "B". split; [simpl; auto |].
      simpl. intros [E | []]. discriminate.
    + exists ("A", "B"). split; [simpl; auto | simpl; tauto].
    + exists ("A", "B"). split; [simpl; auto | simpl; tauto].
Qed.

(** ** Breadth-first enumeration *)

(** A diamond: [A -> B], [A -> C], [B -> D], [C -> D]. *)
Definition diamond_hierarchy : Hierarchy :=
  mkHierarchy
    [("A", (plain_graph ["x"], [])); ("B", (plain_graph ["x"], []));
     ("C", (plain_graph ["x"], [])); ("D", (plain_graph ["x"], []))]
    [(("A", "B"), ([("x", "x")], [])); (("A", "C"), ([("x", "x")], []));
     (("B", "D"), ([("x", "x")], [])); (("C", "D"), ([("x", "x")], []))]
    [].

(** The graphs a level can contain: targets of typing edges, or sources when
    the edges are followed backwards. *)
Definition bfs_universe (h : Hierarchy) (reverse : bool) : list gid :=
  dedup (if reverse then map fst (typings h) else map snd (typings h)).

Definition unvisited (h : Hierarchy) (reverse : bool) (res : list gid)
  : list gid :=
  filter (fun x => negb (inb x res)) (bfs_universe h reverse).

Lemma dedup_In {K} `{EqKey K} (x : K) l : In x (dedup l) <-> In x l.
Proof.
  induction l as [|y r IH]; simpl; [tauto |].
  destruct (inb y r) eqn:E.
  - rewrite IH. apply inb_In in E. split; [tauto | intros [->|]; tauto].
  - simpl. rewrite IH. tauto.
Qed.

Lemma dedup_length {K} `{EqKey K} (l : list K) :
  List.length (dedup l) <= List.length l.
Proof.
  induction l as [|y r IH]; simpl; [lia |].
  destruct (inb y r); simpl; lia.
Qed.

Lemma filter_length_le {A} (f : A -> bool) l :
  List.length (filter f l) <= List.length l.
Proof. induction l; simpl; [lia | destruct (f a); simpl; lia]. Qed.

Lemma filter_length_lt {A} (f g : A -> bool) (x : A) l :
  (forall y, f y = true -> g y = true) ->
  In x l -> g x = true -> f x = false ->
  List.length (filter f l) < List.length (filter g l).
Proof.
  intros Hfg; induction l as [|y r IH]; simpl; [tauto |].
  assert (Hle : List.length (filter f r) <= List.length (filter g r)).
  { clear IH. induction r as [|z r IH]; simpl; [lia |].
    destruct (f z) eqn:Ef.
    - rewrite (Hfg _ Ef). simpl. lia.
    - destruct (g z); simpl; lia. }
  intros [-> | Hin] Hg Hf.
  - rewrite Hg, Hf. simpl. lia.
  - specialize (IH Hin Hg Hf). destruct (f y) eqn:Ef.
    + rewrite (Hfg _ Ef). simpl. lia.
    + destruct (g y); simpl; lia.
Qed.

Lemma neighbours_universe h reverse g x :
  In x (neighbours h reverse g) -> In x (bfs_universe h reverse).
Proof.
  unfold neighbours, bfs_universe, predecessors, successors.
  destruct reverse; intros Hin; apply dedup_In;
    apply in_map_iff in Hin; destruct Hin as [e [<- He]];
    apply filter_In in He; apply in_map; tauto.
Qed.

Lemma bfs_next_level_In h reverse res cur x :
  In x (bfs_next_level h reverse res cur) ->
  In x (bfs_universe h reverse) /\ ~ In x res.
Proof.
  unfold bfs_next_level. intros Hin.
  apply in_flat_map in Hin. destruct Hin as [g [_ Hx]].
  apply filter_In in Hx. destruct Hx as [Hx Hn]. split.
  - eapply neighbours_universe; eauto.
  - apply negb_true_iff, inb_not_In in Hn. assumption.
Qed.

Lemma bfs_loop_terminates h reverse fuel :
  forall res cur,
    List.length (unvisited h reverse res) < fuel ->
    exists l, bfs_loop fuel h reverse res cur = Some l.
Proof.
  induction fuel as [|fuel IH]; intros res cur Hm; [lia |].
  destruct cur as [|c cur']; [simpl; eauto |].
  cbn [bfs_loop]. cbv zeta.
  destruct (bfs_next_level h reverse res (c :: cur')) as [|x next'] eqn:En.
  - destruct fuel; simpl; eauto.
  - apply IH.
    assert (Hx : In x (bfs_next_level h reverse res (c :: cur')))
      by (rewrite En; simpl; auto).
    apply bfs_next_level_In in Hx. destruct Hx as [HxU Hxres].
    assert (List.length (unvisited h reverse (res ++ x :: next'))
            < List.length (unvisited h reverse res)); [| lia].
    unfold unvisited. apply filter_length_lt with (x := x); auto.
    + intros y Hy. apply negb_true_iff in Hy. apply negb_true_iff.
      apply inb_not_In in Hy. apply inb_not_In.
      intros Hc. apply Hy. apply in_or_app. auto.
    + apply negb_true_iff, inb_not_In. assumption.
    + apply negb_false_iff, inb_In, in_or_app. simpl. auto.
Qed.

(** The bound used for [bfs_tree] is always enough: the loop ends. *)
Lemma bfs_tree_terminates h g reverse :
  exists l, bfs_tree (S (List.length (typings h))) h g reverse = Some l.
Proof.
  unfold bfs_tree. apply bfs_loop_terminates.
  unfold unvisited, bfs_universe.
  eapply Nat.le_lt_trans; [apply filter_length_le |].
  eapply Nat.le_lt_trans; [apply dedup_length |].
  destruct reverse; rewrite length_map; lia.
Qed.

(** C9 (fails on the code): on the diamond [A -> B], [A -> C], [B -> D],
    [C -> D] the enumeration from [A] ends and lists [D] twice: the filter
    of a level reads [bfs_result] as it was when the level started, so a graph
    reached from two graphs of one level is added once for each of them. *)
Theorem bfs_tree_lists_a_graph_twice :
  bfs_tree (S (List.length (typings diamond_hierarchy)))
           diamond_hierarchy "A" false
  = Some ["A"; "B"; "C"; "D"; "D"]
  /\ bfs_tree (S (List.length (typings diamond_hierarchy)))
              diamond_hierarchy "D" true
     = Some ["D"; "B"; "C"; "A"; "A"].
Proof. split; reflexivity. Qed.

(** ** Stage 0 of [rewrite] *)

(** *** Loops that stop at the first exception *)

Lemma for_each_app {A S} (l1 l2 : list A) (body : S -> A -> result S) s :
  for_each (l1 ++ l2) body s = (s' <- for_each l1 body s ;; for_each l2 body s').
Proof.
  revert s; induction l1 as [|x r IH]; intros s; simpl; [reflexivity |].
  destruct (body s x); simpl; auto.
Qed.

(** A loop with no state whose steps either pass or raise [e] raises [e] as
    soon as one step raises. *)
Lemma for_each_unit_raise {A} (l : list A) (body : unit -> A -> result unit) e :
  (forall x, In x l -> body tt x = Ok tt \/ body tt x = Raise e) ->
  (exists x, In x l /\ body tt x = Raise e) ->
  for_each l body tt = Raise e.
Proof.
  induction l as [|y r IH]; intros Hall [x [Hin Hx]]; [destruct Hin |].
  simpl. destruct (Hall y (or_introl eq_refl)) as [Hy | Hy]; rewrite Hy; simpl;
    [| reflexivity].
  apply IH.
  - intros z Hz. apply Hall. now right.
  - destruct Hin as [-> | Hin]; [congruence | eauto].
Qed.

(** The same loop passes or raises [e]. *)
Lemma for_each_unit_cases {A} (l : list A) (body : unit -> A -> result unit) e :
  (forall x, In x l -> body tt x = Ok tt \/ body tt x = Raise e) ->
  for_each l body tt = Ok tt \/ for_each l body tt = Raise e.
Proof.
  induction l as [|y r IH]; intros Hall; simpl; [now left |].
  destruct (Hall y (or_introl eq_refl)) as [Hy | Hy]; rewrite Hy; simpl;
    [| now right].
  apply IH. intros z Hz. apply Hall. now right.
Qed.

Lemma for_each_invariant {A S} (P : S -> Prop) (l : list A)
      (body : S -> A -> result S) :
  (forall s x s', In x l -> P s -> body s x = Ok s' -> P s') ->
  forall s s', P s -> for_each l body s = Ok s' -> P s'.
Proof.
  induction l as [|y r IH]; intros Hstep s s' Hs; simpl.
  - intros E. now inversion E; subst.
  - destruct (body s y) as [s1|e] eqn:Hy; simpl; [| discriminate].
    apply IH.
    + intros s2 x s3 Hx. apply Hstep. now right.
    + eapply Hstep; eauto. now left.
Qed.

(** A loop raises when one of its steps raises from every state. *)
Lemma for_each_raises_at {A S} (l : list A) (body : S -> A -> result S) x :
  In x l -> (forall s, exists e, body s x = Raise e) ->
  forall s, exists e, for_each l body s = Raise e.
Proof.
  induction l as [|y r IH]; intros Hin Hx s; [destruct Hin |].
  simpl. destruct Hin as [-> | Hin].
  - destruct (Hx s) as [e He]. rewrite He. simpl. eauto.
  - destruct (body s y) as [s1|e]; simpl; eauto.
Qed.

(** *** The instance must be a valid, injective homomorphism *)

Lemma rewrite_stage0_raises rr pb er pf fuel g rule instance pt rt strict h e :
  _check_rule_instance_typing fuel h g rule instance pt rt strict = Raise e ->
  rewrite rr pb er pf fuel g rule instance pt rt strict h = (Raise e, h).
Proof.
  intros E. unfold rewrite, mbind, mread. now rewrite E.
Qed.

(** C2: if the instance is not a valid total homomorphism from the left-hand
    side to the rewritten graph, or is not injective, [rewrite] raises
    [RewritingError] in Stage 0 and the hierarchy is as it was: no graph,
    typing or relation has been touched. *)
Theorem rewrite_rejects_invalid_instance :
  forall rr pb er pf fuel h graph_id rule instance p_typing rhs_typing strict
         origin,
    get_graph h graph_id = Ok origin ->
    is_homomorphism (lhs rule) origin (normalized_instance rule instance) = false
    \/ is_monic (normalized_instance rule instance) = false ->
    rewrite rr pb er pf fuel graph_id rule instance p_typing rhs_typing strict h
    = (Raise RewritingError, h).
Proof.
  intros rr pb er pf fuel h g rule instance pt rt strict origin Hg Hbad.
  apply rewrite_stage0_raises.
  unfold _check_rule_instance_typing. rewrite Hg. simpl.
  unfold check_homomorphism.
  destruct (is_homomorphism (lhs rule) origin (normalized_instance rule instance));
    [| reflexivity].
  destruct Hbad as [Hbad | Hbad]; [discriminate |].
  now rewrite Hbad.
Qed.

(** Stages that do nothing, to run [rewrite] in examples. *)
Definition idle_rewrite : gid -> Rule -> mapping -> M (mapping * mapping) :=
  fun _ _ _ => mret ([], []).
Definition idle_backward
  : gid -> Rule -> mapping -> mapping -> mapping -> typing_rel -> M unit :=
  fun _ _ _ _ _ _ => mret tt.
Definition idle_forward
  : gid -> Rule -> mapping -> mapping -> mapping -> mapping -> typing_rel
    -> M unit :=
  fun _ _ _ _ _ _ _ => mret tt.

(** The rule that keeps a single node [n]. *)
Definition keep_rule (n : node) : Rule :=
  mkRule (plain_graph [n]) (plain_graph [n]) (plain_graph [n])
         [(n, n)] [(n, n)].

Lemma rewrite_rejects_invalid_instance_witness :
  rewrite idle_rewrite idle_backward idle_rewrite idle_forward 5 "A"
          (keep_rule "z") None None None false single_hierarchy
  = (Raise RewritingError, single_hierarchy)
  /\ rewrite idle_rewrite idle_backward idle_rewrite idle_forward 5 "B"
             (mkRule (plain_graph ["u"; "v"]) (plain_graph []) (plain_graph [])
                     [] [])
             (Some [("u", "b"); ("v", "b")]) None None false typed_hierarchy
     = (Raise RewritingError, typed_hierarchy).
Proof.
  split.
  - apply (@rewrite_rejects_invalid_instance
             idle_rewrite idle_backward idle_rewrite idle_forward 5
             single_hierarchy "A" (keep_rule "z") None None None false
             (plain_graph ["a"])); [reflexivity | left; reflexivity].
  - apply (@rewrite_rejects_invalid_instance
             idle_rewrite idle_backward idle_rewrite idle_forward 5
             typed_hierarchy "B" _ (Some [("u", "b"); ("v", "b")]) None None
             false (plain_graph ["b"])); [reflexivity | right; reflexivity].
Defined.

(** *** [p_typing] may not re-type a node *)

Lemma dedup_id_In {K} `{EqKey K} (x : K) l : In x l -> In x (dedup l).
Proof. apply dedup_In. Qed.

Lemma normalize_typing_relation_In (t : typing_rel) a typing k vs v :
  In (a, typing) t -> In (k, vs) typing -> In v vs ->
  exists typing' vs',
    In (a, typing') (normalize_typing_relation t)
    /\ In (k, vs') typing' /\ In v vs'.
Proof.
  intros Ha Hk Hv. unfold normalize_typing_relation.
  exists (map (fun nv => (fst nv, dedup (snd nv))) typing), (dedup vs).
  split; [| split].
  - apply in_map_iff. exists (a, typing). auto.
  - apply in_map_iff. exists (k, vs). auto.
  - now apply dedup_In.
Qed.

(** The lookups of the re-typing check all succeed: every graph named by
    [p_typing] has a typing to the rewritten graph that is defined on the
    nodes the entry constrains, and the entry relates them to nodes of P whose
    images in L are matched by the instance. *)
Definition p_typing_well_formed (h : Hierarchy) (origin_id : gid) (rule : Rule)
           (instance : mapping) (p_typing : typing_rel) : Prop :=
  forall a typing, In (a, typing) p_typing ->
    exists t_a, get_typing h a origin_id = Ok t_a
      /\ forall k vs, In (k, vs) typing ->
           dmem t_a k = true
           /\ forall v, In v vs ->
                exists l, dget (p_lhs rule) v = Some l
                          /\ dmem instance l = true.

Lemma p_typing_well_formed_normalize h g rule inst t :
  p_typing_well_formed h g rule inst t ->
  p_typing_well_formed h g rule inst (normalize_typing_relation t).
Proof.
  intros Hwf a typing Hin. unfold normalize_typing_relation in Hin.
  apply in_map_iff in Hin. destruct Hin as [[a' ty] [E Hin]].
  simpl in E. inversion E; subst; clear E.
  destruct (Hwf _ _ Hin) as [t_a [Ht Hk]]. exists t_a. split; [assumption |].
  intros k vs Hkv. apply in_map_iff in Hkv.
  destruct Hkv as [[k' vs'] [E Hkv]]. simpl in E. inversion E; subst; clear E.
  destruct (Hk _ _ Hkv) as [Hm Hv]. split; [assumption |].
  intros v Hvin. apply Hv, dedup_In, Hvin.
Qed.

Lemma dget_getitem {K V} `{EqKey K} (d : dict K V) k v :
  dget d k = Some v -> getitem d k = Ok v.
Proof. unfold getitem. now intros ->. Qed.

Lemma dmem_getitem {K V} `{EqKey K} (d : dict K V) k :
  dmem d k = true -> exists v, getitem d k = Ok v /\ dget d k = Some v.
Proof.
  unfold dmem, getitem. destruct (dget d k); [eauto | discriminate].
Qed.

(** On well-formed arguments the re-typing check of one graph passes or
    raises [RewritingError]. *)
Lemma check_p_retype_graph_cases h g rule inst a typing t_a :
  get_typing h a g = Ok t_a ->
  (forall k vs, In (k, vs) typing ->
     dmem t_a k = true
     /\ forall v, In v vs ->
          exists l, dget (p_lhs rule) v = Some l /\ dmem inst l = true) ->
  check_p_retype_graph h g rule inst (a, typing) = Ok tt
  \/ check_p_retype_graph h g rule inst (a, typing) = Raise RewritingError.
Proof.
  intros Ht Hk. unfold check_p_retype_graph. rewrite Ht. simpl.
  apply for_each_unit_cases. intros [k vs] Hkv.
  destruct (Hk _ _ Hkv) as [Hm Hv].
  apply for_each_unit_cases. intros v Hvin.
  destruct (dmem_getitem _ _ Hm) as [x [Hx _]]. rewrite Hx. simpl.
  destruct (Hv _ Hvin) as [l [Hl Hi]].
  rewrite (dget_getitem _ _ Hl). simpl.
  destruct (dmem_getitem _ _ Hi) as [y [Hy _]]. rewrite Hy. simpl.
  destruct (negb _); auto.
Qed.

(** It raises as soon as one entry disagrees with the existing typing. *)
Lemma check_p_retype_raises h g rule inst pt a typing k vs v t_a x l y :
  p_typing_well_formed h g rule inst pt ->
  In (a, typing) pt -> In (k, vs) typing -> In v vs ->
  get_typing h a g = Ok t_a ->
  dget t_a k = Some x -> dget (p_lhs rule) v = Some l -> dget inst l = Some y ->
  x <> y ->
  check_p_retype h g rule inst pt = Raise RewritingError.
Proof.
  intros Hwf Ha Hk Hv Ht Hx Hl Hy Hne. unfold check_p_retype.
  apply for_each_unit_raise.
  - intros [a' typing'] Hin.
    destruct (Hwf _ _ Hin) as [t' [Ht' Hk']].
    eapply check_p_retype_graph_cases; eauto.
  - exists (a, typing). split; [assumption |].
    unfold check_p_retype_graph. rewrite Ht. simpl.
    destruct (Hwf _ _ Ha) as [t_a' [Ht' Hk']].
    assert (t_a' = t_a) by congruence. subst t_a'.
    apply for_each_unit_raise.
    + intros [k' vs'] Hkv. destruct (Hk' _ _ Hkv) as [Hm Hvv].
      apply for_each_unit_cases. intros v' Hvin.
      destruct (dmem_getitem _ _ Hm) as [x' [Hx' _]]. rewrite Hx'. simpl.
      destruct (Hvv _ Hvin) as [l' [Hl' Hi']].
      rewrite (dget_getitem _ _ Hl'). simpl.
      destruct (dmem_getitem _ _ Hi') as [y' [Hy' _]]. rewrite Hy'. simpl.
      destruct (negb _); auto.
    + exists (k, vs). split; [assumption |].
      destruct (Hk' _ _ Hk) as [Hm Hvv].
      apply for_each_unit_raise.
      * intros v' Hvin.
        destruct (dmem_getitem _ _ Hm) as [x' [Hx' _]]. rewrite Hx'. simpl.
        destruct (Hvv _ Hvin) as [l' [Hl' Hi']].
        rewrite (dget_getitem _ _ Hl'). simpl.
        destruct (dmem_getitem _ _ Hi') as [y' [Hy' _]]. rewrite Hy'. simpl.
        destruct (negb _); auto.
      * exists v. split; [assumption |].
        rewrite (dget_getitem _ _ Hx). simpl.
        rewrite (dget_getitem _ _ Hl). simpl.
        rewrite (dget_getitem _ _ Hy). simpl.
        apply keqb_neq in Hne. simpl in Hne. now rewrite Hne.
Qed.

(** C4: if some entry (a, k, vs) of [p_typing] has a [v] in [vs] such that
    the existing typing of [a] by the rewritten graph sends [k] to a node
    other than [instance(p_lhs(v))], then [rewrite] raises [RewritingError]
    (and the hierarchy is as it was).  The arguments are well formed: the
    lookups of the check succeed ([p_typing_well_formed]). *)
Theorem rewrite_rejects_retyping_p_typing :
  forall rr pb er pf fuel h graph_id rule instance p_typing rhs_typing strict
         origin a typing k vs v t_a x l y,
    get_graph h graph_id = Ok origin ->
    p_typing_well_formed h graph_id rule (normalized_instance rule instance)
                         p_typing ->
    In (a, typing) p_typing -> In (k, vs) typing -> In v vs ->
    get_typing h a graph_id = Ok t_a ->
    dget t_a k = Some x ->
    dget (p_lhs rule) v = Some l ->
    dget (normalized_instance rule instance) l = Some y ->
    x <> y ->
    rewrite rr pb er pf fuel graph_id rule instance (Some p_typing) rhs_typing
            strict h
    = (Raise RewritingError, h).
Proof.
  intros rr pb er pf fuel h g rule instance pt rt strict origin
         a typing k vs v t_a x l y Hg Hwf Ha Hk Hv Ht Hx Hl Hy Hne.
  apply rewrite_stage0_raises.
  unfold _check_rule_instance_typing. rewrite Hg. simpl.
  unfold check_homomorphism.
  destruct (is_homomorphism _ _ _); [| reflexivity].
  destruct (is_monic _); simpl; [| reflexivity].
  destruct (normalize_typing_relation_In pt _ _ _ _ _ Ha Hk Hv)
    as [typing' [vs' [Ha' [Hk' Hv']]]].
  assert (E : check_p_retype h g rule (normalized_instance rule instance)
                             (normalize_typing_relation pt)
              = Raise RewritingError).
  { eapply check_p_retype_raises; eauto.
    now apply p_typing_well_formed_normalize. }
  rewrite E. reflexivity.
Qed.

(** A rule that clones the node [a] of its left-hand side into [a1] and
    [a2]. *)
Definition clone_rule : Rule :=
  mkRule (plain_graph ["a"]) (plain_graph ["a1"; "a2"])
         (plain_graph ["a1"; "a2"])
         [("a1", "a"); ("a2", "a")] [("a1", "a1"); ("a2", "a2")].

(** [B -> A -> G0]: the graph [G0] = {a, b} typed by [A] = {x, y}, itself
    typed by [B] = {u}. *)
Definition chain_hierarchy : Hierarchy :=
  mkHierarchy
    [("G0", (plain_graph ["a"; "b"], []));
     ("A", (plain_graph ["x"; "y"], []));
     ("B", (plain_graph ["u"], []))]
    [(("A", "G0"), ([("x", "a"); ("y", "b")], []));
     (("B", "A"), ([("u", "x")], []))]
    [].

Lemma rewrite_rejects_retyping_p_typing_witness :
  rewrite idle_rewrite idle_backward idle_rewrite idle_forward 5 "G0"
          clone_rule (Some [("a", "a")]) (Some [("A", [("y", ["a1"])])]) None
          false chain_hierarchy
  = (Raise RewritingError, chain_hierarchy).
Proof.
  apply (@rewrite_rejects_retyping_p_typing
           idle_rewrite idle_backward idle_rewrite idle_forward 5
           chain_hierarchy "G0" clone_rule (Some [("a", "a")])
           [("A", [("y", ["a1"])])] None false
           (plain_graph ["a"; "b"]) "A" [("y", ["a1"])] "y" ["a1"] "a1"
           [("x", "a"); ("y", "b")] "b" "a" "a");
    try reflexivity; try (simpl; tauto); try discriminate.
  intros a typing [E | []]. inversion E; subst; clear E.
  exists [("x", "a"); ("y", "b")]. split; [reflexivity |].
  intros k vs [E | []]. inversion E; subst; clear E.
  split; [reflexivity |].
  intros v [<- | []]. exists "a". split; reflexivity.
Defined.

(** *** Composability of [p_typing] *)



(** C5 (fails on the code): in [B -> A -> G0] the entry of [A] assigns to
    [x] exactly the two clones [a1], [a2] of its image [a], so it is
    canonical, and the predecessor [B] of [A] has no entry; Stage 0 raises the
    non-composability [RewritingError] all the same. *)
Theorem canonical_p_typing_is_rejected :
  set_eqb ["a1"; "a2"] (keys_by_value (p_lhs clone_rule) "a") = true
  /\ In "B" (predecessors chain_hierarchy "A")
  /\ dmem [("A", [("x", ["a1"; "a2"])])] "B" = false
  /\ check_p_retype chain_hierarchy "G0" clone_rule [("a", "a")]
                    [("A", [("x", ["a1"; "a2"])])] = Ok tt
  /\ _check_rule_instance_typing
       5 chain_hierarchy "G0" clone_rule (Some [("a", "a")])
       (Some [("A", [("x", ["a1"; "a2"])])]) None false
     = Raise RewritingError.
Proof. repeat split; simpl; auto. Qed.

(** *** Strict rewriting and the typing of added nodes *)

(** A rule that adds the node [c] next to the node [a] it keeps. *)
Definition add_rule : Rule :=
  mkRule (plain_graph ["a"]) (plain_graph ["a"]) (plain_graph ["a"; "c"])
         [("a", "a")] [("a", "a")].

(** [T -> M1 -> M2] and [T -> M2]. *)
Definition triangle_hierarchy : Hierarchy :=
  mkHierarchy
    [("T", (plain_graph ["a"], []));
     ("M1", (plain_graph ["u"], []));
     ("M2", (plain_graph ["w"], []))]
    [(("T", "M1"), ([("a", "u")], []));
     (("M1", "M2"), ([("u", "w")], []));
     (("T", "M2"), ([("a", "w")], []))]
    [].

(** The descendant [desc] does not type every added node of the rule by a
    single node in [rt]. *)
Definition untyped_addition (rule : Rule) (rt : typing_rel) (desc : gid)
  : Prop :=
  dget rt desc = None
  \/ exists dt n,
      dget rt desc = Some dt /\ In n (added_nodes rule)
      /\ (dget dt n = None
          \/ exists ns, dget dt n = Some ns /\ set_len ns <> 1).

Lemma check_strict_descendant_cases rule rt desc :
  check_strict_descendant rule rt desc = Ok tt
  \/ check_strict_descendant rule rt desc = Raise RewritingError.
Proof.
  unfold check_strict_descendant. destruct (dget rt desc) as [dt|]; auto.
  apply for_each_unit_cases. intros x _.
  destruct (dget dt x); auto. destruct (negb _); auto.
Qed.

Lemma check_strict_descendant_raises rule rt desc :
  untyped_addition rule rt desc ->
  check_strict_descendant rule rt desc = Raise RewritingError.
Proof.
  unfold check_strict_descendant.
  intros [Hnone | [dt [n [Hdt [Hn Hbad]]]]]; [now rewrite Hnone |].
  rewrite Hdt. apply for_each_unit_raise.
  - intros x _. destruct (dget dt x); auto. destruct (negb _); auto.
  - exists n. split; [assumption |].
    destruct Hbad as [Hnone | [ns [Hns Hlen]]]; [now rewrite Hnone |].
    rewrite Hns. apply Nat.eqb_neq in Hlen. now rewrite Hlen.
Qed.

Lemma check_strict_raises fuel h g rule rt ds desc :
  added_nodes rule <> [] ->
  get_descendants fuel h g = Ok ds -> In desc (dkeys ds) ->
  untyped_addition rule rt desc ->
  check_strict fuel h g rule rt true = Raise RewritingError.
Proof.
  intros Hadd Hds Hdesc Hbad. unfold check_strict.
  destruct (added_nodes rule) as [|n0 ns0] eqn:Ea; [congruence |].
  rewrite Hds. cbn [bind].
  apply for_each_unit_raise.
  - intros x _. apply check_strict_descendant_cases.
  - exists desc. split; [assumption |].
    now apply check_strict_descendant_raises.
Qed.

(** The strict check is the last step of Stage 0: a strict call runs the
    checks of a call that is not strict, then [check_strict] on the
    auto-completed [rhs_typing]. *)
Lemma check_strict_is_last fuel h g rule instance pt rt strict :
  _check_rule_instance_typing fuel h g rule instance pt rt strict
  = (r <- _check_rule_instance_typing fuel h g rule instance pt rt false ;;
     check_strict fuel h g rule (snd r) strict ;;; Ok r).
Proof.
  unfold _check_rule_instance_typing.
  destruct (get_graph h g); simpl; [| reflexivity].
  destruct (check_homomorphism _ _ _) as [u|[]]; simpl; try reflexivity.
  destruct (is_monic _); simpl; [| reflexivity].
  destruct (check_p_retype _ _ _ _ _); simpl; [| reflexivity].
  destruct (check_p_composable _ _ _); simpl; [| reflexivity].
  destruct (autocomplete_rhs_typing _ _ _); simpl; [| reflexivity].
  destruct (check_rhs_retype _ _ _ _ _); simpl; reflexivity.
Qed.

(** C3, as amended: when the rule adds a node and the call passes the checks
    of Stage 0 that come before the strict one, which auto-complete
    [rhs_typing] to [rt], a descendant of the rewritten graph that has no
    entry in [rt], or whose entry in [rt] misses an added node or maps it
    to a set that is not a singleton, makes the strict [rewrite] raise
    [RewritingError], the hierarchy being left as it was. *)
Theorem strict_rewrite_rejects_untyped_addition :
  forall rr pb er pf fuel h graph_id rule instance p_typing rhs_typing
         inst pt rt ds desc,
    added_nodes rule <> [] ->
    _check_rule_instance_typing fuel h graph_id rule instance
                                p_typing rhs_typing false
    = Ok (inst, pt, rt) ->
    get_descendants fuel h graph_id = Ok ds ->
    In desc (dkeys ds) ->
    untyped_addition rule rt desc ->
    rewrite rr pb er pf fuel graph_id rule instance p_typing rhs_typing true h
    = (Raise RewritingError, h).
Proof.
  intros rr pb er pf fuel h g rule instance p_typing rhs_typing
         inst pt rt ds desc Hadd Hchk Hds Hdesc Hbad.
  apply rewrite_stage0_raises.
  rewrite check_strict_is_last, Hchk. cbn [bind snd].
  erewrite check_strict_raises; eauto.
Qed.

Lemma strict_rewrite_rejects_untyped_addition_witness :
  rewrite idle_rewrite idle_backward idle_rewrite idle_forward 5 "T"
          add_rule (Some [("a", "a")]) None None true triangle_hierarchy
  = (Raise RewritingError, triangle_hierarchy)
  /\ rewrite idle_rewrite idle_backward idle_rewrite idle_forward 5 "T"
             add_rule (Some [("a", "a")]) None
             (Some [("M1", [("c", ["u"])]); ("M2", [("c", ["w"; "w'"])])])
             true
             (mkHierarchy
                [("T", (plain_graph ["a"], []));
                 ("M1", (plain_graph ["u"], []));
                 ("M2", (plain_graph ["w"; "w'"], []))]
                (h_typings triangle_hierarchy) [])
     = (Raise RewritingError,
        mkHierarchy
          [("T", (plain_graph ["a"], []));
           ("M1", (plain_graph ["u"], []));
           ("M2", (plain_graph ["w"; "w'"], []))]
          (h_typings triangle_hierarchy) []).
Proof.
  split.
  - apply (@strict_rewrite_rejects_untyped_addition
             idle_rewrite idle_backward idle_rewrite idle_forward 5
             triangle_hierarchy "T" add_rule (Some [("a", "a")]) None None
             [("a", "a")] [] []
             [("M1", [("a", "u")]); ("M2", [("a", "w")])] "M1").
    + discriminate.
    + reflexivity.
    + reflexivity.
    + simpl. tauto.
    + left. reflexivity.
  - apply (@strict_rewrite_rejects_untyped_addition
             idle_rewrite idle_backward idle_rewrite idle_forward 5
             _ "T" add_rule (Some [("a", "a")]) None
             (Some [("M1", [("c", ["u"])]); ("M2", [("c", ["w"; "w'"])])])
             [("a", "a")] []
             [("M1", [("c", ["u"])]); ("M2", [("c", ["w"; "w'"])])]
             [("M1", [("a", "u")]); ("M2", [("a", "w")])] "M2").
    + discriminate.
    + reflexivity.
    + reflexivity.
    + simpl. tauto.
    + right. exists [("c", ["w"; "w'"])], "c". split; [reflexivity |].
      split; [simpl; tauto |]. right. exists ["w"; "w'"].
      split; [reflexivity |]. discriminate.
Defined.

(** C3 fails as stated: with [strict=True] and the added node [c], the
    descendant [M2] has no entry in the [rhs_typing] that is passed, but
    Stage 0 completes it from the entry of [M1] along [M1 -> M2], and the
    call is accepted. *)
Lemma strict_rewrite_accepts_completed_typing :
  added_nodes add_rule = ["c"]
  /\ get_descendants 5 triangle_hierarchy "T"
     = Ok [("M1", [("a", "u")]); ("M2", [("a", "w")])]
  /\ dget [("M1", [("c", ["u"])])] "M2" = None
  /\ _check_rule_instance_typing
       5 triangle_hierarchy "T" add_rule (Some [("a", "a")]) None
       (Some [("M1", [("c", ["u"])])]) true
     = Ok ([("a", "a")], [],
           [("M1", [("c", ["u"])]); ("M2", [("c", ["w"])])])
  /\ rewrite idle_rewrite idle_backward idle_rewrite idle_forward 5 "T"
             add_rule (Some [("a", "a")]) None
             (Some [("M1", [("c", ["u"])])]) true triangle_hierarchy
     = (Ok [], triangle_hierarchy).
Proof. repeat split. Qed.

(** ** Duplication of a sub-hierarchy *)

(** *** Reasoning on state transformers *)

Lemma mbind_ok {A B} (m : M A) (f : A -> M B) h b h' :
  mbind m f h = (Ok b, h') ->
  exists a h1, m h = (Ok a, h1) /\ f a h1 = (Ok b, h').
Proof.
  unfold mbind. destruct (m h) as [[a|e] h1]; [eauto | discriminate].
Qed.

Lemma mread_ok {A} (f : Hierarchy -> result A) h a h' :
  mread f h = (Ok a, h') -> f h = Ok a /\ h' = h.
Proof. unfold mread. intros E. inversion E. auto. Qed.

Lemma mret_ok {A} (a : A) h b h' : mret a h = (Ok b, h') -> b = a /\ h' = h.
Proof. unfold mret. intros E. inversion E. auto. Qed.

(** Decompose the successful runs of the context along their binds. *)
Ltac run_ok :=
  repeat match goal with
         | H : mbind _ _ _ = (Ok _, _) |- _ =>
             apply mbind_ok in H; destruct H as [? [? [? H]]]
         | H : mread _ _ = (Ok _, _) |- _ =>
             apply mread_ok in H; destruct H as [H ?]; subst
         | H : mret _ _ = (Ok _, _) |- _ =>
             apply mret_ok in H; destruct H as [? ?]; subst
         | H : Ok _ = Ok _ |- _ => inversion H; subst; clear H
         end.

(** [h'] has the typing edges of [h], with the same maps and attributes. *)
Definition extends (h h' : Hierarchy) : Prop :=
  forall e v, dget (h_typings h) e = Some v -> dget (h_typings h') e = Some v.

Lemma extends_refl h : extends h h.
Proof. intros e v E. exact E. Qed.

Lemma extends_trans h1 h2 h3 : extends h1 h2 -> extends h2 h3 -> extends h1 h3.
Proof. intros H12 H23 e v E. auto. Qed.

Lemma extends_get_typing h h' s t m :
  extends h h' -> get_typing h s t = Ok m -> get_typing h' s t = Ok m.
Proof.
  unfold get_typing. intros Hex.
  destruct (dget (h_typings h) (s, t)) as [v|] eqn:E; [| discriminate].
  rewrite (Hex _ _ E). auto.
Qed.

Lemma dget_app_some {K V} `{EqKey K} (d d' : dict K V) k v :
  dget d k = Some v -> dget (d ++ d') k = Some v.
Proof.
  induction d as [|[k' v'] r IH]; simpl; [discriminate |].
  destruct (keqb k' k); auto.
Qed.

Lemma dget_app_none {K V} `{EqKey K} (d d' : dict K V) k :
  dget d k = None -> dget (d ++ d') k = dget d' k.
Proof.
  induction d as [|[k' v'] r IH]; simpl; [reflexivity |].
  destruct (keqb k' k); [discriminate | auto].
Qed.

Lemma dget_None_keys {K V} `{EqKey K} (d : dict K V) k :
  dget d k = None <-> ~ In k (dkeys d).
Proof.
  induction d as [|[k' v'] r IH]; simpl; [tauto |].
  destruct (keqb_spec k' k); split.
  - discriminate.
  - intros Hn. exfalso. apply Hn. now left.
  - intros E [?|Hin]; [congruence |]. now apply IH.
  - intros Hn. apply IH. tauto.
Qed.

Lemma dget_Some_keys {K V} `{EqKey K} (d : dict K V) k v :
  dget d k = Some v -> In k (dkeys d).
Proof.
  induction d as [|[k' v'] r IH]; simpl; [discriminate |].
  destruct (keqb_spec k' k); [now left | auto].
Qed.

Lemma dmem_keys {K V} `{EqKey K} (d : dict K V) k :
  dmem d k = true <-> In k (dkeys d).
Proof.
  unfold dmem. destruct (dget d k) eqn:E.
  - split; [intros _; eauto using dget_Some_keys | reflexivity].
  - apply dget_None_keys in E. split; [discriminate | tauto].
Qed.

(** *** What the mutating methods do to the typing edges *)

Lemma add_typing_ok s t m a h h' :
  add_typing s t m a h = (Ok tt, h') ->
  extends h h' /\ get_typing h' s t = Ok m /\ graphs h' = graphs h.
Proof.
  unfold add_typing.
  destruct (dget (h_graphs h) s) as [[gs ?]|]; [| discriminate].
  destruct (dget (h_graphs h) t) as [[gt ?]|]; [| discriminate].
  destruct (inb (s, t) (typings h)) eqn:Hin; [discriminate |].
  destruct (negb (is_homomorphism gs gt m)); [discriminate |].
  destruct (_ || _); [discriminate |].
  destruct (negb (forallb _ _)); [discriminate |].
  intros E. inversion E; subst; clear E.
  apply inb_not_In in Hin. apply dget_None_keys in Hin.
  split; [| split].
  - intros e v Hv. simpl. now apply dget_app_some.
  - unfold get_typing. cbn [h_typings]. rewrite dget_app_none by assumption.
    cbn [dget]. now rewrite keqb_refl.
  - reflexivity.
Qed.

Lemma add_graph_from_data_ok g ns es a h h' :
  add_graph_from_data g ns es a h = (Ok tt, h') -> extends h h'.
Proof.
  unfold add_graph_from_data. destruct (inb g (graphs h)); [discriminate |].
  intros E. inversion E; subst. intros e v Hv. exact Hv.
Qed.

Lemma add_relation_ok l r rel a h h' :
  add_relation l r rel a h = (Ok tt, h') -> extends h h'.
Proof.
  unfold add_relation.
  destruct (dget (h_graphs h) l) as [[gl ?]|]; [| discriminate].
  destruct (dget (h_graphs h) r) as [[gr ?]|]; [| discriminate].
  destruct (inb (l, r) (relations h)); [discriminate |].
  destruct (negb _); [discriminate |].
  intros E. inversion E; subst. intros e v Hv. exact Hv.
Qed.

Lemma mfor_each_extends {A S} (l : list A) (body : S -> A -> M S) :
  (forall s x h s' h', body s x h = (Ok s', h') -> extends h h') ->
  forall s h s' h', mfor_each l body s h = (Ok s', h') -> extends h h'.
Proof.
  intros Hbody. induction l as [|x r IH]; intros s h s' h' E; simpl in E.
  - run_ok. apply extends_refl.
  - run_ok. eapply extends_trans; eauto.
Qed.

Lemma copy_attachment_extends g new x h u h' :
  copy_attachment g new x h = (Ok u, h') -> extends h h'.
Proof.
  unfold copy_attachment. intros E. run_ok.
  match goal with
  | H1 : (if inb x (successors h g) then _ else _) h = (Ok _, ?h1),
    H2 : (if inb x (predecessors ?h1 g) then _ else _) ?h1 = (Ok _, ?h2),
    H3 : (if inb x ?adj then _ else _) ?h2 = (Ok _, h') |- _ =>
      assert (E1 : extends h h1);
      [ destruct (inb x (successors h g)); run_ok;
        [ match goal with
          | H : add_typing _ _ _ _ _ = (Ok ?v, _) |- _ =>
              destruct v; now apply add_typing_ok in H
          end
        | apply extends_refl ]
      | assert (E2 : extends h1 h2);
        [ destruct (inb x (predecessors h1 g)); run_ok;
          [ match goal with
            | H : add_typing _ _ _ _ _ = (Ok ?v, _) |- _ =>
                destruct v; now apply add_typing_ok in H
            end
          | apply extends_refl ]
        | assert (E3 : extends h2 h');
          [ destruct (inb x adj); run_ok;
            [ match goal with
              | H : add_relation _ _ _ _ _ = (Ok ?v, _) |- _ =>
                  destruct v; now apply add_relation_ok in H
              end
            | apply extends_refl ]
          | eauto using extends_trans ] ] ]
  end.
Qed.

Lemma copy_graph_extends g new attach h u h' :
  copy_graph g new attach h = (Ok u, h') -> extends h h'.
Proof.
  unfold copy_graph. intros E. run_ok.
  destruct (inb new (graphs h)); [discriminate |]. run_ok.
  match goal with
  | H : add_graph_from_data _ _ _ _ _ = (Ok ?v, _) |- _ =>
      destruct v; apply add_graph_from_data_ok in H
  end.
  eapply extends_trans; [eassumption |].
  eapply mfor_each_extends; [| eassumption].
  intros [] x0 h0 s' h0' Hc. now apply copy_attachment_extends in Hc.
Qed.

Lemma typings_extends h h' e :
  extends h h' -> In e (typings h) -> In e (typings h').
Proof.
  unfold typings. intros Hex Hin.
  destruct (dget (h_typings h) e) as [v|] eqn:E.
  - apply Hex in E. eauto using dget_Some_keys.
  - apply dget_None_keys in E. contradiction.
Qed.

(** *** Copying the typing edges between duplicated graphs *)

(** The typing edge [e] between two duplicated graphs is reproduced, with
    its map, between their copies. *)
Definition reproduced (gd : dict gid gid) (h : Hierarchy) (e : gid * gid)
  : Prop :=
  exists s' t' m,
    dget gd (fst e) = Some s' /\ dget gd (snd e) = Some t'
    /\ get_typing h (fst e) (snd e) = Ok m /\ get_typing h s' t' = Ok m.

Lemma reproduced_extends gd h h' e :
  extends h h' -> reproduced gd h e -> reproduced gd h' e.
Proof.
  intros Hex [s' [t' [m [Hs [Ht [Hm Hm']]]]]]. exists s', t', m.
  eauto 6 using extends_get_typing.
Qed.

Lemma getitem_ok {K V} `{EqKey K} (d : dict K V) k v :
  getitem d k = Ok v -> dget d k = Some v.
Proof. unfold getitem. destruct (dget d k); congruence. Qed.

Lemma duplicate_typing_ok gd s t v h v' h' :
  duplicate_typing gd s t v h = (Ok v', h') ->
  extends h h' /\ v' = v ++ [(s, t)] /\ reproduced gd h' (s, t).
Proof.
  unfold duplicate_typing. intros E. run_ok.
  match goal with
  | H : add_typing _ _ _ _ _ = (Ok ?u, _) |- _ =>
      destruct u; apply add_typing_ok in H; destruct H as [Hex [Hnew _]]
  end.
  split; [assumption |]. split; [reflexivity |].
  repeat match goal with
         | H : getitem _ _ = Ok _ |- _ => apply getitem_ok in H
         end.
  repeat eexists; simpl; eauto using extends_get_typing.
Qed.

Lemma duplicate_typings_loop gd (mk : gid -> gid * gid) l :
  forall v h v' h',
    mfor_each l (fun v x => duplicate_typing gd (fst (mk x)) (snd (mk x)) v)
              v h = (Ok v', h') ->
    extends h h' /\ v' = v ++ map mk l
    /\ ((forall e, In e v -> reproduced gd h e) ->
        forall e, In e v' -> reproduced gd h' e).
Proof.
  induction l as [|x r IH]; intros v h v' h' E; simpl in E; run_ok.
  - rewrite app_nil_r. auto using extends_refl.
  - match goal with
    | H : duplicate_typing _ _ _ _ _ = _ |- _ =>
        apply duplicate_typing_ok in H; destruct H as [Hex [-> Hrep]]
    end.
    apply IH in E. destruct E as [Hex' [-> Hall]].
    split; [eauto using extends_trans |]. split.
    + rewrite <- app_assoc. simpl. now destruct (mk x).
    + intros Hv. apply Hall. intros e He. apply in_app_or in He.
      destruct He as [He | [<- | []]].
      * eauto using reproduced_extends.
      * now destruct (mk x).
Qed.

Lemma duplicate_typings_of_ok gd v g h v' h' :
  duplicate_typings_of gd v g h = (Ok v', h') ->
  extends h h' /\ incl v v'
  /\ ((forall e, In e v -> reproduced gd h e) ->
      forall e, In e v' -> reproduced gd h' e)
  /\ (forall s, dmem gd s = true -> In (g, s) (typings h) -> In (g, s) v').
Proof.
  unfold duplicate_typings_of. intros E. run_ok.
  match goal with
  | H1 : mfor_each _ _ v h = (Ok ?v1, ?h1),
    H2 : mfor_each _ _ ?v1 ?h1 = (Ok v', h') |- _ =>
      apply (duplicate_typings_loop gd (fun s => (g, s))) in H1;
      apply (duplicate_typings_loop gd (fun p => (p, g))) in H2;
      destruct H1 as [Hex1 [-> Hall1]]; destruct H2 as [Hex2 [-> Hall2]]
  end.
  split; [eauto using extends_trans |]. split; [| split].
  - intros e He. apply in_or_app. left. apply in_or_app. now left.
  - auto.
  - intros s Hs Hin. apply in_or_app. left.
    destruct (inb (g, s) v) eqn:Hv.
    + apply in_or_app. left. now apply inb_In.
    + apply in_or_app. right. apply in_map_iff. exists s. split; [reflexivity |].
      apply filter_In. split.
      * unfold successors. apply in_map_iff. exists (g, s). split; [reflexivity |].
        apply filter_In. split; [assumption | apply keqb_refl].
      * now rewrite Hs, Hv.
Qed.

Lemma duplicate_typings_all gd keys :
  forall v h v' h',
    mfor_each keys (duplicate_typings_of gd) v h = (Ok v', h') ->
    extends h h' /\ incl v v'
    /\ ((forall e, In e v -> reproduced gd h e) ->
        forall e, In e v' -> reproduced gd h' e)
    /\ (forall g s, In g keys -> dmem gd s = true ->
                    In (g, s) (typings h) -> In (g, s) v').
Proof.
  induction keys as [|k r IH]; intros v h v' h' E; simpl in E; run_ok.
  - repeat split; auto using extends_refl, incl_refl. intros g s [].
  - match goal with
    | H : duplicate_typings_of _ _ _ _ = _ |- _ =>
        apply duplicate_typings_of_ok in H;
        destruct H as [Hex [Hincl [Hall Hk]]]
    end.
    apply IH in E. destruct E as [Hex' [Hincl' [Hall' Hr]]].
    split; [eauto using extends_trans |].
    split; [eauto using incl_tran |]. split; [auto |].
    intros g s [<- | Hg] Hs Hin.
    + apply Hincl'. now apply Hk.
    + apply Hr; auto. eauto using typings_extends.
Qed.

(** C7: [duplicate_subgraph] is atomic with respect to collisions of ids: if
    a new id of [graph_dict] already names a graph, the call raises
    [HierarchyError] and the hierarchy is as it was (no graph copied, no
    typing added); and when the call succeeds, every typing edge between two
    duplicated graphs is reproduced, with its map, between their copies. *)
Theorem duplicate_subgraph_atomic :
  forall graph_dict attach_graphs h,
    ((exists original new,
         In (original, new) graph_dict /\ In new (graphs h)) ->
     duplicate_subgraph graph_dict attach_graphs h = (Raise HierarchyError, h))
    /\ (forall h',
          duplicate_subgraph graph_dict attach_graphs h = (Ok tt, h') ->
          forall g s m,
            dmem graph_dict g = true -> dmem graph_dict s = true ->
            get_typing h g s = Ok m ->
            exists g' s',
              dget graph_dict g = Some g' /\ dget graph_dict s = Some s'
              /\ get_typing h' g' s' = Ok m).
Proof.
  intros gd attach h. split.
  - intros [original [new [Hin Hnew]]].
    unfold duplicate_subgraph, mbind, mread.
    rewrite (@for_each_unit_raise _ gd _ HierarchyError); [reflexivity | |].
    + intros x _. destruct (inb (snd x) (graphs h)); auto.
    + exists (original, new). split; [assumption |].
      simpl. apply inb_In in Hnew. now rewrite Hnew.
  - intros h' E g s m Hg Hs Hm. unfold duplicate_subgraph in E. run_ok.
    match goal with
    | H1 : mfor_each gd _ tt h = (Ok _, ?h1),
      H2 : mfor_each (dkeys gd) _ [] ?h1 = (Ok ?vf, ?hf) |- _ =>
        assert (Hex : extends h h1)
          by (eapply mfor_each_extends; [| exact H1];
              intros [] x0 h0 s0 h0' Hc; now apply copy_graph_extends in Hc);
        apply duplicate_typings_all in H2;
        destruct H2 as [Hex' [_ [Hall Hk]]]
    end.
    assert (Hin : In (g, s) (typings h)).
    { unfold get_typing in Hm.
      destruct (dget (h_typings h) (g, s)) eqn:Hd; [| discriminate].
      eapply dget_Some_keys; eauto. }
    destruct (Hall (fun e (F : In e []) => match F with end) (g, s))
      as [g' [s' [m' [Hg' [Hs' [Hm1 Hm2]]]]]].
    { apply Hk; [now apply dmem_keys | assumption |].
      eauto using typings_extends. }
    simpl in *. exists g', s'. split; [assumption |]. split; [assumption |].
    pose proof (extends_get_typing _ _ (extends_trans Hex Hex') Hm) as Hm3.
    congruence.
Qed.

Lemma duplicate_subgraph_atomic_witness :
  duplicate_subgraph [("A", "A2"); ("B", "A")] [] typed_hierarchy
  = (Raise HierarchyError, typed_hierarchy)
  /\ exists g' s',
      dget [("A", "A2"); ("B", "B2")] "A" = Some g'
      /\ dget [("A", "A2"); ("B", "B2")] "B" = Some s'
      /\ get_typing
           (snd (duplicate_subgraph [("A", "A2"); ("B", "B2")] []
                                    typed_hierarchy)) g' s'
         = Ok [("a", "b")].
Proof.
  split.
  - apply (proj1 (duplicate_subgraph_atomic [("A", "A2"); ("B", "A")] []
                                            typed_hierarchy)).
    exists "B", "A". split; simpl; auto.
  - apply (proj2 (duplicate_subgraph_atomic [("A", "A2"); ("B", "B2")] []
                                            typed_hierarchy)
                 _ eq_refl "A" "B"); reflexivity.
Defined.

(** ** Well-formed hierarchies: the invariants of the data model *)

(** [p] is a sequence of graphs linked by typing edges. *)
Fixpoint is_path (h : Hierarchy) (path : list gid) : Prop :=
  match path with
  | a :: ((b :: _) as rest) => In (a, b) (typings h) /\ is_path h rest
  | _ => True
  end.

(** A path with at least one edge from [s] to [t]. *)
Definition path_from_to (h : Hierarchy) (s t : gid) (path : list gid) : Prop :=
  (exists mid, path = s :: mid ++ [t]) /\ is_path h path.

Record well_formed (h : Hierarchy) : Prop := mkWellFormed {
  (* 5. graph ids are unique *)
  wf_graph_ids : NoDup (graphs h);
  (* 4. no duplicate typing edge *)
  wf_typing_ids : NoDup (typings h);
  (* 3. every typing edge is a valid homomorphism between two graphs *)
  wf_typing_hom :
    forall s t m a, In ((s, t), (m, a)) (h_typings h) ->
      exists gs as_ gt at_,
        dget (h_graphs h) s = Some (gs, as_)
        /\ dget (h_graphs h) t = Some (gt, at_)
        /\ is_homomorphism gs gt m = true;
  (* the map of a typing edge is a dictionary: its keys are distinct *)
  wf_typing_dict :
    forall s t m a, In ((s, t), (m, a)) (h_typings h) -> NoDup (dkeys m);
  (* 1. the typing edges form a DAG *)
  wf_acyclic : forall x mid, ~ is_path h (x :: mid ++ [x]);
  (* 2. paths with the same ends compose to the same map on the source *)
  wf_commutes :
    forall s t path1 path2 gs a m1 m2,
      path_from_to h s t path1 -> path_from_to h s t path2 ->
      dget (h_graphs h) s = Some (gs, a) ->
      compose_path_typing h path1 = Ok m1 ->
      compose_path_typing h path2 = Ok m2 ->
      forall n, In n (nodes gs) -> dget m1 n = dget m2 n;
  (* 4. at most one relation per unordered pair *)
  wf_relation_ids : NoDup (dkeys (h_relations h));
  wf_relation_unordered :
    forall u v, In (u, v) (dkeys (h_relations h)) -> u <> v ->
                ~ In (v, u) (dkeys (h_relations h));
  (* a relation relates nodes of its two graphs, to sets of nodes *)
  wf_relation_range :
    forall u v r a, In ((u, v), (r, a)) (h_relations h) ->
      exists gu au gv av,
        dget (h_graphs h) u = Some (gu, au)
        /\ dget (h_graphs h) v = Some (gv, av)
        /\ forall k vs, In (k, vs) r ->
             In k (nodes gu) /\ NoDup vs /\ forall x, In x vs -> In x (nodes gv)
}.

(** *** Dictionaries with unique keys *)

Lemma dget_In {K V} `{EqKey K} (d : dict K V) k v :
  NoDup (dkeys d) -> In (k, v) d -> dget d k = Some v.
Proof.
  induction d as [|[k' v'] r IH]; simpl; [tauto |].
  intros Hnd [E | Hin].
  - inversion E; subst. now rewrite keqb_refl.
  - inversion Hnd as [|? ? Hnot Hnd']; subst.
    destruct (keqb_spec k' k) as [-> | _].
    + exfalso. apply Hnot. apply in_map_iff. exists (k, v). auto.
    + auto.
Qed.

Lemma dget_Some_In {K V} `{EqKey K} (d : dict K V) k v :
  dget d k = Some v -> In (k, v) d.
Proof.
  induction d as [|[k' v'] r IH]; simpl; [discriminate |].
  destruct (keqb_spec k' k) as [-> | _].
  - intros E. inversion E. now left.
  - auto.
Qed.

Lemma dedup_NoDup_id {K} `{EqKey K} (l : list K) : NoDup l -> dedup l = l.
Proof.
  induction 1 as [|x l Hx Hnd IH]; simpl; [reflexivity |].
  apply inb_not_In in Hx. now rewrite Hx, IH.
Qed.

(** *** Loops that collect their results *)

Lemma for_each_collect {A B} (body : list B -> A -> result (list B))
      (g : A -> B) (l : list A) :
  forall acc,
    (forall acc x, In x l -> body acc x = Ok (acc ++ [g x])) ->
    for_each l body acc = Ok (acc ++ map g l).
Proof.
  induction l as [|x r IH]; intros acc Hbody; simpl.
  - now rewrite app_nil_r.
  - rewrite Hbody by now left. simpl.
    rewrite IH by (intros; apply Hbody; now right).
    now rewrite <- app_assoc.
Qed.

(** *** The JSON document of a well-formed hierarchy *)

Definition graph_to_data (e : gid * (Graph * attrs)) : graph_data :=
  mkGraphData (fst e) (graph_to_json (fst (snd e)))
              (Some (attrs_to_json (snd (snd e)))).

Definition typing_to_data (e : gid * gid * (mapping * attrs)) : typing_data :=
  mkTypingData (fst (fst e)) (snd (fst e)) (fst (snd e))
               (Some (attrs_to_json (snd (snd e)))).

Definition relation_to_data (e : gid * gid * (relation * attrs))
  : relation_data :=
  mkRelationData (fst (fst e)) (snd (fst e)) (fst (snd e))
                 (Some (attrs_to_json (snd (snd e)))).

Lemma to_json_relations h :
  NoDup (dkeys (h_relations h)) ->
  (forall u v, In (u, v) (dkeys (h_relations h)) -> u <> v ->
               ~ In (v, u) (dkeys (h_relations h))) ->
  forall rest pre acc,
    h_relations h = pre ++ rest ->
    for_each
      (flat_map (fun e => [(fst e, snd (snd e));
                           ((snd (fst e), fst (fst e)), snd (snd e))]) rest)
      (to_json_relation h None) (dkeys pre, acc)
    = Ok (dkeys (pre ++ rest), acc ++ map relation_to_data rest).
Proof.
  intros Hnd Hun. induction rest as [|[[u v] [r a]] rest IH];
    intros pre acc Hsplit.
  - simpl. now rewrite !app_nil_r.
  - assert (Hkeys : dkeys (h_relations h) = dkeys pre ++ (u, v) :: dkeys rest).
    { rewrite Hsplit. unfold dkeys. now rewrite map_app. }
    assert (Huv : ~ In (u, v) (dkeys pre)).
    { rewrite Hkeys in Hnd. apply NoDup_remove_2 in Hnd.
      intros Hc. apply Hnd. apply in_or_app. now left. }
    assert (Hvu : ~ In (v, u) (dkeys pre)).
    { destruct (keqb_spec u v) as [-> | Hne]; [assumption |].
      intros Hc. apply (Hun u v); [| assumption |].
      - rewrite Hkeys. apply in_or_app. right. now left.
      - rewrite Hkeys. apply in_or_app. now left. }
    assert (Hget : get_relation h u v = Ok r).
    { unfold get_relation. rewrite (@dget_In _ _ _ _ (u, v) (r, a)); auto.
      rewrite Hsplit. apply in_or_app. right. now left. }
    assert (Hin1 : inb (u, v) (dkeys pre ++ [(u, v)]) = true).
    { apply inb_In, in_or_app. right. now left. }
    apply inb_not_In in Huv. apply inb_not_In in Hvu.
    cbn [flat_map app fst snd for_each].
    unfold to_json_relation at 1. rewrite Huv, Hvu, Hget. cbn [negb andb bind].
    unfold to_json_relation at 1. rewrite Hin1, andb_false_r. cbn [bind].
    specialize (IH (pre ++ [((u, v), (r, a))])
                   (acc ++ [relation_to_data ((u, v), (r, a))])).
    replace (dkeys (pre ++ [((u, v), (r, a))])) with (dkeys pre ++ [(u, v)])
      in IH by (unfold dkeys; now rewrite map_app).
    change (mkRelationData (renamed None u) (renamed None v) r
                           (Some (attrs_to_json a)))
      with (relation_to_data ((u, v), (r, a))).
    rewrite IH by (rewrite Hsplit, <- app_assoc; reflexivity).
    rewrite <- !app_assoc. reflexivity.
Qed.

Lemma to_json_well_formed h :
  well_formed h ->
  to_json h None
  = Ok (mkJson (map graph_to_data (h_graphs h))
               (map typing_to_data (h_typings h))
               (map relation_to_data (h_relations h))).
Proof.
  intros Hwf. unfold to_json.
  rewrite (@for_each_collect _ _ _
             (fun na => match dget (h_graphs h) (fst na) with
                        | Some ga => graph_to_data (fst na, ga)
                        | None => graph_to_data (fst na, (mkGraph [] [], []))
                        end) (graphs_data h)).
  2: { intros acc [n a] Hin. unfold graphs_data in Hin.
       apply in_map_iff in Hin. destruct Hin as [[n' [g a']] [E Hin]].
       simpl in E. inversion E; subst; clear E.
       unfold to_json_graph, get_graph. simpl.
       rewrite (@dget_In _ _ _ _ n (g, a));
         [reflexivity | apply (wf_graph_ids Hwf) | assumption]. }
  rewrite (@for_each_collect _ _ _
             (fun sta => match dget (h_typings h) (fst sta) with
                         | Some ma => typing_to_data (fst sta, ma)
                         | None => typing_to_data (fst sta, ([], []))
                         end) (typings_data h)).
  2: { intros acc [[s t] a] Hin. unfold typings_data in Hin.
       apply in_map_iff in Hin. destruct Hin as [[st' [m a']] [E Hin]].
       simpl in E. inversion E; subst; clear E.
       unfold to_json_typing, get_typing. simpl.
       rewrite (@dget_In _ _ _ _ (s, t) (m, a));
         [reflexivity | apply (wf_typing_ids Hwf) | assumption]. }
  cbn [bind].
  pose proof (to_json_relations h (wf_relation_ids Hwf)
                (wf_relation_unordered Hwf) (h_relations h) [] [] eq_refl)
    as Hr.
  unfold relations_data. simpl in Hr. rewrite Hr. cbn [bind snd app].
  f_equal. f_equal.
  - unfold graphs_data. rewrite map_map. apply map_ext_in.
    intros [n [g a]] Hin. simpl.
    rewrite (@dget_In _ _ _ _ n (g, a));
         [reflexivity | apply (wf_graph_ids Hwf) | assumption].
  - unfold typings_data. rewrite map_map. apply map_ext_in.
    intros [[s t] [m a]] Hin. simpl.
    rewrite (@dget_In _ _ _ _ (s, t) (m, a));
         [reflexivity | apply (wf_typing_ids Hwf) | assumption].
Qed.

(** *** Replaying the JSON document *)

Lemma attrs_json_round_trip (a : attrs) : attrs_from_json (attrs_to_json a) = a.
Proof.
  unfold attrs_from_json, attrs_to_json. rewrite map_map.
  rewrite <- (map_id a) at 2. apply map_ext. now intros [k v].
Qed.

Lemma graph_json_round_trip (g : Graph) :
  mkGraph
    (map (fun n => (nj_id n, attrs_from_json (nj_attrs n)))
         (gj_nodes (graph_to_json g)))
    (map (fun e => (ej_from e, ej_to e, attrs_from_json (ej_attrs e)))
         (gj_edges (graph_to_json g)))
  = g.
Proof.
  destruct g as [ns es]. unfold graph_to_json. simpl. f_equal.
  - rewrite map_map. rewrite <- (map_id ns) at 2. apply map_ext.
    intros [n a]. simpl. now rewrite attrs_json_round_trip.
  - rewrite map_map. rewrite <- (map_id es) at 2. apply map_ext.
    intros [[s t] a]. simpl. now rewrite attrs_json_round_trip.
Qed.

(** An [ignore] argument that names nothing to ignore. *)
Definition ignores_nothing (ignore : option ignore_spec) : Prop :=
  match ignore with
  | None => True
  | Some ig =>
      (ig_graphs ig = None \/ ig_graphs ig = Some [])
      /\ (ig_typing ig = None \/ ig_typing ig = Some [])
      /\ (ig_relations ig = None \/ ig_relations ig = Some [])
  end.

Lemma ignores_nothing_graphs ignore x :
  ignores_nothing ignore -> ignored ignore ig_graphs x = false.
Proof.
  unfold ignored. destruct ignore as [ig|]; [| reflexivity].
  intros [[E | E] _]; now rewrite E.
Qed.

Lemma ignores_nothing_typing ignore x :
  ignores_nothing ignore -> ignored ignore ig_typing x = false.
Proof.
  unfold ignored. destruct ignore as [ig|]; [| reflexivity].
  intros [_ [[E | E] _]]; now rewrite E.
Qed.

Lemma ignores_nothing_relations ignore x :
  ignores_nothing ignore -> ignored ignore ig_relations x = false.
Proof.
  unfold ignored. destruct ignore as [ig|]; [| reflexivity].
  intros [_ [_ [E | E]]]; now rewrite E.
Qed.

Lemma mfor_each_unit_step {A} (l : list A) (body : unit -> A -> M unit) x h h1 :
  body tt x h = (Ok tt, h1) ->
  mfor_each (x :: l) body tt h = mfor_each l body tt h1.
Proof. intros E. simpl. unfold mbind. now rewrite E. Qed.

Lemma from_json_graphs ignore T R :
  ignores_nothing ignore ->
  forall rest pre,
    NoDup (dkeys (pre ++ rest)) ->
    mfor_each (map graph_to_data rest)
              (fun _ gd => from_json_graph ignore gd) tt
              (mkHierarchy pre T R)
    = (Ok tt, mkHierarchy (pre ++ rest) T R).
Proof.
  intros Hig. induction rest as [|[n [g a]] rest IH]; intros pre Hnd.
  - simpl. now rewrite app_nil_r.
  - assert (Hstep : from_json_graph ignore (graph_to_data (n, (g, a)))
                                   (mkHierarchy pre T R)
                    = (Ok tt, mkHierarchy (pre ++ [(n, (g, a))]) T R)).
    { unfold from_json_graph, graph_to_data.
      cbn [gd_id gd_graph gd_attrs fst snd].
      rewrite (ignores_nothing_graphs _ _ Hig).
      unfold add_graph_from_json, add_graph_from_data, json_attrs.
      rewrite graph_json_round_trip, attrs_json_round_trip.
      unfold graphs. cbn [h_graphs h_typings h_relations].
      assert (Hn : inb n (dkeys pre) = false).
      { apply inb_not_In. unfold dkeys in Hnd. rewrite map_app in Hnd.
        apply NoDup_remove_2 in Hnd. intros Hc. apply Hnd.
        apply in_or_app. now left. }
      now rewrite Hn. }
    cbn [map]. rewrite (mfor_each_unit_step _ _ _ _ Hstep).
    rewrite IH; rewrite <- app_assoc; [reflexivity | assumption].
Qed.

(** *** Paths and their composition *)

Lemma successors_In h s x : In x (successors h s) <-> In (s, x) (typings h).
Proof.
  unfold successors. rewrite in_map_iff. split.
  - intros [[a b] [<- Hin]]. apply filter_In in Hin. destruct Hin as [Hin E].
    cbn [fst snd] in E. apply keqb_eq in E. now subst.
  - intros Hin. exists (s, x). split; [reflexivity |].
    apply filter_In. split; [assumption | apply keqb_refl].
Qed.

Lemma predecessors_In h t x : In x (predecessors h t) <-> In (x, t) (typings h).
Proof.
  unfold predecessors. rewrite in_map_iff. split.
  - intros [[a b] [<- Hin]]. apply filter_In in Hin. destruct Hin as [Hin E].
    cbn [fst snd] in E. apply keqb_eq in E. now subst.
  - intros Hin. exists (x, t). split; [reflexivity |].
    apply filter_In. split; [assumption | apply keqb_refl].
Qed.

Lemma paths_between_sound h fuel :
  forall s t path, In path (paths_between fuel h s t) ->
                   path_from_to h s t path.
Proof.
  induction fuel as [|fuel IH]; intros s t path Hin;
    cbn [paths_between] in Hin; [destruct Hin |].
  apply in_flat_map in Hin. destruct Hin as [x [Hx Hin]].
  apply successors_In in Hx. apply in_app_or in Hin. destruct Hin as [Hin | Hin].
  - destruct (keqb x t) eqn:E; [| destruct Hin].
    apply keqb_eq in E. subst x.
    destruct Hin as [<- | []]. split; [now exists [] |]. simpl. auto.
  - apply in_map_iff in Hin. destruct Hin as [p' [<- Hp']].
    apply IH in Hp'. destruct Hp' as [[mid ->] Hpath].
    split; [now exists (x :: mid) |]. simpl. split; [assumption |].
    exact Hpath.
Qed.

Lemma is_path_incl h h' path :
  (forall e, In e (typings h) -> In e (typings h')) ->
  is_path h path -> is_path h' path.
Proof.
  intros Hincl. induction path as [|a r IH]; [simpl; auto |].
  destruct r as [|b r']; [simpl; auto |].
  intros [Hab Hr]. split; auto.
Qed.

Lemma get_typing_In h s t :
  In (s, t) (typings h) -> exists m, get_typing h s t = Ok m.
Proof.
  unfold get_typing, typings. intros Hin.
  destruct (dget (h_typings h) (s, t)) as [[m a]|] eqn:E; [eauto |].
  apply dget_None_keys in E. contradiction.
Qed.

Lemma compose_path_typing_unfold h s t rest :
  compose_path_typing h (s :: t :: rest)
  = (homomorphism <- get_typing h s t ;;
     st <- for_each rest (compose_step h) (t, homomorphism) ;;
     Ok (snd st)).
Proof. reflexivity. Qed.

Lemma compose_loop_extends hp h :
  extends hp h ->
  forall rest cur acc,
    is_path hp (cur :: rest) ->
    for_each rest (compose_step hp) (cur, acc)
    = for_each rest (compose_step h) (cur, acc)
    /\ exists st, for_each rest (compose_step hp) (cur, acc) = Ok st.
Proof.
  intros Hex. induction rest as [|t' rest IH]; intros cur acc Hpath.
  - simpl. eauto.
  - destruct Hpath as [Hin Hpath]. cbn [for_each].
    destruct (get_typing_In _ _ _ Hin) as [m Hm].
    unfold compose_step at 1 3 5. cbn [fst snd].
    rewrite Hm, (extends_get_typing _ _ Hex Hm). cbn [bind].
    now apply IH.
Qed.

Lemma compose_path_extends hp h path :
  extends hp h -> is_path hp path ->
  compose_path_typing hp path = compose_path_typing h path.
Proof.
  intros Hex Hpath. destruct path as [|s [|t rest]]; try reflexivity.
  rewrite !compose_path_typing_unfold. destruct Hpath as [Hin Hpath].
  destruct (get_typing_In _ _ _ Hin) as [m Hm].
  rewrite Hm, (extends_get_typing _ _ Hex Hm). cbn [bind].
  destruct (compose_loop_extends Hex rest t m Hpath) as [E _]. now rewrite E.
Qed.

Lemma compose_path_ok h s t path :
  path_from_to h s t path -> exists m, compose_path_typing h path = Ok m.
Proof.
  intros [[mid ->] Hpath].
  assert (Hshape : exists t' rest, mid ++ [t] = t' :: rest).
  { destruct mid; simpl; eauto. }
  destruct Hshape as [t' [rest E]]. rewrite E in *.
  rewrite compose_path_typing_unfold. destruct Hpath as [Hin Hpath].
  destruct (get_typing_In _ _ _ Hin) as [m Hm]. rewrite Hm. cbn [bind].
  destruct (compose_loop_extends (extends_refl h) rest t' m Hpath)
    as [_ [st Hst]].
  rewrite Hst. simpl. eauto.
Qed.

Lemma option_eqb_refl {K} `{EqKey K} (a : option K) : option_eqb a a = true.
Proof. destruct a; simpl; [apply keqb_refl | reflexivity]. Qed.

(** *** Replaying the typing edges *)

Lemma add_typing_replay h pre s t m a rest R :
  well_formed h ->
  h_typings h = pre ++ ((s, t), (m, a)) :: rest ->
  add_typing s t m (Some a) (mkHierarchy (h_graphs h) pre R)
  = (Ok tt, mkHierarchy (h_graphs h) (pre ++ [((s, t), (m, a))]) R).
Proof.
  intros Hwf Hsplit.
  set (hp := mkHierarchy (h_graphs h) pre R).
  assert (Hin : In ((s, t), (m, a)) (h_typings h)).
  { rewrite Hsplit. apply in_or_app. right. now left. }
  assert (Hkey : In (s, t) (typings h)).
  { unfold typings. apply in_map_iff. exists ((s, t), (m, a)). auto. }
  assert (Hnd : NoDup (dkeys pre ++ (s, t) :: dkeys rest)).
  { pose proof (wf_typing_ids Hwf) as H0. unfold typings in H0.
    rewrite Hsplit in H0. unfold dkeys in *. now rewrite map_app in H0. }
  assert (Hex : extends hp h).
  { intros e v Hv. rewrite Hsplit. now apply dget_app_some. }
  assert (Hincl : forall e, In e (typings hp) -> In e (typings h)).
  { intros e He. unfold typings in *. rewrite Hsplit. simpl in He.
    unfold dkeys. rewrite map_app. apply in_or_app. now left. }
  assert (Hm : get_typing h s t = Ok m).
  { unfold get_typing.
    rewrite (@dget_In _ _ _ _ (s, t) (m, a));
      [reflexivity | apply (wf_typing_ids Hwf) | assumption]. }
  destruct (wf_typing_hom Hwf _ _ _ _ Hin)
    as [gs [as_ [gt [at_ [Hgs [Hgt Hhom]]]]]].
  unfold add_typing. cbn [h_graphs hp]. rewrite Hgs, Hgt.
  assert (E1 : inb (s, t) (typings hp) = false).
  { apply inb_not_In. unfold typings. simpl.
    apply NoDup_remove_2 in Hnd. intros Hc. apply Hnd.
    apply in_or_app. now left. }
  fold hp. rewrite E1, Hhom. cbn [negb].
  assert (E2 : keqb s t = false).
  { apply keqb_neq. intros ->.
    apply (wf_acyclic Hwf t []). simpl. auto. }
  assert (E3 : paths_between (List.length (typings hp)) hp t s = []).
  { destruct (paths_between _ hp t s) as [|path l] eqn:Ep; [reflexivity |].
    exfalso.
    assert (Hp : In path (paths_between (List.length (typings hp)) hp t s))
      by (rewrite Ep; now left).
    apply paths_between_sound in Hp. destruct Hp as [[mid ->] Hpath].
    apply (wf_acyclic Hwf s (t :: mid)). simpl. split; [assumption |].
    apply (is_path_incl hp h _ Hincl) in Hpath. exact Hpath. }
  rewrite E2, E3. cbn [orb List.length Nat.eqb negb].
  assert (E4 : forallb (path_commutes hp (nodes gs) m)
                       (paths_between (List.length (typings hp)) hp s t)
               = true).
  { apply forallb_forall. intros path Hp. apply paths_between_sound in Hp.
    unfold path_commutes.
    rewrite (compose_path_extends _ Hex (proj2 Hp)).
    assert (Hp' : path_from_to h s t path).
    { destruct Hp as [Hshape Hpath]. split; [assumption |].
      eapply is_path_incl; eauto. }
    destruct (compose_path_ok Hp') as [mp Hmp]. rewrite Hmp.
    unfold maps_agree_on. apply forallb_forall. intros n Hn.
    rewrite (wf_commutes Hwf (path1 := path) (path2 := [s; t]) Hp'
               (conj (ex_intro _ [] eq_refl) (conj Hkey I)) Hgs Hmp
               (m2 := m)); [apply option_eqb_refl | | assumption].
    rewrite compose_path_typing_unfold, Hm. reflexivity. }
  rewrite E4. reflexivity.
Qed.

Lemma from_json_typings ignore h R :
  ignores_nothing ignore -> well_formed h ->
  forall rest pre,
    h_typings h = pre ++ rest ->
    mfor_each (map typing_to_data rest)
              (fun _ td => from_json_typing ignore td) tt
              (mkHierarchy (h_graphs h) pre R)
    = (Ok tt, mkHierarchy (h_graphs h) (pre ++ rest) R).
Proof.
  intros Hig Hwf. induction rest as [|[[s t] [m a]] rest IH];
    intros pre Hsplit.
  - simpl. now rewrite app_nil_r.
  - assert (Hstep : from_json_typing ignore (typing_to_data ((s, t), (m, a)))
                                    (mkHierarchy (h_graphs h) pre R)
                    = (Ok tt, mkHierarchy (h_graphs h)
                                          (pre ++ [((s, t), (m, a))]) R)).
    { unfold from_json_typing, typing_to_data.
      cbn [td_from td_to td_mapping td_attrs fst snd].
      rewrite (ignores_nothing_typing _ _ Hig).
      unfold json_attrs. rewrite attrs_json_round_trip.
      eapply add_typing_replay; eauto. }
    cbn [map]. rewrite (mfor_each_unit_step _ _ _ _ Hstep).
    rewrite IH; rewrite <- app_assoc; [reflexivity | assumption].
Qed.

(** *** Replaying the relations *)

Lemma relations_In h x :
  In x (relations h)
  <-> In x (dkeys (h_relations h)) \/ In (snd x, fst x) (dkeys (h_relations h)).
Proof.
  unfold relations, dkeys. rewrite in_flat_map. split.
  - intros [[k v] [Hin [<- | [<- | []]]]]; simpl.
    + left. apply in_map_iff. exists (k, v). auto.
    + right. apply in_map_iff. exists (k, v). split; [now destruct k | auto].
  - intros [Hin | Hin]; apply in_map_iff in Hin;
      destruct Hin as [[k v] [E Hin]]; exists (k, v); split; auto; simpl in *.
    + now left.
    + right. left. destruct x. simpl in *. now inversion E.
Qed.

Lemma add_relation_replay ignore h pre u v r a rest :
  ignores_nothing ignore -> well_formed h ->
  h_relations h = pre ++ ((u, v), (r, a)) :: rest ->
  from_json_relation ignore (relation_to_data ((u, v), (r, a)))
                     (mkHierarchy (h_graphs h) (h_typings h) pre)
  = (Ok tt,
     mkHierarchy (h_graphs h) (h_typings h) (pre ++ [((u, v), (r, a))])).
Proof.
  intros Hig Hwf Hsplit.
  set (hp := mkHierarchy (h_graphs h) (h_typings h) pre).
  assert (Hin : In ((u, v), (r, a)) (h_relations h)).
  { rewrite Hsplit. apply in_or_app. right. now left. }
  assert (Hkeys : dkeys (h_relations h) = dkeys pre ++ (u, v) :: dkeys rest).
  { rewrite Hsplit. unfold dkeys. now rewrite map_app. }
  pose proof (wf_relation_ids Hwf) as Hnd. rewrite Hkeys in Hnd.
  assert (Huv : ~ In (u, v) (dkeys pre)).
  { apply NoDup_remove_2 in Hnd. intros Hc. apply Hnd.
    apply in_or_app. now left. }
  assert (Hvu : ~ In (v, u) (dkeys pre)).
  { destruct (keqb_spec u v) as [-> | Hne]; [assumption |].
    intros Hc. apply (@wf_relation_unordered h Hwf u v); [| assumption |].
    - rewrite Hkeys. apply in_or_app. right. now left.
    - rewrite Hkeys. apply in_or_app. now left. }
  assert (Hpresent : inb (u, v) (relations hp) = false).
  { apply inb_not_In. rewrite relations_In. simpl. tauto. }
  destruct (wf_relation_range Hwf _ _ _ _ Hin)
    as [gu [au [gv [av [Hgu [Hgv Hrange]]]]]].
  assert (Hrel : map (fun ab => (fst ab, dedup (snd ab))) r = r).
  { rewrite <- (map_id r) at 2. apply map_ext_in. intros [k vs] Hk. simpl.
    destruct (Hrange _ _ Hk) as [_ [Hvs _]]. now rewrite dedup_NoDup_id. }
  unfold from_json_relation, relation_to_data.
  cbn [rd_from rd_to rd_rel rd_attrs fst snd].
  rewrite !(ignores_nothing_relations _ _ Hig). cbn [orb].
  unfold mbind, mread. fold hp. rewrite Hpresent.
  unfold add_relation. cbn [h_graphs hp]. rewrite Hgu, Hgv.
  fold hp. rewrite Hpresent, Hrel.
  assert (Hcheck : forallb
                     (fun kv => inb (fst kv) (nodes gu)
                                && forallb (fun x => inb x (nodes gv)) (snd kv))
                     r = true).
  { apply forallb_forall. intros [k vs] Hk. simpl.
    destruct (Hrange _ _ Hk) as [Hku [_ Hvs]].
    apply andb_true_iff. split; [now apply inb_In |].
    apply forallb_forall. intros x Hx. apply inb_In. auto. }
  rewrite Hcheck. cbn [negb]. unfold json_attrs.
  now rewrite attrs_json_round_trip.
Qed.

Lemma from_json_relations ignore h :
  ignores_nothing ignore -> well_formed h ->
  forall rest pre,
    h_relations h = pre ++ rest ->
    mfor_each (map relation_to_data rest)
              (fun _ rd => from_json_relation ignore rd) tt
              (mkHierarchy (h_graphs h) (h_typings h) pre)
    = (Ok tt, mkHierarchy (h_graphs h) (h_typings h) (pre ++ rest)).
Proof.
  intros Hig Hwf. induction rest as [|[[u v] [r a]] rest IH];
    intros pre Hsplit.
  - simpl. now rewrite app_nil_r.
  - cbn [map].
    erewrite mfor_each_unit_step
      by (eapply add_relation_replay; eauto).
    rewrite IH; rewrite <- app_assoc; [reflexivity | assumption].
Qed.

(** A well-formed hierarchy is equal to itself. *)
Lemma hierarchy_eq_refl h : well_formed h -> hierarchy_eq h h = true.
Proof.
  intros Hwf. apply hierarchy_eq_iff. split; [| split].
  - intros n a H. unfold graphs_data in H. apply in_map_iff in H.
    destruct H as [[n' [g a']] [E Hin]]. simpl in E. inversion E; subst.
    split.
    + unfold graphs, dkeys. apply in_map_iff. exists (n, (g, a)). auto.
    + unfold get_graph_attrs.
      rewrite (@dget_In _ _ _ _ n (g, a));
        [reflexivity | apply (wf_graph_ids Hwf) | assumption].
  - intros s t a H. unfold typings_data in H. apply in_map_iff in H.
    destruct H as [[st [m a']] [E Hin]]. simpl in E. inversion E; subst.
    split.
    + unfold edges, typings, dkeys. apply in_map_iff.
      exists ((s, t), (m, a)). auto.
    + unfold get_typing_attrs.
      rewrite (@dget_In _ _ _ _ (s, t) (m, a));
        [reflexivity | apply (wf_typing_ids Hwf) | assumption].
  - intros n1 n2 a H. unfold relations_data in H. apply in_flat_map in H.
    destruct H as [[[u v] [r a']] [Hin [E | [E | []]]]];
      simpl in E; inversion E; subst; unfold get_relation_attrs.
    + split.
      * left. apply relations_In. left. apply in_map_iff.
        exists ((n1, n2), (r, a)). auto.
      * rewrite (@dget_In _ _ _ _ (n1, n2) (r, a));
          [reflexivity | apply (wf_relation_ids Hwf) | assumption].
    + split.
      * right. apply relations_In. left. apply in_map_iff.
        exists ((n2, n1), (r, a)). auto.
      * destruct (keqb_spec n1 n2) as [-> | Hne].
        -- rewrite (@dget_In _ _ _ _ (n2, n2) (r, a));
             [reflexivity | apply (wf_relation_ids Hwf) | assumption].
        -- assert (Hnone : dget (h_relations h) (n1, n2) = None).
           { apply dget_None_keys.
             apply (@wf_relation_unordered h Hwf n2 n1); [| congruence].
             apply in_map_iff. exists ((n2, n1), (r, a)). auto. }
           rewrite Hnone.
           rewrite (@dget_In _ _ _ _ (n2, n1) (r, a));
             [reflexivity | apply (wf_relation_ids Hwf) | assumption].
Qed.

(** C1: for a well-formed hierarchy [h] and an [ignore] argument that names
    nothing, [from_json(to_json(h))] succeeds and yields a hierarchy equal to
    [h]: the same graphs, typing edges and relations with the same maps and
    attributes (the stores coincide, and [==] holds); each relation is
    serialized once, for the unordered pair of its graphs. *)
Theorem json_round_trip :
  forall h ignore,
    well_formed h -> ignores_nothing ignore ->
    exists json h',
      to_json h None = Ok json
      /\ from_json json ignore = Ok h'
      /\ h' = h
      /\ hierarchy_eq h' h = true
      /\ map (fun rd => (rd_from rd, rd_to rd)) (jd_relations json)
         = dkeys (h_relations h).
Proof.
  intros h ignore Hwf Hig.
  exists (mkJson (map graph_to_data (h_graphs h))
                 (map typing_to_data (h_typings h))
                 (map relation_to_data (h_relations h))), h.
  split; [now apply to_json_well_formed |]. split; [| split; [reflexivity |]].
  - unfold from_json, from_json_steps, mbind, empty_hierarchy.
    cbn [jd_graphs jd_typing jd_relations].
    rewrite (@from_json_graphs ignore [] [] Hig (h_graphs h) [])
      by (simpl; apply (wf_graph_ids Hwf)).
    cbn [app].
    rewrite (@from_json_typings ignore h [] Hig Hwf (h_typings h) [] eq_refl).
    cbn [app].
    rewrite (@from_json_relations ignore h Hig Hwf (h_relations h) [] eq_refl).
    cbn [app]. now destruct h.
  - split; [now apply hierarchy_eq_refl |].
    cbn [jd_relations]. unfold dkeys. rewrite map_map.
    apply map_ext. now intros [[u v] ra].
Qed.

(** The example hierarchies are well formed. *)
Lemma typed_hierarchy_paths s t path :
  path_from_to typed_hierarchy s t path -> path = ["A"; "B"].
Proof.
  intros [[mid ->] Hpath]. destruct mid as [|y mid]; simpl in Hpath.
  - destruct Hpath as [[E | []] _]. now inversion E.
  - destruct Hpath as [[E | []] Hrest]. inversion E; subst.
    destruct mid; simpl in Hrest; destruct Hrest as [[E' | []] _];
      inversion E'.
Qed.

Lemma typed_hierarchy_well_formed : well_formed typed_hierarchy.
Proof.
  constructor.
  - repeat constructor; simpl; intuition discriminate.
  - repeat constructor; simpl; intuition discriminate.
  - intros s t m a [E | []]. inversion E; subst.
    exists (plain_graph ["a"]), [], (plain_graph ["b"]), [].
    repeat split; reflexivity.
  - intros s t m a [E | []]. inversion E; subst.
    repeat constructor. simpl. tauto.
  - intros x mid Hpath.
    assert (E : x :: mid ++ [x] = ["A"; "B"]).
    { apply (typed_hierarchy_paths (s := x) (t := x)). split; eauto. }
    destruct mid as [|y [|z mid]]; simpl in E; inversion E; subst;
      try discriminate.
  - intros s t p1 p2 gs a m1 m2 H1 H2 _ E1 E2 n _.
    apply typed_hierarchy_paths in H1, H2. subst. congruence.
  - repeat constructor; simpl; intuition discriminate.
  - intros u v [E | []] Hne [E' | []]. inversion E; subst. inversion E'.
  - intros u v r a [E | []]. inversion E; subst.
    exists (plain_graph ["a"]), [], (plain_graph ["b"]), [].
    split; [reflexivity |]. split; [reflexivity |].
    intros k vs [E' | []]. inversion E'; subst.
    split; [simpl; auto |]. split.
    + repeat constructor. simpl. tauto.
    + intros x [<- | []]. simpl. auto.
Qed.

Lemma json_round_trip_witness :
  exists json h',
    to_json typed_hierarchy None = Ok json
    /\ from_json json (Some (mkIgnore (Some []) None (Some []))) = Ok h'
    /\ h' = typed_hierarchy
    /\ hierarchy_eq h' typed_hierarchy = true
    /\ map (fun rd => (rd_from rd, rd_to rd)) (jd_relations json)
       = dkeys (h_relations typed_hierarchy).
Proof.
  apply (@json_round_trip typed_hierarchy
                          (Some (mkIgnore (Some []) None (Some [])))
                          typed_hierarchy_well_formed).
  simpl. auto.
Defined.

(** ** Ancestors and descendants *)

Unset Implicit Arguments.

(** *** Lookups in updated dictionaries *)

Lemma dget_dset {K V} `{EqKey K} (d : dict K V) k v k' :
  dget (dset d k v) k' = if keqb k k' then Some v else dget d k'.
Proof.
  induction d as [|[k0 v0] r IH]; simpl.
  - reflexivity.
  - destruct (keqb_spec k0 k) as [-> | Hne]; simpl.
    + destruct (keqb k k'); reflexivity.
    + destruct (keqb_spec k0 k') as [-> | Hne'].
      * destruct (keqb_spec k k'); congruence.
      * apply IH.
Qed.

Lemma dkeys_dset {K V} `{EqKey K} (d : dict K V) k v k' :
  In k' (dkeys (dset d k v)) <-> k' = k \/ In k' (dkeys d).
Proof.
  induction d as [|[k0 v0] r IH]; simpl.
  - intuition.
  - destruct (keqb_spec k0 k) as [-> | Hne]; simpl.
    + intuition.
    + rewrite IH. intuition.
Qed.

Lemma dset_NoDup {K V} `{EqKey K} (d : dict K V) k v :
  NoDup (dkeys d) -> NoDup (dkeys (dset d k v)).
Proof.
  induction d as [|[k0 v0] r IH]; simpl; intros Hnd.
  - repeat constructor. simpl. tauto.
  - inversion Hnd as [|? ? Hnot Hnd']; subst.
    destruct (keqb_spec k0 k) as [-> | Hne]; simpl.
    + constructor; assumption.
    + constructor; [| auto]. rewrite dkeys_dset. intros [E | Hin]; auto.
Qed.

Lemma dupdate_step {K V} `{EqKey K} (d : dict K V) k v d2 :
  dupdate d ((k, v) :: d2) = dupdate (dset d k v) d2.
Proof. reflexivity. Qed.

Lemma dupdate_NoDup {K V} `{EqKey K} (d2 : dict K V) :
  forall d, NoDup (dkeys d) -> NoDup (dkeys (dupdate d d2)).
Proof.
  induction d2 as [|[k v] r IH]; intros d Hnd; [exact Hnd |].
  rewrite dupdate_step. apply IH. now apply dset_NoDup.
Qed.

Lemma dget_dupdate {K V} `{EqKey K} (d2 : dict K V) :
  NoDup (dkeys d2) ->
  forall d k,
    dget (dupdate d d2) k
    = match dget d2 k with Some v => Some v | None => dget d k end.
Proof.
  induction d2 as [|[k2 v2] r IH]; intros Hnd d k; [reflexivity |].
  inversion Hnd as [|? ? Hnot Hnd']; subst.
  rewrite dupdate_step, (IH Hnd'). cbn [dget].
  destruct (keqb_spec k2 k) as [-> | Hne].
  - assert (E : dget r k = None) by now apply dget_None_keys.
    rewrite E, dget_dset, keqb_refl. reflexivity.
  - destruct (dget r k); [reflexivity |].
    rewrite dget_dset. destruct (keqb_spec k2 k); congruence.
Qed.

Lemma dkeys_dupdate {K V} `{EqKey K} (d2 : dict K V) :
  forall d k, In k (dkeys (dupdate d d2)) <-> In k (dkeys d) \/ In k (dkeys d2).
Proof.
  induction d2 as [|[k2 v2] r IH]; intros d k.
  - simpl. tauto.
  - rewrite dupdate_step, IH, dkeys_dset. simpl. intuition.
Qed.

(** *** Composition of maps *)

Definition map_equiv (m1 m2 : mapping) : Prop :=
  forall n, dget m1 n = dget m2 n.

Lemma dget_compose d1 d2 k :
  NoDup (dkeys d1) ->
  dget (compose d1 d2) k
  = match dget d1 k with Some v => dget d2 v | None => None end.
Proof.
  unfold compose. induction d1 as [|[k1 v1] r IH]; intros Hnd; [reflexivity |].
  inversion Hnd as [|? ? Hnot Hnd']; subst.
  cbn [flat_map dget fst snd].
  destruct (keqb_spec k1 k) as [-> | Hne].
  - destruct (dget d2 v1) eqn:E; cbn [app dget].
    + now rewrite keqb_refl.
    + rewrite (IH Hnd').
      assert (E' : dget r k = None) by now apply dget_None_keys.
      now rewrite E'.
  - destruct (dget d2 v1); cbn [app dget].
    + destruct (keqb_spec k1 k); [congruence | now apply IH].
    + now apply IH.
Qed.

Lemma dkeys_compose d1 d2 k :
  In k (dkeys (compose d1 d2)) -> In k (dkeys d1).
Proof.
  unfold compose, dkeys. rewrite in_map_iff.
  intros [[k' v] [<- Hin]]. apply in_flat_map in Hin.
  destruct Hin as [[k1 v1] [Hin Hkv]]. cbn [fst snd] in Hkv.
  destruct (dget d2 v1); [| destruct Hkv].
  destruct Hkv as [E | []]. inversion E; subst.
  apply in_map_iff. exists (k', v1). auto.
Qed.

Lemma compose_NoDup d1 d2 : NoDup (dkeys d1) -> NoDup (dkeys (compose d1 d2)).
Proof.
  induction d1 as [|[k1 v1] r IH]; intros Hnd; [constructor |].
  inversion Hnd as [|? ? Hnot Hnd']; subst.
  unfold compose. cbn [flat_map fst snd].
  destruct (dget d2 v1); cbn [app]; [| now apply IH].
  cbn [dkeys map fst]. constructor; [| now apply IH].
  intros Hc. apply Hnot. eapply dkeys_compose. exact Hc.
Qed.

Lemma compose_assoc a b c :
  NoDup (dkeys b) -> compose (compose a b) c = compose a (compose b c).
Proof.
  intros Hnd. unfold compose at 1 2 3.
  induction a as [|[k v] r IH]; [reflexivity |].
  cbn [flat_map fst snd]. rewrite (dget_compose b c v Hnd).
  destruct (dget b v) as [w|]; cbn [app flat_map fst snd].
  - rewrite IH. destruct (dget c w); reflexivity.
  - exact IH.
Qed.

Lemma compose_equiv d1 d1' d2 :
  NoDup (dkeys d1) -> NoDup (dkeys d1') -> map_equiv d1 d1' ->
  map_equiv (compose d1 d2) (compose d1' d2).
Proof.
  intros H1 H1' He n. rewrite !dget_compose by assumption. now rewrite He.
Qed.

Lemma compose_equiv_r d1 d2 d2' :
  NoDup (dkeys d1) -> map_equiv d2 d2' ->
  map_equiv (compose d1 d2) (compose d1 d2').
Proof.
  intros H1 He n. rewrite !dget_compose by assumption.
  destruct (dget d1 n); [apply He | reflexivity].
Qed.

(** *** Total maps between the node sets of two graphs *)

Definition graph_nodes (h : Hierarchy) (g : gid) : list node :=
  match dget (h_graphs h) g with
  | Some ga => nodes (fst ga)
  | None => []
  end.

(** [m] is a dictionary that maps every node of [a] to a node of [b]. *)
Definition map_between (h : Hierarchy) (a b : gid) (m : mapping) : Prop :=
  NoDup (dkeys m)
  /\ (forall n v, dget m n = Some v ->
                  In n (graph_nodes h a) /\ In v (graph_nodes h b))
  /\ (forall n, In n (graph_nodes h a) -> exists v, dget m n = Some v).

Lemma get_typing_entry h s t m :
  get_typing h s t = Ok m -> exists a, In ((s, t), (m, a)) (h_typings h).
Proof.
  unfold get_typing.
  destruct (dget (h_typings h) (s, t)) as [[m' a]|] eqn:E; [| discriminate].
  intros E'. inversion E'; subst. exists a. now apply dget_Some_In.
Qed.

Lemma get_typing_edge h s t m : get_typing h s t = Ok m -> In (s, t) (typings h).
Proof.
  intros E. destruct (get_typing_entry h s t m E) as [a Hin].
  unfold typings, dkeys. apply in_map_iff. exists ((s, t), (m, a)). auto.
Qed.

Lemma edge_map_between h s t m :
  well_formed h -> get_typing h s t = Ok m -> map_between h s t m.
Proof.
  intros Hwf E. destruct (get_typing_entry h s t m E) as [a Hin].
  destruct (wf_typing_hom Hwf _ _ _ _ Hin)
    as [gs [as_ [gt [at_ [Hgs [Hgt Hhom]]]]]].
  unfold is_homomorphism in Hhom.
  apply andb_true_iff in Hhom. destruct Hhom as [Hhom _].
  apply andb_true_iff in Hhom. destruct Hhom as [Hhom _].
  apply andb_true_iff in Hhom. destruct Hhom as [Htot Hrange].
  rewrite forallb_forall in Htot, Hrange.
  unfold map_between, graph_nodes. rewrite Hgs, Hgt. cbn [fst].
  split; [eapply wf_typing_dict; eauto |]. split.
  - intros n v Hv. apply dget_Some_In in Hv. apply Hrange in Hv.
    cbn [fst snd] in Hv. apply andb_true_iff in Hv.
    destruct Hv as [H1 H2]. split; now apply inb_In.
  - intros n Hn. apply Htot in Hn. unfold dmem in Hn.
    destruct (dget m n); [eauto | discriminate].
Qed.

Lemma compose_map_between h a b c m1 m2 :
  map_between h a b m1 -> map_between h b c m2 ->
  map_between h a c (compose m1 m2).
Proof.
  intros [Hnd1 [Hr1 Ht1]] [Hnd2 [Hr2 Ht2]]. split; [| split].
  - now apply compose_NoDup.
  - intros n v. rewrite dget_compose by assumption.
    destruct (dget m1 n) as [w|] eqn:E; [| discriminate].
    intros Hv. split; [apply (Hr1 _ _ E) | apply (Hr2 _ _ Hv)].
  - intros n Hn. rewrite dget_compose by assumption.
    destruct (Ht1 _ Hn) as [w Hw]. rewrite Hw.
    apply Ht2. apply (Hr1 _ _ Hw).
Qed.

Lemma map_between_equiv h a b m m' :
  map_between h a b m -> NoDup (dkeys m') -> map_equiv m' m ->
  map_between h a b m'.
Proof.
  intros [Hnd [Hr Ht]] Hnd' He. split; [assumption |]. split.
  - intros n v Hv. rewrite He in Hv. eauto.
  - intros n Hn. rewrite He. eauto.
Qed.

(** *** The composition along a path *)

Lemma is_path_snoc h path p g :
  is_path h (path ++ [p]) -> In (p, g) (typings h) ->
  is_path h ((path ++ [p]) ++ [g]).
Proof.
  induction path as [|a r IH]; intros Hpath Hin.
  - simpl. auto.
  - destruct r as [|b r'].
    + simpl in *. tauto.
    + simpl in Hpath. destruct Hpath as [Hab Hr]. simpl. split; [assumption |].
      apply IH; assumption.
Qed.

Lemma last_cons_default {A} (l : list A) x d d' :
  last (x :: l) d = last (x :: l) d'.
Proof.
  revert x. induction l as [|y r IH]; intros x; [reflexivity |].
  change (last (y :: r) d = last (y :: r) d'). apply IH.
Qed.

Lemma compose_loop_last h :
  forall rest cur acc st,
    for_each rest (compose_step h) (cur, acc) = Ok st ->
    fst st = last (cur :: rest) cur.
Proof.
  induction rest as [|t' rest IH]; intros cur acc st E.
  - simpl in E. inversion E. reflexivity.
  - cbn [for_each] in E. unfold compose_step at 1 in E. cbn [fst snd] in E.
    destruct (get_typing h cur t'); cbn [bind] in E; [| discriminate].
    apply IH in E. rewrite E.
    change (last (cur :: t' :: rest) cur) with (last (t' :: rest) cur).
    apply last_cons_default.
Qed.

Lemma compose_loop_between h a :
  well_formed h ->
  forall rest cur acc st,
    map_between h a cur acc ->
    for_each rest (compose_step h) (cur, acc) = Ok st ->
    map_between h a (fst st) (snd st).
Proof.
  intros Hwf. induction rest as [|t' rest IH]; intros cur acc st Hacc E.
  - simpl in E. inversion E. exact Hacc.
  - cbn [for_each] in E. unfold compose_step at 1 in E. cbn [fst snd] in E.
    destruct (get_typing h cur t') as [m|] eqn:Hm; cbn [bind] in E;
      [| discriminate].
    apply IH in E; [assumption |].
    eapply compose_map_between; [exact Hacc |].
    now apply edge_map_between.
Qed.

Lemma last_snoc {A} (l : list A) x d : last (l ++ [x]) d = x.
Proof.
  induction l as [|a r IH]; [reflexivity |].
  simpl. destruct (r ++ [x]) eqn:E; [destruct r; discriminate | exact IH].
Qed.

Lemma compose_path_between h a g path m :
  well_formed h -> path_from_to h a g path ->
  compose_path_typing h path = Ok m -> map_between h a g m.
Proof.
  intros Hwf [[mid ->] Hpath] E.
  assert (Hshape : exists t rest, mid ++ [g] = t :: rest
                                  /\ last (t :: rest) t = g).
  { destruct mid as [|t mid'].
    - exists g, []. auto.
    - exists t, (mid' ++ [g]). split; [reflexivity |].
      change (t :: mid' ++ [g]) with ((t :: mid') ++ [g]). apply last_snoc. }
  destruct Hshape as [t [rest [Es Hlast]]]. rewrite Es in E.
  rewrite compose_path_typing_unfold in E.
  destruct (get_typing h a t) as [m0|] eqn:Hm0; cbn [bind] in E;
    [| discriminate].
  destruct (for_each rest (compose_step h) (t, m0)) as [st|] eqn:Hst;
    cbn [bind] in E; [| discriminate].
  injection E as <-.
  pose proof (compose_loop_last h rest t m0 st Hst) as Hl.
  pose proof (compose_loop_between h a Hwf rest t m0 st
                (edge_map_between h a t m0 Hwf Hm0) Hst) as Hb.
  rewrite Hl, Hlast in Hb. exact Hb.
Qed.

(** Commutativity: two paths with the same ends compose to the same map. *)
Lemma path_compositions_equiv h a g path1 path2 m1 m2 :
  well_formed h ->
  path_from_to h a g path1 -> path_from_to h a g path2 ->
  compose_path_typing h path1 = Ok m1 ->
  compose_path_typing h path2 = Ok m2 ->
  map_equiv m1 m2.
Proof.
  intros Hwf H1 H2 E1 E2 n.
  pose proof (compose_path_between h a g path1 m1 Hwf H1 E1) as [_ [Hr1 _]].
  pose proof (compose_path_between h a g path2 m2 Hwf H2 E2) as [_ [Hr2 _]].
  unfold graph_nodes in Hr1, Hr2.
  destruct (dget (h_graphs h) a) as [[ga aa]|] eqn:Ha.
  - cbn [fst] in *.
    destruct (in_dec string_dec n (nodes ga)) as [Hn | Hn].
    + exact (wf_commutes Hwf H1 H2 Ha E1 E2 n Hn).
    + destruct (dget m1 n) as [v1|] eqn:Hv1;
        [exfalso; apply Hn; apply (Hr1 _ _ Hv1) |].
      destruct (dget m2 n) as [v2|] eqn:Hv2;
        [exfalso; apply Hn; apply (Hr2 _ _ Hv2) | reflexivity].
  - destruct (dget m1 n) as [v1|] eqn:Hv1; [destruct (proj1 (Hr1 _ _ Hv1)) |].
    destruct (dget m2 n) as [v2|] eqn:Hv2; [destruct (proj1 (Hr2 _ _ Hv2)) |].
    reflexivity.
Qed.

Lemma compose_path_snoc h a p g path m t :
  path_from_to h a p path ->
  compose_path_typing h path = Ok m -> get_typing h p g = Ok t ->
  path_from_to h a g (path ++ [g])
  /\ compose_path_typing h (path ++ [g]) = Ok (compose m t).
Proof.
  intros [[mid ->] Hpath] E Ht. split.
  - split; [exists (mid ++ [p]); reflexivity |].
    change (a :: mid ++ [p]) with ((a :: mid) ++ [p]).
    apply is_path_snoc; [exact Hpath | eapply get_typing_edge; eauto].
  - assert (Hshape : exists t0 rest, mid ++ [p] = t0 :: rest
                                     /\ last (t0 :: rest) t0 = p).
    { destruct mid as [|t0 mid'].
      - exists p, []. auto.
      - exists t0, (mid' ++ [p]). split; [reflexivity |].
        change (t0 :: mid' ++ [p]) with ((t0 :: mid') ++ [p]).
        apply last_snoc. }
    destruct Hshape as [t0 [rest [Es Hlast]]].
    cbn [app]. rewrite Es in *. cbn [app].
    rewrite compose_path_typing_unfold in *.
    destruct (get_typing h a t0) as [m0|] eqn:Hm0; cbn [bind] in *;
      [| discriminate].
    rewrite for_each_app.
    destruct (for_each rest (compose_step h) (t0, m0)) as [st|] eqn:Hst;
      cbn [bind] in *; [| discriminate].
    injection E as <-.
    pose proof (compose_loop_last h rest t0 m0 st Hst) as Hl.
    rewrite Hlast in Hl.
    cbn [for_each]. unfold compose_step at 1. rewrite Hl, Ht. reflexivity.
Qed.

Lemma compose_loop_cons h t :
  forall rest cur acc st,
    NoDup (dkeys acc) ->
    for_each rest (compose_step h) (cur, acc) = Ok st ->
    for_each rest (compose_step h) (cur, compose t acc)
    = Ok (fst st, compose t (snd st)).
Proof.
  induction rest as [|t' rest IH]; intros cur acc st Hnd E.
  - simpl in *. inversion E. reflexivity.
  - cbn [for_each] in *. unfold compose_step at 1 in E.
    unfold compose_step at 1. cbn [fst snd] in *.
    destruct (get_typing h cur t') as [m|]; cbn [bind] in *; [| discriminate].
    rewrite compose_assoc by assumption.
    apply IH; [now apply compose_NoDup | assumption].
Qed.

Lemma compose_path_cons h g s d path m t :
  well_formed h ->
  path_from_to h s d path ->
  compose_path_typing h path = Ok m -> get_typing h g s = Ok t ->
  path_from_to h g d (g :: path)
  /\ compose_path_typing h (g :: path) = Ok (compose t m).
Proof.
  intros Hwf [[mid ->] Hpath] E Ht. split.
  - split; [now exists (s :: mid) |].
    simpl. split; [eapply get_typing_edge; eauto | exact Hpath].
  - assert (Hshape : exists t0 rest, mid ++ [d] = t0 :: rest).
    { destruct mid; simpl; eauto. }
    destruct Hshape as [t0 [rest Es]]. rewrite Es in *.
    rewrite compose_path_typing_unfold in *. rewrite Ht. cbn [bind for_each].
    unfold compose_step at 1. cbn [fst snd].
    destruct (get_typing h s t0) as [m0|] eqn:Hm0; cbn [bind] in *;
      [| discriminate].
    destruct (for_each rest (compose_step h) (t0, m0)) as [st|] eqn:Hst;
      cbn [bind] in *; [| discriminate].
    injection E as <-.
    rewrite (compose_loop_cons h t rest t0 m0 st
               (proj1 (edge_map_between h s t0 m0 Hwf Hm0)) Hst).
    reflexivity.
Qed.

(** *** Composed typings *)

(** [m] is a dictionary that is, as a map, the composition of the typings
    along a path from [a] to [g]. *)
Definition is_typing (h : Hierarchy) (a g : gid) (m : mapping) : Prop :=
  NoDup (dkeys m)
  /\ exists path m',
      path_from_to h a g path
      /\ compose_path_typing h path = Ok m' /\ map_equiv m m'.

Lemma is_typing_between h a g m :
  well_formed h -> is_typing h a g m -> map_between h a g m.
Proof.
  intros Hwf [Hnd [path [m' [Hp [Hc He]]]]].
  apply (map_between_equiv h a g m' m); auto.
  exact (compose_path_between h a g path m' Hwf Hp Hc).
Qed.

Lemma is_typing_equiv h a g m1 m2 :
  well_formed h -> is_typing h a g m1 -> is_typing h a g m2 ->
  map_equiv m1 m2.
Proof.
  intros Hwf [_ [p1 [m1' [Hp1 [Hc1 He1]]]]] [_ [p2 [m2' [Hp2 [Hc2 He2]]]]] n.
  rewrite He1, He2.
  exact (path_compositions_equiv h a g p1 p2 m1' m2' Hwf Hp1 Hp2 Hc1 Hc2 n).
Qed.

Lemma is_typing_edge h a g t :
  well_formed h -> get_typing h a g = Ok t -> is_typing h a g t.
Proof.
  intros Hwf Ht. split; [apply (edge_map_between h a g t Hwf Ht) |].
  exists [a; g], t. split; [| split].
  - split; [now exists [] |]. simpl. split; [| exact I].
    exact (get_typing_edge h a g t Ht).
  - rewrite compose_path_typing_unfold, Ht. reflexivity.
  - intros n. reflexivity.
Qed.

Lemma is_typing_snoc h a p g m t :
  well_formed h -> is_typing h a p m -> get_typing h p g = Ok t ->
  is_typing h a g (compose m t).
Proof.
  intros Hwf [Hnd [path [m' [Hp [Hc He]]]]] Ht.
  destruct (compose_path_snoc h a p g path m' t Hp Hc Ht) as [Hp' Hc'].
  split; [now apply compose_NoDup |].
  exists (path ++ [g]), (compose m' t). split; [assumption |].
  split; [assumption |].
  apply compose_equiv; auto.
  apply (compose_path_between h a p path m' Hwf Hp Hc).
Qed.

Lemma is_typing_cons h g s d m t :
  well_formed h -> is_typing h s d m -> get_typing h g s = Ok t ->
  is_typing h g d (compose t m).
Proof.
  intros Hwf [Hnd [path [m' [Hp [Hc He]]]]] Ht.
  destruct (compose_path_cons h g s d path m' t Hwf Hp Hc Ht) as [Hp' Hc'].
  pose proof (edge_map_between h g s t Hwf Ht) as [Hndt _].
  split; [now apply compose_NoDup |].
  exists (g :: path), (compose t m'). split; [assumption |].
  split; [assumption |]. now apply compose_equiv_r.
Qed.

(** [cur.update(c)] is the map [c] as soon as [c] is defined wherever [cur]
    is. *)
Lemma is_typing_update h a g cur c :
  is_typing h a g c -> NoDup (dkeys cur) ->
  (forall n, dget c n = None -> dget cur n = None) ->
  is_typing h a g (dupdate cur c).
Proof.
  intros [Hnd [path [m' [Hp [Hc He]]]]] Hcur Hdom.
  split; [now apply dupdate_NoDup |].
  exists path, m'. split; [assumption |]. split; [assumption |].
  intros n. rewrite dget_dupdate by assumption. rewrite <- He.
  destruct (dget c n) eqn:E; [reflexivity | now apply Hdom].
Qed.

Lemma is_typing_update_same h a g cur c :
  well_formed h -> is_typing h a g cur -> is_typing h a g c ->
  is_typing h a g (dupdate cur c).
Proof.
  intros Hwf Hcur Hc. apply is_typing_update; [assumption | apply Hcur |].
  intros n. now rewrite (is_typing_equiv h a g cur c Hwf Hcur Hc n).
Qed.

Lemma is_typing_update_stale h a p g x t :
  well_formed h -> is_typing h a p x -> get_typing h p g = Ok t ->
  is_typing h a g (dupdate x (compose x t)).
Proof.
  intros Hwf Hx Ht. apply is_typing_update.
  - exact (is_typing_snoc h a p g x t Hwf Hx Ht).
  - apply Hx.
  - intros n. rewrite dget_compose by apply Hx.
    destruct (dget x n) as [v|] eqn:Hv; [| reflexivity].
    destruct (is_typing_between h a p x Hwf Hx) as [_ [Hr _]].
    destruct (edge_map_between h p g t Hwf Ht) as [_ [_ Htot]].
    destruct (Htot v (proj2 (Hr n v Hv))) as [w Hw]. rewrite Hw. discriminate.
Qed.

(** *** The inner loop of [get_ancestors] and [get_descendants] *)

Definition merge_step (comp : mapping -> mapping) (acc : dict gid mapping)
           (at_ : gid * mapping) : dict gid mapping :=
  match dget acc (fst at_) with
  | Some cur => dset acc (fst at_) (dupdate cur (comp (snd at_)))
  | None => dset acc (fst at_) (comp (snd at_))
  end.

Lemma merge_composed_cons comp k v others acc :
  merge_composed comp ((k, v) :: others) acc
  = merge_composed comp others (merge_step comp acc (k, v)).
Proof. reflexivity. Qed.

Lemma dget_merge_step comp acc k v a :
  dget (merge_step comp acc (k, v)) a
  = if keqb k a
    then Some (match dget acc k with
               | Some cur => dupdate cur (comp v)
               | None => comp v
               end)
    else dget acc a.
Proof.
  unfold merge_step. cbn [fst snd].
  destruct (dget acc k); rewrite dget_dset; reflexivity.
Qed.

Lemma dkeys_merge_step comp acc k v a :
  In a (dkeys (merge_step comp acc (k, v))) <-> a = k \/ In a (dkeys acc).
Proof.
  unfold merge_step. cbn [fst snd].
  destruct (dget acc k); apply dkeys_dset.
Qed.

Lemma merge_step_NoDup comp acc kv :
  NoDup (dkeys acc) -> NoDup (dkeys (merge_step comp acc kv)).
Proof.
  unfold merge_step. destruct (dget acc (fst kv)); apply dset_NoDup.
Qed.

Lemma dget_merge_composed comp others :
  NoDup (dkeys others) ->
  forall acc a,
    dget (merge_composed comp others acc) a
    = match dget others a with
      | Some x => Some (match dget acc a with
                        | Some cur => dupdate cur (comp x)
                        | None => comp x
                        end)
      | None => dget acc a
      end.
Proof.
  induction others as [|[k v] r IH]; intros Hnd acc a; [reflexivity |].
  inversion Hnd as [|? ? Hnot Hnd']; subst.
  rewrite merge_composed_cons, (IH Hnd'), dget_merge_step. cbn [dget].
  destruct (keqb_spec k a) as [-> | Hne].
  - assert (E : dget r a = None) by now apply dget_None_keys.
    now rewrite E.
  - reflexivity.
Qed.

Lemma dkeys_merge_composed comp others :
  forall acc a,
    In a (dkeys (merge_composed comp others acc))
    <-> In a (dkeys acc) \/ In a (dkeys others).
Proof.
  induction others as [|[k v] r IH]; intros acc a.
  - simpl. tauto.
  - rewrite merge_composed_cons, IH, dkeys_merge_step. simpl. intuition.
Qed.

Lemma merge_composed_NoDup comp others :
  forall acc, NoDup (dkeys acc) ->
              NoDup (dkeys (merge_composed comp others acc)).
Proof.
  induction others as [|[k v] r IH]; intros acc Hnd; [exact Hnd |].
  rewrite merge_composed_cons. apply IH. now apply merge_step_NoDup.
Qed.

(** *** Paths that end or start with a typing edge *)

Lemma is_path_snoc_inv h path p g :
  is_path h ((path ++ [p]) ++ [g]) ->
  is_path h (path ++ [p]) /\ In (p, g) (typings h).
Proof.
  induction path as [|a r IH]; intros Hpath.
  - simpl in *. tauto.
  - destruct r as [|b r'].
    + simpl in *. tauto.
    + simpl in Hpath. destruct Hpath as [Hab Hr].
      destruct (IH Hr) as [H1 H2]. split; [| assumption].
      simpl. split; assumption.
Qed.

(** A path to [g] ends with an edge from a predecessor [p] of [g], and is
    that edge or goes through [p]. *)
Lemma path_to_cases h a g :
  (exists path, path_from_to h a g path)
  <-> exists p, In (p, g) (typings h)
                /\ (a = p \/ exists path, path_from_to h a p path).
Proof.
  split.
  - intros [path [[mid ->] Hpath]].
    destruct (exists_last (l := a :: mid)) as [front [p E]]; [discriminate |].
    change (a :: mid ++ [g]) with ((a :: mid) ++ [g]) in Hpath.
    rewrite E in Hpath. apply is_path_snoc_inv in Hpath.
    destruct Hpath as [Hfront Hedge]. exists p. split; [assumption |].
    destruct front as [|a' front'].
    + left. simpl in E. now inversion E.
    + right. simpl in E. inversion E; subst.
      exists (a' :: front' ++ [p]). split; [now exists front' | assumption].
  - intros [p [Hedge [-> | [path [[mid ->] Hpath]]]]].
    + exists [p; g]. split; [now exists [] |]. simpl. auto.
    + exists ((a :: mid ++ [p]) ++ [g]). split.
      * exists (mid ++ [p]). reflexivity.
      * change (a :: mid ++ [p]) with ((a :: mid) ++ [p]).
        now apply is_path_snoc.
Qed.

(** A path from [g] starts with an edge to a successor [s] of [g]. *)
Lemma path_from_cases h g d :
  (exists path, path_from_to h g d path)
  <-> exists s, In (g, s) (typings h)
                /\ (d = s \/ exists path, path_from_to h s d path).
Proof.
  split.
  - intros [path [[mid ->] Hpath]]. destruct mid as [|s mid].
    + exists d. simpl in Hpath. split; [tauto | now left].
    + simpl in Hpath. destruct Hpath as [Hedge Hrest].
      exists s. split; [assumption |]. right.
      exists (s :: mid ++ [d]). split; [now exists mid | assumption].
  - intros [s [Hedge [-> | [path [[mid ->] Hpath]]]]].
    + exists [g; s]. split; [now exists [] |]. simpl. auto.
    + exists (g :: s :: mid ++ [d]). split; [now exists (s :: mid) |].
      simpl. split; assumption.
Qed.

(** *** What [get_ancestors] and [get_descendants] return *)

(** The keys of [anc] are the graphs with a path to [g], and the value of a
    key is the composition of the typings along such a path. *)
Definition ancestors_spec (h : Hierarchy) (g : gid) (anc : dict gid mapping)
  : Prop :=
  NoDup (dkeys anc)
  /\ (forall a, In a (dkeys anc) <-> exists path, path_from_to h a g path)
  /\ (forall a m, dget anc a = Some m -> is_typing h a g m).

Definition descendants_spec (h : Hierarchy) (g : gid) (desc : dict gid mapping)
  : Prop :=
  NoDup (dkeys desc)
  /\ (forall d, In d (dkeys desc) <-> exists path, path_from_to h g d path)
  /\ (forall d m, dget desc d = Some m -> is_typing h g d m).

(** The state of the loop of [get_ancestors] once the predecessors [done]
    have been processed. *)
Definition ancestors_inv (h : Hierarchy) (g : gid) (done : list gid)
           (acc : dict gid mapping) : Prop :=
  NoDup (dkeys acc)
  /\ (forall a, In a (dkeys acc)
                <-> exists p, In p done
                              /\ (a = p \/ exists path, path_from_to h a p path))
  /\ (forall a m, dget acc a = Some m -> is_typing h a g m).

Definition descendants_inv (h : Hierarchy) (g : gid) (done : list gid)
           (acc : dict gid mapping) : Prop :=
  NoDup (dkeys acc)
  /\ (forall d, In d (dkeys acc)
                <-> exists s, In s done
                              /\ (d = s \/ exists path, path_from_to h s d path))
  /\ (forall d m, dget acc d = Some m -> is_typing h g d m).

Lemma ancestors_step_inv h g rec done acc p acc' :
  well_formed h ->
  (forall q anc, rec q = Ok anc -> ancestors_spec h q anc) ->
  ancestors_inv h g done acc ->
  ancestors_step h g rec acc (p, g) = Ok acc' ->
  ancestors_inv h g (done ++ [p]) acc'.
Proof.
  intros Hwf Hrec [Hnd [Hkeys Hvals]] E.
  unfold ancestors_step in E. cbn [fst] in E.
  destruct (get_typing h p g) as [t|] eqn:Ht; cbn [bind] in E;
    [| discriminate].
  destruct (rec p) as [PA|] eqn:HPA; cbn [bind] in E; [| discriminate].
  injection E as <-.
  destruct (Hrec p PA HPA) as [HndPA [HkeysPA HvalsPA]].
  set (acc1 := if dmem acc p then dupdate acc PA else dset acc p t).
  assert (Hnd1 : NoDup (dkeys acc1)).
  { unfold acc1. destruct (dmem acc p);
      [now apply dupdate_NoDup | now apply dset_NoDup]. }
  assert (Hkeys1 : forall a, In a (dkeys acc1) \/ In a (dkeys PA)
                             <-> In a (dkeys acc) \/ a = p \/ In a (dkeys PA)).
  { intros a. unfold acc1. destruct (dmem acc p) eqn:Hmem.
    - apply dmem_keys in Hmem. rewrite dkeys_dupdate.
      split; [tauto |]. intros [H | [-> | H]]; tauto.
    - rewrite dkeys_dset. tauto. }
  split; [| split].
  - now apply merge_composed_NoDup.
  - intros a. rewrite dkeys_merge_composed, Hkeys1, Hkeys, HkeysPA. split.
    + intros [[q [Hq Ha]] | [-> | Hpath]].
      * exists q. split; [apply in_or_app; now left | assumption].
      * exists p. split; [apply in_or_app; right; now left | now left].
      * exists p. split; [apply in_or_app; right; now left | now right].
    + intros [q [Hq Ha]]. apply in_app_or in Hq.
      destruct Hq as [Hq | [<- | []]]; [left; eauto |].
      destruct Ha as [-> | Hpath]; tauto.
  - intros a m. rewrite dget_merge_composed by assumption.
    destruct (dget PA a) as [x|] eqn:Hx.
    + pose proof (HvalsPA a x Hx) as Htx.
      pose proof (is_typing_snoc h a p g x t Hwf Htx Ht) as Htc.
      destruct (dget acc1 a) as [cur|] eqn:Hcur; intros Em;
        injection Em as <-; [| assumption].
      unfold acc1 in Hcur. destruct (dmem acc p).
      * rewrite dget_dupdate, Hx in Hcur by assumption.
        injection Hcur as <-.
        now apply (is_typing_update_stale h a p g x t).
      * rewrite dget_dset in Hcur. apply is_typing_update_same; auto.
        destruct (keqb_spec p a) as [-> | Hne].
        -- injection Hcur as <-. now apply is_typing_edge.
        -- now apply Hvals.
    + unfold acc1. destruct (dmem acc p).
      * rewrite dget_dupdate, Hx by assumption. apply Hvals.
      * rewrite dget_dset. destruct (keqb_spec p a) as [-> | Hne].
        -- intros Em. injection Em as <-. now apply is_typing_edge.
        -- apply Hvals.
Qed.

Lemma descendants_step_inv h g rec done acc s acc' :
  well_formed h ->
  (forall q desc, rec q = Ok desc -> descendants_spec h q desc) ->
  descendants_inv h g done acc ->
  descendants_step h g rec acc (g, s) = Ok acc' ->
  descendants_inv h g (done ++ [s]) acc'.
Proof.
  intros Hwf Hrec [Hnd [Hkeys Hvals]] E.
  unfold descendants_step in E. cbn [snd] in E.
  destruct (get_typing h g s) as [t|] eqn:Ht; cbn [bind] in E;
    [| discriminate].
  destruct (rec s) as [TD|] eqn:HTD; cbn [bind] in E; [| discriminate].
  injection E as <-.
  destruct (Hrec s TD HTD) as [HndTD [HkeysTD HvalsTD]].
  pose proof (is_typing_edge h g s t Hwf Ht) as Hts.
  set (acc1 := match dget acc s with
               | Some cur => dset acc s (dupdate cur t)
               | None => dset acc s t
               end).
  assert (Hnd1 : NoDup (dkeys acc1)).
  { unfold acc1. destruct (dget acc s); now apply dset_NoDup. }
  assert (Hkeys1 : forall d, In d (dkeys acc1) <-> d = s \/ In d (dkeys acc)).
  { intros d. unfold acc1. destruct (dget acc s); apply dkeys_dset. }
  assert (Hvals1 : forall d m, dget acc1 d = Some m -> is_typing h g d m).
  { intros d m. unfold acc1.
    destruct (dget acc s) as [cur|] eqn:Hcur; rewrite dget_dset;
      destruct (keqb_spec s d) as [-> | Hne]; try apply Hvals;
      intros Em; injection Em as <-; [| assumption].
    apply is_typing_update_same; auto. }
  split; [| split].
  - now apply merge_composed_NoDup.
  - intros d. rewrite dkeys_merge_composed, Hkeys1, Hkeys, HkeysTD. split.
    + intros [[-> | [q [Hq Hd]]] | Hpath].
      * exists s. split; [apply in_or_app; right; now left | now left].
      * exists q. split; [apply in_or_app; now left | assumption].
      * exists s. split; [apply in_or_app; right; now left | now right].
    + intros [q [Hq Hd]]. apply in_app_or in Hq.
      destruct Hq as [Hq | [<- | []]]; [left; right; eauto |].
      destruct Hd as [-> | Hpath]; tauto.
  - intros d m. rewrite dget_merge_composed by assumption.
    destruct (dget TD d) as [x|] eqn:Hx; [| apply Hvals1].
    pose proof (is_typing_cons h g s d x t Hwf (HvalsTD d x Hx) Ht) as Htc.
    destruct (dget acc1 d) as [cur|] eqn:Hcur; intros Em;
      injection Em as <-; [| assumption].
    apply is_typing_update_same; auto.
Qed.

Lemma ancestors_loop_inv h g rec :
  well_formed h ->
  (forall q anc, rec q = Ok anc -> ancestors_spec h q anc) ->
  forall l done acc acc',
    (forall e, In e l -> snd e = g) ->
    ancestors_inv h g done acc ->
    for_each l (ancestors_step h g rec) acc = Ok acc' ->
    ancestors_inv h g (done ++ map fst l) acc'.
Proof.
  intros Hwf Hrec. induction l as [|[p g'] l IH];
    intros done acc acc' Hl Hinv E.
  - simpl in *. injection E as <-. now rewrite app_nil_r.
  - cbn [for_each] in E.
    assert (g' = g) by (apply (Hl (p, g')); now left). subst g'.
    destruct (ancestors_step h g rec acc (p, g)) as [acc1|] eqn:E1;
      cbn [bind] in E; [| discriminate].
    cbn [map fst].
    replace (done ++ p :: map fst l) with ((done ++ [p]) ++ map fst l)
      by (now rewrite <- app_assoc).
    apply (IH (done ++ [p]) acc1 acc'); auto.
    + intros e He. apply Hl. now right.
    + now apply (ancestors_step_inv h g rec done acc p acc1).
Qed.

Lemma descendants_loop_inv h g rec :
  well_formed h ->
  (forall q desc, rec q = Ok desc -> descendants_spec h q desc) ->
  forall l done acc acc',
    (forall e, In e l -> fst e = g) ->
    descendants_inv h g done acc ->
    for_each l (descendants_step h g rec) acc = Ok acc' ->
    descendants_inv h g (done ++ map snd l) acc'.
Proof.
  intros Hwf Hrec. induction l as [|[g' s] l IH];
    intros done acc acc' Hl Hinv E.
  - simpl in *. injection E as <-. now rewrite app_nil_r.
  - cbn [for_each] in E.
    assert (g' = g) by (apply (Hl (g', s)); now left). subst g'.
    destruct (descendants_step h g rec acc (g, s)) as [acc1|] eqn:E1;
      cbn [bind] in E; [| discriminate].
    cbn [map snd].
    replace (done ++ s :: map snd l) with ((done ++ [s]) ++ map snd l)
      by (now rewrite <- app_assoc).
    apply (IH (done ++ [s]) acc1 acc'); auto.
    + intros e He. apply Hl. now right.
    + now apply (descendants_step_inv h g rec done acc s acc1).
Qed.

Lemma in_edges_In h g e :
  In e (in_edges h g) <-> In e (typings h) /\ snd e = g.
Proof.
  unfold in_edges. rewrite filter_In. now rewrite keqb_eq.
Qed.

Lemma out_edges_In h g e :
  In e (out_edges h g) <-> In e (typings h) /\ fst e = g.
Proof.
  unfold out_edges. rewrite filter_In. now rewrite keqb_eq.
Qed.

Lemma get_ancestors_correct h :
  well_formed h ->
  forall fuel g anc, get_ancestors fuel h g = Ok anc -> ancestors_spec h g anc.
Proof.
  intros Hwf. induction fuel as [|fuel IH]; intros g anc E; [discriminate |].
  cbn [get_ancestors] in E.
  apply (ancestors_loop_inv h g (get_ancestors fuel h) Hwf IH
           (in_edges h g) [] [] anc) in E.
  - destruct E as [Hnd [Hkeys Hvals]]. split; [assumption |].
    split; [| assumption].
    intros a. rewrite Hkeys, path_to_cases. cbn [app].
    split; intros [p [Hp Ha]]; exists p; split; auto.
    + apply in_map_iff in Hp. destruct Hp as [[p' g'] [<- Hin]].
      apply in_edges_In in Hin. destruct Hin as [Hin <-]. exact Hin.
    + apply in_map_iff. exists (p, g). split; [reflexivity |].
      apply in_edges_In. auto.
  - intros e He. now apply in_edges_In in He.
  - split; [constructor |]. split.
    + intros a. simpl. split; [tauto | intros [p [[] _]]].
    + intros a m. discriminate.
Qed.

Lemma get_descendants_correct h :
  well_formed h ->
  forall fuel g desc,
    get_descendants fuel h g = Ok desc -> descendants_spec h g desc.
Proof.
  intros Hwf. induction fuel as [|fuel IH]; intros g desc E; [discriminate |].
  cbn [get_descendants] in E.
  apply (descendants_loop_inv h g (get_descendants fuel h) Hwf IH
           (out_edges h g) [] [] desc) in E.
  - destruct E as [Hnd [Hkeys Hvals]]. split; [assumption |].
    split; [| assumption].
    intros d. rewrite Hkeys, path_from_cases. cbn [app].
    split; intros [s [Hs Hd]]; exists s; split; auto.
    + apply in_map_iff in Hs. destruct Hs as [[g' s'] [<- Hin]].
      apply out_edges_In in Hin. destruct Hin as [Hin <-]. exact Hin.
    + apply in_map_iff. exists (g, s). split; [reflexivity |].
      apply out_edges_In. auto.
  - intros e He. now apply out_edges_In in He.
  - split; [constructor |]. split.
    + intros a. simpl. split; [tauto | intros [p [[] _]]].
    + intros a m. discriminate.
Qed.

(** *** The recursion ends on a DAG *)

Lemma for_each_raise_inv {A S} (l : list A) (body : S -> A -> result S) :
  forall s e, for_each l body s = Raise e ->
              exists x s', In x l /\ body s' x = Raise e.
Proof.
  induction l as [|y r IH]; intros s e E; [discriminate |].
  cbn [for_each] in E. destruct (body s y) as [s1|e1] eqn:Hy; cbn [bind] in E.
  - destruct (IH s1 e E) as [x [s' [Hin Hx]]]. exists x, s'. split; auto.
    now right.
  - injection E as <-. exists y, s. split; [now left | assumption].
Qed.

Lemma is_path_app h l1 l2 :
  is_path h (l1 ++ l2) -> is_path h l1 /\ is_path h l2.
Proof.
  induction l1 as [|a r IH]; intros Hp; [simpl in *; tauto |].
  destruct r as [|b r'].
  - split; [exact I |]. destruct l2; [exact I |]. now destruct Hp.
  - destruct Hp as [Hab Hr]. destruct (IH Hr) as [H1 H2].
    split; [split |]; assumption.
Qed.

Lemma is_path_sources h mid g :
  is_path h (mid ++ [g]) ->
  forall x, In x mid -> In x (map fst (typings h)).
Proof.
  induction mid as [|a r IH]; intros Hp x Hx; [destruct Hx |].
  assert (Hshape : exists b rest, r ++ [g] = b :: rest)
    by (destruct r; simpl; eauto).
  destruct Hshape as [b [rest E]].
  change ((a :: r) ++ [g]) with (a :: (r ++ [g])) in Hp.
  destruct Hx as [<- | Hx].
  - rewrite E in Hp. destruct Hp as [Hab _].
    apply in_map_iff. now exists (a, b).
  - apply IH; [| assumption]. rewrite E in *. now destruct Hp.
Qed.

Lemma is_path_targets h g mid :
  is_path h (g :: mid) ->
  forall x, In x mid -> In x (map snd (typings h)).
Proof.
  revert g. induction mid as [|a r IH]; intros g Hp x Hx; [destruct Hx |].
  destruct Hp as [Hga Hr]. destruct Hx as [<- | Hx].
  - apply in_map_iff. now exists (g, a).
  - now apply (IH a).
Qed.

Lemma repeated_element (l : list gid) :
  ~ NoDup l -> exists x l1 l2 l3, l = l1 ++ x :: l2 ++ x :: l3.
Proof.
  induction l as [|a r IH]; intros Hnd; [destruct Hnd; constructor |].
  destruct (in_dec string_dec a r) as [Hin | Hnot].
  - apply in_split in Hin. destruct Hin as [l2 [l3 ->]].
    now exists a, [], l2, l3.
  - destruct IH as [x [l1 [l2 [l3 ->]]]].
    + intros Hr. apply Hnd. now constructor.
    + now exists x, (a :: l1), l2, l3.
Qed.

(** More graphs in a row than there are typing edges: one occurs twice. *)
Lemma long_list_repeats (l pool : list gid) :
  (forall x, In x l -> In x pool) -> List.length pool < List.length l ->
  exists x l1 l2 l3, l = l1 ++ x :: l2 ++ x :: l3.
Proof.
  intros Hincl Hlen. apply repeated_element. intros Hnd.
  pose proof (NoDup_incl_length Hnd Hincl). lia.
Qed.

Lemma get_ancestors_raises h :
  forall fuel g e,
    get_ancestors fuel h g = Raise e ->
    exists mid, List.length mid = fuel /\ is_path h (mid ++ [g]).
Proof.
  induction fuel as [|fuel IH]; intros g e E.
  - exists []. split; [reflexivity | exact I].
  - cbn [get_ancestors] in E. apply for_each_raise_inv in E.
    destruct E as [[p g'] [acc [Hin E]]].
    apply in_edges_In in Hin. cbn [snd] in Hin. destruct Hin as [Hin ->].
    unfold ancestors_step in E. cbn [fst] in E.
    destruct (get_typing_In h p g Hin) as [t Ht]. rewrite Ht in E.
    cbn [bind] in E.
    destruct (get_ancestors fuel h p) as [PA|e'] eqn:HPA; cbn [bind] in E;
      [discriminate |].
    destruct (IH p e' HPA) as [mid [Hlen Hpath]].
    exists (mid ++ [p]). split.
    + rewrite length_app. simpl. lia.
    + now apply is_path_snoc.
Qed.

Lemma get_descendants_raises h :
  forall fuel g e,
    get_descendants fuel h g = Raise e ->
    exists mid, List.length mid = fuel /\ is_path h (g :: mid).
Proof.
  induction fuel as [|fuel IH]; intros g e E.
  - exists []. split; [reflexivity | exact I].
  - cbn [get_descendants] in E. apply for_each_raise_inv in E.
    destruct E as [[g' s] [acc [Hin E]]].
    apply out_edges_In in Hin. cbn [fst] in Hin. destruct Hin as [Hin ->].
    unfold descendants_step in E. cbn [snd] in E.
    destruct (get_typing_In h g s Hin) as [t Ht]. rewrite Ht in E.
    cbn [bind] in E.
    destruct (get_descendants fuel h s) as [TD|e'] eqn:HTD; cbn [bind] in E;
      [discriminate |].
    destruct (IH s e' HTD) as [mid [Hlen Hpath]].
    exists (s :: mid). split; [simpl; lia |].
    split; assumption.
Qed.

Lemma get_ancestors_terminates h fuel g :
  well_formed h -> List.length (typings h) < fuel ->
  exists anc, get_ancestors fuel h g = Ok anc.
Proof.
  intros Hwf Hfuel.
  destruct (get_ancestors fuel h g) as [anc|e] eqn:E; [eauto |]. exfalso.
  destruct (get_ancestors_raises h fuel g e E) as [mid [Hlen Hpath]].
  destruct (long_list_repeats mid (map fst (typings h)))
    as [x [l1 [l2 [l3 ->]]]].
  - exact (is_path_sources h mid g Hpath).
  - rewrite length_map. lia.
  - rewrite <- app_assoc in Hpath. apply is_path_app in Hpath.
    destruct Hpath as [_ Hpath].
    change ((x :: l2 ++ x :: l3) ++ [g])
      with (x :: ((l2 ++ x :: l3) ++ [g])) in Hpath.
    rewrite <- app_assoc in Hpath.
    change (x :: l2 ++ (x :: l3) ++ [g])
      with ((x :: l2) ++ [x] ++ (l3 ++ [g])) in Hpath.
    rewrite app_assoc in Hpath. apply is_path_app in Hpath.
    destruct Hpath as [Hcycle _].
    exact (wf_acyclic Hwf x l2 Hcycle).
Qed.

Lemma get_descendants_terminates h fuel g :
  well_formed h -> List.length (typings h) < fuel ->
  exists desc, get_descendants fuel h g = Ok desc.
Proof.
  intros Hwf Hfuel.
  destruct (get_descendants fuel h g) as [desc|e] eqn:E; [eauto |]. exfalso.
  destruct (get_descendants_raises h fuel g e E) as [mid [Hlen Hpath]].
  destruct (long_list_repeats mid (map snd (typings h)))
    as [x [l1 [l2 [l3 ->]]]].
  - exact (is_path_targets h g mid Hpath).
  - rewrite length_map. lia.
  - change (g :: l1 ++ x :: l2 ++ x :: l3)
      with ((g :: l1) ++ ((x :: l2) ++ [x] ++ l3)) in Hpath.
    apply is_path_app in Hpath. destruct Hpath as [_ Hpath].
    rewrite app_assoc in Hpath. apply is_path_app in Hpath.
    destruct Hpath as [Hcycle _].
    exact (wf_acyclic Hwf x l2 Hcycle).
Qed.

(** The value stored for a graph is the composition along every path. *)
Lemma is_typing_every_path h a g m path :
  well_formed h -> is_typing h a g m -> path_from_to h a g path ->
  exists m', compose_path_typing h path = Ok m' /\ map_equiv m m'.
Proof.
  intros Hwf Hm Hpath.
  destruct (compose_path_ok Hpath) as [m' Hm'].
  exists m'. split; [assumption |].
  apply (is_typing_equiv h a g m m' Hwf Hm).
  split; [apply (compose_path_between h a g path m' Hwf Hpath Hm') |].
  exists path, m'. split; [assumption |]. split; [assumption |].
  intros n. reflexivity.
Qed.

(** C8: in a hierarchy that satisfies the invariants (in particular the
    typing edges form a DAG and paths commute), [get_ancestors g] returns a
    dictionary whose keys are exactly the graphs with a path of typing edges
    to [g], and the value of a key is, as a map, the composition of the
    typings along every such path; symmetrically [get_descendants g] returns
    the graphs with a path from [g], with the composed typings out of [g].
    The recursion needs no more depth than the number of typing edges. *)
Theorem ancestors_descendants_compose_paths :
  forall h g fuel,
    well_formed h -> List.length (typings h) < fuel ->
    (exists anc,
        get_ancestors fuel h g = Ok anc
        /\ NoDup (dkeys anc)
        /\ (forall a, In a (dkeys anc)
                      <-> exists path, path_from_to h a g path)
        /\ (forall a path, path_from_to h a g path ->
              exists m m', dget anc a = Some m
                           /\ compose_path_typing h path = Ok m'
                           /\ NoDup (dkeys m) /\ map_equiv m m'))
    /\ (exists desc,
           get_descendants fuel h g = Ok desc
           /\ NoDup (dkeys desc)
           /\ (forall d, In d (dkeys desc)
                         <-> exists path, path_from_to h g d path)
           /\ (forall d path, path_from_to h g d path ->
                 exists m m', dget desc d = Some m
                              /\ compose_path_typing h path = Ok m'
                              /\ NoDup (dkeys m) /\ map_equiv m m')).
Proof.
  intros h g fuel Hwf Hfuel. split.
  - destruct (get_ancestors_terminates h fuel g Hwf Hfuel) as [anc E].
    exists anc. split; [assumption |].
    destruct (get_ancestors_correct h Hwf fuel g anc E)
      as [Hnd [Hkeys Hvals]].
    split; [assumption |]. split; [assumption |].
    intros a path Hpath.
    assert (Hin : In a (dkeys anc)) by (apply Hkeys; eauto).
    destruct (dget anc a) as [m|] eqn:Hm;
      [| apply dget_None_keys in Hm; contradiction].
    pose proof (Hvals a m Hm) as Htyp.
    destruct (is_typing_every_path h a g m path Hwf Htyp Hpath)
      as [m' [Hc He]].
    exists m, m'. split; [reflexivity |]. split; [assumption |].
    split; [apply Htyp | assumption].
  - destruct (get_descendants_terminates h fuel g Hwf Hfuel) as [desc E].
    exists desc. split; [assumption |].
    destruct (get_descendants_correct h Hwf fuel g desc E)
      as [Hnd [Hkeys Hvals]].
    split; [assumption |]. split; [assumption |].
    intros d path Hpath.
    assert (Hin : In d (dkeys desc)) by (apply Hkeys; eauto).
    destruct (dget desc d) as [m|] eqn:Hm;
      [| apply dget_None_keys in Hm; contradiction].
    pose proof (Hvals d m Hm) as Htyp.
    destruct (is_typing_every_path h g d m path Hwf Htyp Hpath)
      as [m' [Hc He]].
    exists m, m'. split; [reflexivity |]. split; [assumption |].
    split; [apply Htyp | assumption].
Qed.

Lemma ancestors_descendants_compose_paths_witness :
  (exists anc,
      get_ancestors 2 typed_hierarchy "B" = Ok anc
      /\ NoDup (dkeys anc)
      /\ (forall a, In a (dkeys anc)
                    <-> exists path, path_from_to typed_hierarchy a "B" path)
      /\ (forall a path, path_from_to typed_hierarchy a "B" path ->
            exists m m', dget anc a = Some m
                         /\ compose_path_typing typed_hierarchy path = Ok m'
                         /\ NoDup (dkeys m) /\ map_equiv m m'))
  /\ (exists desc,
         get_descendants 2 typed_hierarchy "B" = Ok desc
         /\ NoDup (dkeys desc)
         /\ (forall d, In d (dkeys desc)
                       <-> exists path, path_from_to typed_hierarchy "B" d path)
         /\ (forall d path, path_from_to typed_hierarchy "B" d path ->
               exists m m', dget desc d = Some m
                            /\ compose_path_typing typed_hierarchy path = Ok m'
                            /\ NoDup (dkeys m) /\ map_equiv m m')).
Proof.
  apply (ancestors_descendants_compose_paths
           typed_hierarchy "B" 2 typed_hierarchy_well_formed).
  simpl. lia.
Defined.

(** ** The rule hierarchy of a rewrite *)


Section RulePropagationsFacts.
Variable pullback :
  Graph -> Graph -> Graph -> pyobj -> pyobj -> result (Graph * mapping * mapping).
Variable image_factorization :
  Graph -> Graph -> mapping -> result (Graph * mapping * mapping).
Variable pushout :
  Graph -> Graph -> Graph -> mapping -> mapping
  -> result (Graph * mapping * mapping).
Variable compose_obj : pyobj -> pyobj -> result mapping.
Variable new_rule :
  option Graph -> option Graph -> option Graph -> option mapping
  -> option mapping -> Rule.
Variable generate_new_node_id : Graph -> node -> node.
Variable rule_getitem : Rule -> string -> result Rule.




(** C6 (fails on the code): with the typing edge [A -> B], the identity rule
    on the node of the origin and the default instance and control relations,
    Stage 0 accepts the arguments and the origin has an ancestor
    (resp. a descendant), yet [get_rule_propagations] raises [ValueError]
    where the rule hierarchy with the lifted (resp. projected) rule is
    expected: the loops run over the keys of [ancestors], [descendants] and
    [rule_hierarchy["rules"]] and unpack each graph id into two variables.
    The same happens in a hierarchy with one graph, where the result should
    hold the rule of the origin alone. *)
Theorem get_rule_propagations_raises_value_error :
  (_check_rule_instance_typing 5 typed_hierarchy "B" (keep_rule "b")
                               None None None false
   = Ok ([("b", "b")], [], [])
   /\ get_ancestors 5 typed_hierarchy "B" = Ok [("A", [("a", "b")])]
   /\ get_rule_propagations pullback image_factorization pushout compose_obj
                            new_rule generate_new_node_id rule_getitem
                            5 typed_hierarchy "B" (keep_rule "b")
                            None None None
      = Raise ValueError)
  /\ (_check_rule_instance_typing 5 typed_hierarchy "A" (keep_rule "a")
                                  None None None false
      = Ok ([("a", "a")], [], [])
      /\ get_descendants 5 typed_hierarchy "A" = Ok [("B", [("a", "b")])]
      /\ get_rule_propagations pullback image_factorization pushout
                               compose_obj new_rule generate_new_node_id
                               rule_getitem
                               5 typed_hierarchy "A" (keep_rule "a")
                               None None None
         = Raise ValueError)
  /\ (_check_rule_instance_typing 5 single_hierarchy "A" (keep_rule "a")
                                  None None None false
      = Ok ([("a", "a")], [], [])
      /\ get_ancestors 5 single_hierarchy "A" = Ok []
      /\ get_descendants 5 single_hierarchy "A" = Ok []
      /\ get_rule_propagations pullback image_factorization pushout
                               compose_obj new_rule generate_new_node_id
                               rule_getitem
                               5 single_hierarchy "A" (keep_rule "a")
                               None None None
         = Raise ValueError).
Proof.
  repeat split; reflexivity.
Qed.
End RulePropagationsFacts.

(** * Further properties of the code *)

(** ** Equality of hierarchies is a preorder *)

Lemma graphs_data_In h n a :
  In (n, a) (graphs_data h) <-> exists g, In (n, (g, a)) (h_graphs h).
Proof.
  unfold graphs_data. rewrite in_map_iff. split.
  - intros [[n' [g a']] [E Hin]]. simpl in E. inversion E; subst. eauto.
  - intros [g Hin]. exists (n, (g, a)). auto.
Qed.

Lemma typings_data_In h s t a :
  In (s, t, a) (typings_data h) <-> exists m, In ((s, t), (m, a)) (h_typings h).
Proof.
  unfold typings_data. rewrite in_map_iff. split.
  - intros [[st [m a']] [E Hin]]. simpl in E. inversion E; subst. eauto.
  - intros [m Hin]. exists ((s, t), (m, a)). auto.
Qed.

Lemma relations_data_In h n1 n2 a :
  In (n1, n2, a) (relations_data h)
  <-> exists r, In ((n1, n2), (r, a)) (h_relations h)
                \/ In ((n2, n1), (r, a)) (h_relations h).
Proof.
  unfold relations_data. rewrite in_flat_map. split.
  - intros [[[u v] [r a']] [Hin [E | [E | []]]]]; simpl in E;
      inversion E; subst; eauto.
  - intros [r [Hin | Hin]].
    + exists ((n1, n2), (r, a)). split; [assumption | now left].
    + exists ((n2, n1), (r, a)). split; [assumption | right; now left].
Qed.

Lemma get_relation_attrs_In h n1 n2 a :
  get_relation_attrs h n1 n2 = Ok a -> In (n1, n2, a) (relations_data h).
Proof.
  unfold get_relation_attrs. intros E. apply relations_data_In.
  destruct (dget (h_relations h) (n1, n2)) as [[r a']|] eqn:E1.
  - inversion E; subst. exists r. left. now apply dget_Some_In.
  - destruct (dget (h_relations h) (n2, n1)) as [[r a']|] eqn:E2;
      [| discriminate].
    inversion E; subst. exists r. right. now apply dget_Some_In.
Qed.

(** [__eq__] is transitive: what [h1 == h2] and [h2 == h3] establish gives
    [h1 == h3], whatever the three hierarchies hold besides. *)
Theorem hierarchy_eq_trans :
  forall h1 h2 h3,
    hierarchy_eq h1 h2 = true -> hierarchy_eq h2 h3 = true ->
    hierarchy_eq h1 h3 = true.
Proof.
  intros h1 h2 h3 H12 H23. apply hierarchy_eq_iff.
  apply hierarchy_eq_iff in H12. apply hierarchy_eq_iff in H23.
  destruct H12 as [Hg [Ht Hr]]. destruct H23 as [Hg' [Ht' Hr']].
  split; [| split].
  - intros n a Hin. destruct (Hg n a Hin) as [_ Ha]. apply Hg'.
    unfold get_graph_attrs in Ha.
    destruct (dget (h_graphs h2) n) as [[g a']|] eqn:E; [| discriminate].
    inversion Ha; subst. apply graphs_data_In. exists g.
    now apply dget_Some_In.
  - intros s t a Hin. destruct (Ht s t a Hin) as [_ Ha]. apply Ht'.
    unfold get_typing_attrs in Ha.
    destruct (dget (h_typings h2) (s, t)) as [[m a']|] eqn:E; [| discriminate].
    inversion Ha; subst. apply typings_data_In. exists m.
    now apply dget_Some_In.
  - intros n1 n2 a Hin. destruct (Hr n1 n2 a Hin) as [_ Ha]. apply Hr'.
    now apply get_relation_attrs_In.
Qed.

Lemma hierarchy_eq_trans_witness :
  hierarchy_eq single_hierarchy typed_hierarchy = true
  /\ hierarchy_eq typed_hierarchy typed_hierarchy = true
  /\ hierarchy_eq single_hierarchy typed_hierarchy = true.
Proof.
  split; [reflexivity |]. split; [reflexivity |].
  apply (hierarchy_eq_trans single_hierarchy typed_hierarchy typed_hierarchy);
    reflexivity.
Defined.

(** A hierarchy that satisfies the invariants of the data model is equal
    to itself, and [!=], the negation of [==], is then false on it. *)
Theorem hierarchy_ne_irreflexive :
  forall h, well_formed h ->
            hierarchy_eq h h = true /\ hierarchy_ne h h = false.
Proof.
  intros h Hwf. unfold hierarchy_ne.
  rewrite (hierarchy_eq_refl Hwf). split; reflexivity.
Qed.

Lemma hierarchy_ne_irreflexive_witness :
  hierarchy_eq typed_hierarchy typed_hierarchy = true
  /\ hierarchy_ne typed_hierarchy typed_hierarchy = false.
Proof.
  apply (hierarchy_ne_irreflexive typed_hierarchy typed_hierarchy_well_formed).
Defined.

(** ** The immediate types of a node *)

Lemma node_type_loop h g n :
  forall l acc,
    (forall s, In s l -> In (g, s) (typings h)) ->
    exists types,
      for_each l (node_type_step h g n) acc = Ok types
      /\ forall s v,
          dget types s = Some v
          <-> (In s l /\ exists m, get_typing h g s = Ok m /\ dget m n = Some v)
              \/ ((~ In s l
                   \/ exists m, get_typing h g s = Ok m /\ dget m n = None)
                  /\ dget acc s = Some v).
Proof.
  induction l as [|x r IH]; intros acc Hl.
  - exists acc. split; [reflexivity |]. intros s v. simpl. split.
    + intros E. right. split; [left; tauto | assumption].
    + intros [[[] _] | [_ E]]. assumption.
  - cbn [for_each]. unfold node_type_step at 1.
    destruct (get_typing_In h g x (Hl x (or_introl eq_refl))) as [m Hm].
    rewrite Hm. cbn [bind].
    assert (Hr : forall s, In s r -> In (g, s) (typings h))
      by (intros s Hs; apply Hl; now right).
    destruct (dget m n) as [v0|] eqn:Hv0; cbn [bind].
    + destruct (IH (dset acc x v0) Hr) as [types [E Hspec]].
      exists types. split; [assumption |]. intros s v. rewrite Hspec.
      rewrite dget_dset. cbn [In]. destruct (keqb_spec x s) as [-> | Hne].
      * split.
        -- intros [[Hs Hex] | [_ Ev]]; [left; split; [now right | assumption] |].
           left. split; [now left |]. exists m. split; [assumption |].
           congruence.
        -- intros [[_ [m' [Hm' Hv]]] | [[Hnot | [m' [Hm' Hv]]] _]].
           ++ destruct (in_dec string_dec s r) as [Hsr | Hsr].
              ** left. split; [assumption |]. eauto.
              ** right. split; [now left |]. congruence.
           ++ exfalso. apply Hnot. now left.
           ++ congruence.
      * split.
        -- intros [[Hs Hex] | [[Hnot | Hex] Ev]].
           ++ left. split; [now right | assumption].
           ++ right. split; [| assumption]. left. intros [E0 | Hs]; auto.
           ++ right. split; [now right | assumption].
        -- intros [[[E0 | Hs] Hex] | [[Hnot | Hex] Ev]].
           ++ contradiction.
           ++ left. split; assumption.
           ++ right. split; [| assumption]. left. tauto.
           ++ right. split; [now right | assumption].
    + destruct (IH acc Hr) as [types [E Hspec]].
      exists types. split; [assumption |]. intros s v. rewrite Hspec.
      cbn [In]. split.
      * intros [[Hs Hex] | [[Hnot | Hex] Ev]].
        -- left. split; [now right | assumption].
        -- destruct (keqb_spec x s) as [-> | Hne].
           ++ right. split; [| assumption]. right. eauto.
           ++ right. split; [| assumption]. left. intros [E0 | Hs]; auto.
        -- right. split; [now right | assumption].
      * intros [[[E0 | Hs] Hex] | [[Hnot | Hex] Ev]].
        -- subst x. destruct Hex as [m' [Hm' Hv]]. congruence.
        -- left. split; assumption.
        -- right. split; [| assumption]. left. tauto.
        -- right. split; [now right | assumption].
Qed.

(** [node_type] raises [HierarchyError] for a graph that is not in the
    hierarchy and for a node that is not in the graph, and nothing else makes
    it fail: otherwise it returns a dictionary that has exactly one entry for
    each successor whose typing is defined on the node, the image of the node
    under that typing. *)
Theorem node_type_spec :
  forall h graph_id node_id,
    (~ In graph_id (graphs h) ->
     node_type h graph_id node_id = Raise HierarchyError)
    /\ (forall g, get_graph h graph_id = Ok g -> ~ In node_id (nodes g) ->
                  node_type h graph_id node_id = Raise HierarchyError)
    /\ (forall g, get_graph h graph_id = Ok g -> In node_id (nodes g) ->
          exists types,
            node_type h graph_id node_id = Ok types
            /\ forall s v,
                dget types s = Some v
                <-> In s (successors h graph_id)
                    /\ exists m, get_typing h graph_id s = Ok m
                                 /\ dget m node_id = Some v).
Proof.
  intros h g n. unfold node_type. split; [| split].
  - intros Hnot. apply inb_not_In in Hnot. now rewrite Hnot.
  - intros gr Hg Hn.
    assert (Hin : inb g (graphs h) = true).
    { apply inb_In. unfold get_graph in Hg.
      destruct (dget (h_graphs h) g) eqn:E; [| discriminate].
      eapply dget_Some_keys; eauto. }
    rewrite Hin, Hg. cbn [negb bind]. apply inb_not_In in Hn. now rewrite Hn.
  - intros gr Hg Hn.
    assert (Hin : inb g (graphs h) = true).
    { apply inb_In. unfold get_graph in Hg.
      destruct (dget (h_graphs h) g) eqn:E; [| discriminate].
      eapply dget_Some_keys; eauto. }
    rewrite Hin, Hg. cbn [negb bind]. apply inb_In in Hn. rewrite Hn.
    cbn [negb].
    destruct (node_type_loop h g n (successors h g) [])
      as [types [E Hspec]].
    + intros s Hs. now apply successors_In.
    + exists types. split; [assumption |]. intros s v. rewrite Hspec.
      split; [| tauto]. intros [H | [_ H]]; [assumption | discriminate].
Qed.

Lemma node_type_spec_witness :
  exists types,
    node_type typed_hierarchy "A" "a" = Ok types
    /\ forall s v,
        dget types s = Some v
        <-> In s (successors typed_hierarchy "A")
            /\ exists m, get_typing typed_hierarchy "A" s = Ok m
                         /\ dget m "a" = Some v.
Proof.
  apply (proj2 (proj2 (node_type_spec typed_hierarchy "A" "a"))
               (plain_graph ["a"]) eq_refl).
  simpl. auto.
Defined.

(** [node_type] and [get_descendants] agree: in a hierarchy that satisfies
    the invariants, the type that [node_type] gives a node in a successor is
    its image under the map that [get_descendants] holds for that
    successor. *)
Theorem node_type_agrees_with_descendants :
  forall h fuel graph_id node_id types desc s v,
    well_formed h ->
    node_type h graph_id node_id = Ok types ->
    get_descendants fuel h graph_id = Ok desc ->
    dget types s = Some v ->
    exists m, dget desc s = Some m /\ dget m node_id = Some v.
Proof.
  intros h fuel g n types desc s v Hwf Hnt Hdesc Hv.
  assert (Hg : exists gr, get_graph h g = Ok gr /\ In n (nodes gr)).
  { unfold node_type in Hnt.
    destruct (negb (inb g (graphs h))); [discriminate |].
    destruct (get_graph h g) as [gr|]; cbn [bind] in Hnt; [| discriminate].
    destruct (inb n (nodes gr)) eqn:Hn; [| discriminate].
    exists gr. split; [reflexivity | now apply inb_In]. }
  destruct Hg as [gr [Hg Hn]].
  destruct (proj2 (proj2 (node_type_spec h g n)) gr Hg Hn)
    as [types' [Hnt' Hspec]].
  rewrite Hnt in Hnt'. injection Hnt' as <-.
  apply Hspec in Hv. destruct Hv as [Hs [t [Ht Hv]]].
  destruct (get_descendants_correct h Hwf fuel g desc Hdesc)
    as [_ [Hkeys Hvals]].
  assert (Hin : In s (dkeys desc)).
  { apply Hkeys. exists [g; s]. split; [now exists [] |].
    simpl. split; [now apply successors_In | exact I]. }
  destruct (dget desc s) as [m|] eqn:Hm;
    [| apply dget_None_keys in Hm; contradiction].
  exists m. split; [reflexivity |].
  rewrite (is_typing_equiv h g s m t Hwf (Hvals s m Hm)
                           (is_typing_edge h g s t Hwf Ht) n).
  assumption.
Qed.

(** ** Fresh graph ids *)

Lemma append_cancel_l (p a b : string) : (p ++ a = p ++ b)%string -> a = b.
Proof.
  induction p as [|c p IH]; simpl; intros E; [assumption |].
  inversion E. auto.
Qed.

Lemma format_id_inj prefix i j :
  format_id prefix i = format_id prefix j -> i = j.
Proof.
  unfold format_id. intros E.
  apply append_cancel_l in E. apply append_cancel_l in E.
  assert (Eu : Nat.to_uint i = Nat.to_uint j).
  { pose proof (DecimalString.NilEmpty.usu (Nat.to_uint i)) as Hi.
    pose proof (DecimalString.NilEmpty.usu (Nat.to_uint j)) as Hj.
    rewrite E in Hi. rewrite Hi in Hj. now inversion Hj. }
  rewrite <- (DecimalNat.Unsigned.of_to i), <- (DecimalNat.Unsigned.of_to j).
  now rewrite Eu.
Qed.

Lemma format_id_NoDup prefix (l : list nat) :
  NoDup l -> NoDup (map (format_id prefix) l).
Proof.
  induction l as [|i r IH]; intros Hnd; [constructor |].
  inversion Hnd as [|? ? Hnot Hr]; subst. simpl. constructor; [| auto].
  intros Hin. apply in_map_iff in Hin. destruct Hin as [j [E Hj]].
  apply format_id_inj in E. now subst.
Qed.

Lemma unique_graph_id_loop_some h prefix :
  forall fuel i id,
    (forall j, j < i -> In (format_id prefix j) (graphs h)) ->
    unique_graph_id_loop fuel h prefix i = Some id ->
    exists k, id = format_id prefix k
              /\ ~ In id (graphs h)
              /\ forall j, j < k -> In (format_id prefix j) (graphs h).
Proof.
  induction fuel as [|fuel IH]; intros i id Hbelow E; [discriminate |].
  cbn [unique_graph_id_loop] in E.
  destruct (inb (format_id prefix i) (graphs h)) eqn:Hi.
  - apply (IH (S i) id); [| assumption].
    intros j Hj. apply inb_In in Hi.
    destruct (Nat.eq_dec j i) as [-> | Hne]; [assumption |].
    apply Hbelow. lia.
  - inversion E; subst. exists i. split; [reflexivity |].
    split; [now apply inb_not_In | assumption].
Qed.

Lemma unique_graph_id_loop_none h prefix :
  forall fuel i,
    unique_graph_id_loop fuel h prefix i = None ->
    forall j, i <= j < i + fuel -> In (format_id prefix j) (graphs h).
Proof.
  induction fuel as [|fuel IH]; intros i E j Hj; [lia |].
  cbn [unique_graph_id_loop] in E.
  destruct (inb (format_id prefix i) (graphs h)) eqn:Hi; [| discriminate].
  destruct (Nat.eq_dec j i) as [-> | Hne]; [now apply inb_In |].
  apply (IH (S i) E). lia.
Qed.

(** [unique_graph_id] always returns, after at most one turn of its loop for
    each graph of the hierarchy and one more; the id it returns names no
    graph, and it is the prefix itself when the prefix is free, otherwise
    [prefix_k] for the least [k] that is free. *)
Theorem unique_graph_id_fresh :
  forall h prefix,
    exists id,
      unique_graph_id (S (List.length (graphs h))) h prefix = Some id
      /\ ~ In id (graphs h)
      /\ ((id = prefix /\ ~ In prefix (graphs h))
          \/ (In prefix (graphs h)
              /\ exists k, id = format_id prefix k
                           /\ forall j, j < k ->
                                        In (format_id prefix j) (graphs h))).
Proof.
  intros h prefix. unfold unique_graph_id.
  destruct (inb prefix (graphs h)) eqn:Hp; cbn [negb].
  - apply inb_In in Hp.
    destruct (unique_graph_id_loop (S (List.length (graphs h))) h prefix 0)
      as [id|] eqn:E.
    + destruct (unique_graph_id_loop_some h prefix
                  (S (List.length (graphs h))) 0 id) as [k [-> [Hf Hb]]];
        [intros j Hj; lia | assumption |].
      exists (format_id prefix k). split; [reflexivity |].
      split; [assumption |]. right. split; [assumption |]. eauto.
    + exfalso.
      pose proof (unique_graph_id_loop_none
                    h prefix (S (List.length (graphs h))) 0 E) as Hall.
      assert (Hnd : NoDup (map (format_id prefix)
                               (seq 0 (S (List.length (graphs h)))))).
      { apply format_id_NoDup, seq_NoDup. }
      assert (Hincl : incl (map (format_id prefix)
                                (seq 0 (S (List.length (graphs h)))))
                           (graphs h)).
      { intros x Hx. apply in_map_iff in Hx. destruct Hx as [j [<- Hj]].
        apply in_seq in Hj. apply Hall. lia. }
      pose proof (NoDup_incl_length Hnd Hincl) as Hlen.
      rewrite length_map, length_seq in Hlen.
      exact (Nat.nle_succ_diag_l _ Hlen).
  - apply inb_not_In in Hp. exists prefix. split; [reflexivity |].
    split; [assumption |]. left. split; [reflexivity | assumption].
Qed.

Lemma node_type_agrees_with_descendants_witness :
  exists m, dget [("B", [("a", "b")])] "B" = Some m /\ dget m "a" = Some "b".
Proof.
  apply (node_type_agrees_with_descendants
           typed_hierarchy 3 "A" "a" [("B", "b")] [("B", [("a", "b")])]
           "B" "b" typed_hierarchy_well_formed);
    reflexivity.
Defined.

(** ** What the breadth-first enumeration lists *)

(** [x] is reached from [g] along typing edges, followed backwards when
    [reverse] is set. *)
Definition connected (h : Hierarchy) (reverse : bool) (g x : gid) : Prop :=
  if reverse then exists path, path_from_to h x g path
  else exists path, path_from_to h g x path.

Lemma connected_neighbour h reverse g x :
  In x (neighbours h reverse g) -> connected h reverse g x.
Proof.
  unfold neighbours, connected. destruct reverse; intros Hin.
  - apply predecessors_In in Hin. exists [x; g].
    split; [now exists [] |]. simpl. auto.
  - apply successors_In in Hin. exists [g; x].
    split; [now exists [] |]. simpl. auto.
Qed.

Lemma connected_step h reverse g x y :
  connected h reverse g x -> In y (neighbours h reverse x) ->
  connected h reverse g y.
Proof.
  unfold neighbours, connected. destruct reverse; intros Hx Hy.
  - apply predecessors_In in Hy. apply path_from_cases.
    exists x. split; [assumption | now right].
  - apply successors_In in Hy. apply path_to_cases.
    exists x. split; [assumption | now right].
Qed.

(** A set of graphs that holds [g] and the neighbours of its members holds
    every graph connected to [g]. *)
Lemma connected_closed h reverse g (res : list gid) :
  In g res ->
  (forall x y, In x res -> In y (neighbours h reverse x) -> In y res) ->
  forall x, connected h reverse g x -> In x res.
Proof.
  intros Hg Hclosed x Hx. unfold connected in Hx. destruct reverse.
  - destruct Hx as [path [[mid ->] Hpath]].
    revert x Hpath. induction mid as [|a mid IH]; intros x Hpath.
    + simpl in Hpath. destruct Hpath as [Hin _].
      apply (Hclosed g x Hg). now apply predecessors_In.
    + simpl in Hpath. destruct Hpath as [Hin Hrest].
      apply (Hclosed a x); [now apply IH |]. now apply predecessors_In.
  - destruct Hx as [path [[mid ->] Hpath]].
    revert g Hg Hpath. induction mid as [|a mid IH]; intros g Hg Hpath.
    + simpl in Hpath. destruct Hpath as [Hin _].
      apply (Hclosed g x Hg). now apply successors_In.
    + simpl in Hpath. destruct Hpath as [Hin Hrest].
      apply (IH a); [| assumption].
      apply (Hclosed g a Hg). now apply successors_In.
Qed.

Lemma bfs_loop_members h reverse g :
  forall fuel res cur l,
    (exists r, res = g :: r) ->
    (forall x, In x res -> x = g \/ connected h reverse g x) ->
    (forall x, In x cur -> In x res) ->
    (forall x, In x res ->
               In x cur \/ forall y, In y (neighbours h reverse x) -> In y res) ->
    bfs_loop fuel h reverse res cur = Some l ->
    (exists r, l = g :: r)
    /\ forall x, In x l <-> x = g \/ connected h reverse g x.
Proof.
  induction fuel as [|fuel IH]; intros res cur l Hhd Hsound Hcur Hfront E.
  - destruct cur as [|c cur']; [| discriminate]. simpl in E.
    injection E as <-. split; [assumption |]. intros x. split; [auto |].
    intros [-> | Hx].
    + destruct Hhd as [r ->]. now left.
    + apply (connected_closed h reverse g res); [| | assumption].
      * destruct Hhd as [r ->]. now left.
      * intros a y Ha Hy. destruct (Hfront a Ha) as [[] | Hall]. auto.
  - destruct cur as [|c cur'].
    + simpl in E. injection E as <-. split; [assumption |].
      intros x. split; [auto |]. intros [-> | Hx].
      * destruct Hhd as [r ->]. now left.
      * apply (connected_closed h reverse g res); [| | assumption].
        -- destruct Hhd as [r ->]. now left.
        -- intros a y Ha Hy. destruct (Hfront a Ha) as [[] | Hall]. auto.
    + cbn [bfs_loop] in E. cbv zeta in E.
      set (next := bfs_next_level h reverse res (c :: cur')) in *.
      assert (Hnext : forall y, In y next <->
                 exists x, In x (c :: cur')
                           /\ In y (neighbours h reverse x) /\ ~ In y res).
      { intros y. unfold next, bfs_next_level. rewrite in_flat_map.
        split; intros [x [Hx Hy]]; exists x; split; try assumption.
        - apply filter_In in Hy. destruct Hy as [Hy Hn].
          apply negb_true_iff, inb_not_In in Hn. auto.
        - apply filter_In. destruct Hy as [Hy Hn]. split; [assumption |].
          apply negb_true_iff, inb_not_In. assumption. }
      apply (IH (res ++ next) next l); try assumption.
      * destruct Hhd as [r ->]. exists (r ++ next). reflexivity.
      * intros x Hx. apply in_app_or in Hx. destruct Hx as [Hx | Hx]; [auto |].
        apply Hnext in Hx. destruct Hx as [a [Ha [Hx _]]]. right.
        destruct (Hsound a (Hcur a Ha)) as [-> | Hca].
        -- now apply connected_neighbour.
        -- now apply (connected_step h reverse g a x).
      * intros x Hx. apply in_or_app. now right.
      * intros x Hx. apply in_app_or in Hx. destruct Hx as [Hx | Hx]; [| now left].
        right. intros y Hy.
        destruct (in_dec string_dec y res) as [Hyr | Hyr];
          [apply in_or_app; now left |].
        apply in_or_app.
        destruct (Hfront x Hx) as [Hxc | Hall]; [| left; auto].
        right. apply Hnext. exists x. auto.
Qed.

Lemma bfs_tree_members h g reverse l :
  forall fuel,
    bfs_tree fuel h g reverse = Some l ->
    (exists r, l = g :: r)
    /\ forall x, In x l <-> x = g \/ connected h reverse g x.
Proof.
  intros fuel E. unfold bfs_tree in E.
  apply (bfs_loop_members h reverse g fuel
           ([g] ++ neighbours h reverse g) (neighbours h reverse g) l);
    try assumption.
  - exists (neighbours h reverse g). reflexivity.
  - intros x [<- | Hx]; [now left |]. right. now apply connected_neighbour.
  - intros x Hx. now right.
  - intros x [<- | Hx]; [| now left]. right. intros y Hy. now right.
Qed.

(** [bfs_tree] returns on every hierarchy, cyclic or not, after at most one
    turn of its loop for each typing edge and one more; the list starts with
    the graph it was called on and holds, besides it, exactly the graphs
    reached from it along typing edges (followed backwards for
    [reverse=True]). *)
Theorem bfs_tree_lists_connected_graphs :
  forall h g reverse,
    exists l,
      bfs_tree (S (List.length (typings h))) h g reverse = Some l
      /\ (exists r, l = g :: r)
      /\ forall x, In x l <-> x = g \/ connected h reverse g x.
Proof.
  intros h g reverse. destruct (bfs_tree_terminates h g reverse) as [l E].
  exists l. split; [assumption |].
  exact (bfs_tree_members h g reverse l _ E).
Qed.

(** In a hierarchy that satisfies the invariants, the forward enumeration
    from a graph lists the graph and the keys of [get_descendants], and the
    backward enumeration the graph and the keys of [get_ancestors]. *)
Theorem bfs_tree_lists_descendants_and_ancestors :
  forall h g fuel fuel' l l' desc anc,
    well_formed h ->
    bfs_tree fuel h g false = Some l ->
    bfs_tree fuel h g true = Some l' ->
    get_descendants fuel' h g = Ok desc ->
    get_ancestors fuel' h g = Ok anc ->
    (forall x, In x l <-> x = g \/ In x (dkeys desc))
    /\ (forall x, In x l' <-> x = g \/ In x (dkeys anc)).
Proof.
  intros h g fuel fuel' l l' desc anc Hwf El El' Ed Ea.
  destruct (bfs_tree_members h g false l fuel El) as [_ Hl].
  destruct (bfs_tree_members h g true l' fuel El') as [_ Hl'].
  destruct (get_descendants_correct h Hwf fuel' g desc Ed) as [_ [Hd _]].
  destruct (get_ancestors_correct h Hwf fuel' g anc Ea) as [_ [Ha _]].
  split; intros x.
  - rewrite Hl, Hd. reflexivity.
  - rewrite Hl', Ha. reflexivity.
Qed.

Lemma bfs_tree_lists_descendants_and_ancestors_witness :
  (forall x, In x ["A"; "B"] <-> x = "A" \/ In x (dkeys [("B", [("a", "b")])]))
  /\ (forall x, In x ["A"] <-> x = "A" \/ In x (dkeys (@nil (gid * mapping)))).
Proof.
  apply (bfs_tree_lists_descendants_and_ancestors
           typed_hierarchy "A" 2 2 ["A"; "B"] ["A"]
           [("B", [("a", "b")])] [] typed_hierarchy_well_formed);
    reflexivity.
Defined.

(** ** A hierarchy with two paths between the same graphs *)

Lemma triangle_hierarchy_paths s t path :
  path_from_to triangle_hierarchy s t path ->
  In (s, t, path)
     [("T", "M1", ["T"; "M1"]); ("M1", "M2", ["M1"; "M2"]);
      ("T", "M2", ["T"; "M2"]); ("T", "M2", ["T"; "M1"; "M2"])].
Proof.
  intros [[mid ->] Hpath].
  destruct mid as [|x1 mid]; simpl in Hpath.
  - destruct Hpath as [[E | [E | [E | []]]] _]; inversion E; subst;
      simpl; auto.
  - destruct Hpath as [[E | [E | [E | []]]] Hrest]; inversion E; subst;
      clear E; destruct mid as [|x2 mid]; simpl in Hrest;
      destruct Hrest as [[E | [E | [E | []]]] Hrest]; inversion E; subst;
      clear E; simpl; auto;
      destruct mid as [|x3 mid]; simpl in Hrest;
      destruct Hrest as [[E | [E | [E | []]]] Hrest]; inversion E.
Qed.

Lemma triangle_hierarchy_well_formed : well_formed triangle_hierarchy.
Proof.
  constructor.
  - repeat constructor; simpl; intuition discriminate.
  - repeat constructor; simpl; intuition discriminate.
  - intros s t m a [E | [E | [E | []]]]; inversion E; subst.
    + exists (plain_graph ["a"]), [], (plain_graph ["u"]), [].
      repeat split; reflexivity.
    + exists (plain_graph ["u"]), [], (plain_graph ["w"]), [].
      repeat split; reflexivity.
    + exists (plain_graph ["a"]), [], (plain_graph ["w"]), [].
      repeat split; reflexivity.
  - intros s t m a [E | [E | [E | []]]]; inversion E; subst;
      repeat constructor; simpl; tauto.
  - intros x mid Hpath.
    assert (Hp : path_from_to triangle_hierarchy x x (x :: mid ++ [x]))
      by (split; [now exists mid | assumption]).
    apply triangle_hierarchy_paths in Hp.
    destruct Hp as [E | [E | [E | [E | []]]]]; inversion E; subst;
      discriminate.
  - intros s t p1 p2 gs a m1 m2 H1 H2 _ E1 E2 n _.
    apply triangle_hierarchy_paths in H1, H2.
    destruct H1 as [E | [E | [E | [E | []]]]]; inversion E; subst; clear E;
      destruct H2 as [E | [E | [E | [E | []]]]]; inversion E; subst; clear E;
      vm_compute in E1, E2; congruence.
  - constructor.
  - intros u v [].
  - intros u v r a [].
Qed.

(** ** Composition along paths *)

Lemma compose_path_snoc_inv h a p g path m :
  path_from_to h a p path -> In (p, g) (typings h) ->
  compose_path_typing h (path ++ [g]) = Ok m ->
  exists m' t, compose_path_typing h path = Ok m'
               /\ get_typing h p g = Ok t /\ m = compose m' t.
Proof.
  intros Hp Hin E.
  destruct (compose_path_ok Hp) as [m' Hm'].
  destruct (get_typing_In h p g Hin) as [t Ht].
  destruct (compose_path_snoc h a p g path m' t Hp Hm' Ht) as [_ E'].
  rewrite E in E'. injection E' as ->. eauto.
Qed.

(** Composing along a path that goes through a graph [x] is composing along
    its part up to [x], then along its part from [x]. *)
Theorem compose_path_typing_split :
  forall h a x b p1 p2 m1 m2,
    well_formed h ->
    path_from_to h a x p1 -> path_from_to h x b p2 ->
    compose_path_typing h p1 = Ok m1 ->
    compose_path_typing h p2 = Ok m2 ->
    compose_path_typing h (p1 ++ tl p2) = Ok (compose m1 m2).
Proof.
  intros h a x b p1 p2 m1 m2 Hwf Hp1 Hp2 E1. revert b p2 m2 Hp2.
  assert (Hgen : forall mid b m2,
             path_from_to h x b (x :: mid ++ [b]) ->
             compose_path_typing h (x :: mid ++ [b]) = Ok m2 ->
             path_from_to h a b (p1 ++ mid ++ [b])
             /\ compose_path_typing h (p1 ++ mid ++ [b]) = Ok (compose m1 m2)).
  { induction mid as [|y mid IH] using rev_ind; intros b m2 Hp2 E2.
    - simpl in *. destruct Hp2 as [_ [Hin _]].
      destruct (get_typing_In h x b Hin) as [t Ht]. rewrite Ht in E2.
      simpl in E2. injection E2 as <-.
      exact (compose_path_snoc h a x b p1 m1 t Hp1 E1 Ht).
    - destruct Hp2 as [_ Hpath].
      change (x :: (mid ++ [y]) ++ [b])
        with ((x :: mid ++ [y]) ++ [b]) in Hpath, E2.
      change (x :: mid ++ [y]) with ((x :: mid) ++ [y]) in Hpath.
      apply is_path_snoc_inv in Hpath. destruct Hpath as [Hq Hin].
      assert (Hpq : path_from_to h x y (x :: mid ++ [y]))
        by (split; [now exists mid | exact Hq]).
      destruct (compose_path_snoc_inv h x y b _ m2 Hpq Hin E2)
        as [m2' [t [Em2' [Ht ->]]]].
      destruct (IH y m2' Hpq Em2') as [Hpath' E'].
      destruct (compose_path_snoc h a y b _ (compose m1 m2') t Hpath' E' Ht)
        as [Hp3 E3].
      rewrite <- !app_assoc in Hp3, E3. rewrite <- app_assoc.
      split; [exact Hp3 |]. rewrite E3. f_equal.
      apply compose_assoc.
      apply (compose_path_between h x y _ m2' Hwf Hpq Em2'). }
  intros b p2 m2 Hp2 E2. pose proof Hp2 as [[mid ->] _].
  exact (proj2 (Hgen mid b m2 Hp2 E2)).
Qed.

Lemma compose_path_typing_split_witness :
  compose_path_typing triangle_hierarchy (["T"; "M1"] ++ tl ["M1"; "M2"])
  = Ok (compose [("a", "u")] [("u", "w")]).
Proof.
  apply (compose_path_typing_split
           triangle_hierarchy "T" "M1" "M2" ["T"; "M1"] ["M1"; "M2"]
           [("a", "u")] [("u", "w")] triangle_hierarchy_well_formed).
  - split; [now exists [] |]. simpl. auto.
  - split; [now exists [] |]. simpl. auto.
  - reflexivity.
  - reflexivity.
Defined.

(** In a hierarchy that satisfies the invariants, [compose_path_typing]
    returns along every path of typing edges, and the map it returns is a
    dictionary that sends every node of the first graph of the path to a node
    of the last one; a list of fewer than two graphs raises [IndexError]. *)
Theorem compose_path_typing_total :
  forall h,
    compose_path_typing h [] = Raise IndexError
    /\ (forall g, compose_path_typing h [g] = Raise IndexError)
    /\ (well_formed h ->
        forall a b path,
          path_from_to h a b path ->
          exists m,
            compose_path_typing h path = Ok m
            /\ NoDup (dkeys m)
            /\ (forall n, In n (graph_nodes h a) ->
                          exists v, dget m n = Some v
                                    /\ In v (graph_nodes h b))
            /\ (forall n v, dget m n = Some v -> In n (graph_nodes h a))).
Proof.
  intros h. split; [reflexivity |]. split; [reflexivity |].
  intros Hwf a b path Hp.
  destruct (compose_path_ok Hp) as [m Hm]. exists m. split; [assumption |].
  destruct (compose_path_between h a b path m Hwf Hp Hm) as [Hnd [Hr Ht]].
  split; [assumption |]. split.
  - intros n Hn. destruct (Ht n Hn) as [v Hv]. exists v.
    split; [assumption |]. exact (proj2 (Hr n v Hv)).
  - intros n v Hv. exact (proj1 (Hr n v Hv)).
Qed.

Lemma compose_path_typing_total_witness :
  exists m,
    compose_path_typing triangle_hierarchy ["T"; "M1"; "M2"] = Ok m
    /\ NoDup (dkeys m)
    /\ (forall n, In n (graph_nodes triangle_hierarchy "T") ->
                  exists v, dget m n = Some v
                            /\ In v (graph_nodes triangle_hierarchy "M2"))
    /\ (forall n v, dget m n = Some v ->
                    In n (graph_nodes triangle_hierarchy "T")).
Proof.
  apply (proj2 (proj2 (compose_path_typing_total triangle_hierarchy))
               triangle_hierarchy_well_formed "T" "M2").
  split; [now exists ["M1"] |]. simpl. auto.
Defined.

(** ** Ancestors and descendants are two views of the same paths *)

(** [a] is an ancestor of [g] exactly when [g] is a descendant of [a], and
    the two functions then hold the same map for the pair. *)
Theorem ancestors_descendants_dual :
  forall h fuel a g anc desc,
    well_formed h ->
    get_ancestors fuel h g = Ok anc ->
    get_descendants fuel h a = Ok desc ->
    (In a (dkeys anc) <-> In g (dkeys desc))
    /\ forall m m', dget anc a = Some m -> dget desc g = Some m' ->
                    map_equiv m m'.
Proof.
  intros h fuel a g anc desc Hwf Ea Ed.
  destruct (get_ancestors_correct h Hwf fuel g anc Ea) as [_ [Hka Hva]].
  destruct (get_descendants_correct h Hwf fuel a desc Ed) as [_ [Hkd Hvd]].
  split.
  - rewrite Hka, Hkd. reflexivity.
  - intros m m' Hm Hm'.
    exact (is_typing_equiv h a g m m' Hwf (Hva a m Hm) (Hvd g m' Hm')).
Qed.

Lemma ancestors_descendants_dual_witness :
  (In "T" (dkeys [("M1", [("u", "w")]); ("T", [("a", "w")])])
   <-> In "M2" (dkeys [("M1", [("a", "u")]); ("M2", [("a", "w")])]))
  /\ forall m m',
      dget [("M1", [("u", "w")]); ("T", [("a", "w")])] "T" = Some m ->
      dget [("M1", [("a", "u")]); ("M2", [("a", "w")])] "M2" = Some m' ->
      map_equiv m m'.
Proof.
  apply (ancestors_descendants_dual
           triangle_hierarchy 4 "T" "M2"
           [("M1", [("u", "w")]); ("T", [("a", "w")])]
           [("M1", [("a", "u")]); ("M2", [("a", "w")])]
           triangle_hierarchy_well_formed);
    reflexivity.
Defined.

(** ** Cyclic typings exhaust the recursion *)

Lemma get_ancestors_only_recursion_error h :
  forall fuel g e, get_ancestors fuel h g = Raise e -> e = RecursionError.
Proof.
  induction fuel as [|fuel IH]; intros g e E.
  - simpl in E. now inversion E.
  - cbn [get_ancestors] in E. apply for_each_raise_inv in E.
    destruct E as [[p g'] [acc [Hin E]]].
    apply in_edges_In in Hin. cbn [snd] in Hin. destruct Hin as [Hin ->].
    unfold ancestors_step in E. cbn [fst] in E.
    destruct (get_typing_In h p g Hin) as [t Ht]. rewrite Ht in E.
    cbn [bind] in E.
    destruct (get_ancestors fuel h p) as [PA|e'] eqn:HPA; cbn [bind] in E;
      [discriminate |].
    injection E as <-. eauto.
Qed.

Lemma get_descendants_only_recursion_error h :
  forall fuel g e, get_descendants fuel h g = Raise e -> e = RecursionError.
Proof.
  induction fuel as [|fuel IH]; intros g e E.
  - simpl in E. now inversion E.
  - cbn [get_descendants] in E. apply for_each_raise_inv in E.
    destruct E as [[g' s] [acc [Hin E]]].
    apply out_edges_In in Hin. cbn [fst] in Hin. destruct Hin as [Hin ->].
    unfold descendants_step in E. cbn [snd] in E.
    destruct (get_typing_In h g s Hin) as [t Ht]. rewrite Ht in E.
    cbn [bind] in E.
    destruct (get_descendants fuel h s) as [TD|e'] eqn:HTD; cbn [bind] in E;
      [discriminate |].
    injection E as <-. eauto.
Qed.

(** Every graph of a cycle has a predecessor and a successor on the cycle. *)
Lemma cycle_neighbours h x mid :
  is_path h (x :: mid ++ [x]) ->
  forall y, In y (x :: mid) ->
            (exists p, In p (x :: mid) /\ In (p, y) (typings h))
            /\ (exists s, In s (x :: mid) /\ In (y, s) (typings h)).
Proof.
  intros Hpath y Hy. apply in_split in Hy. destruct Hy as [l1 [l2 Hsplit]].
  split.
  - destruct l1 as [|z l1] using rev_ind.
    + (* y is x: its predecessor is the last graph of the cycle *)
      simpl in Hsplit. injection Hsplit as -> ->.
      change (y :: l2 ++ [y]) with ((y :: l2) ++ [y]) in Hpath.
      destruct (exists_last (l := y :: l2)) as [front [p Ep]];
        [discriminate |].
      rewrite Ep in Hpath. apply is_path_snoc_inv in Hpath.
      exists p. split; [| tauto]. rewrite Ep. apply in_or_app. right.
      now left.
    + clear IHl1.
      change (x :: mid ++ [x]) with ((x :: mid) ++ [x]) in Hpath.
      rewrite Hsplit in Hpath. rewrite <- !app_assoc in Hpath.
      apply is_path_app in Hpath. destruct Hpath as [_ Hpath].
      simpl in Hpath. exists z. split; [| tauto].
      rewrite Hsplit. apply in_or_app. left. apply in_or_app. right.
      now left.
  - change (x :: mid ++ [x]) with ((x :: mid) ++ [x]) in Hpath.
    rewrite Hsplit in Hpath. rewrite <- app_assoc in Hpath.
    apply is_path_app in Hpath. destruct Hpath as [_ Hpath].
    destruct l2 as [|s l2].
    + simpl in Hpath. exists x. split; [now left | tauto].
    + simpl in Hpath. exists s. split; [| tauto].
      rewrite Hsplit. apply in_or_app. right. right. now left.
Qed.

Lemma get_ancestors_raises_on_cycle h (cycle : list gid) :
  (forall y, In y cycle -> exists p, In p cycle /\ In (p, y) (typings h)) ->
  forall fuel y, In y cycle -> exists e, get_ancestors fuel h y = Raise e.
Proof.
  intros Hcycle. induction fuel as [|fuel IH]; intros y Hy; [simpl; eauto |].
  destruct (Hcycle y Hy) as [p [Hp Hin]].
  cbn [get_ancestors].
  apply for_each_raises_at with (x := (p, y)).
  - apply in_edges_In. auto.
  - intros acc. unfold ancestors_step. cbn [fst].
    destruct (get_typing h p y); cbn [bind]; [| eauto].
    destruct (IH p Hp) as [e He]. rewrite He. cbn [bind]. eauto.
Qed.

Lemma get_descendants_raises_on_cycle h (cycle : list gid) :
  (forall y, In y cycle -> exists s, In s cycle /\ In (y, s) (typings h)) ->
  forall fuel y, In y cycle -> exists e, get_descendants fuel h y = Raise e.
Proof.
  intros Hcycle. induction fuel as [|fuel IH]; intros y Hy; [simpl; eauto |].
  destruct (Hcycle y Hy) as [s [Hs Hin]].
  cbn [get_descendants].
  apply for_each_raises_at with (x := (y, s)).
  - apply out_edges_In. auto.
  - intros acc. unfold descendants_step. cbn [snd].
    destruct (get_typing h y s); cbn [bind]; [| eauto].
    destruct (IH s Hs) as [e He]. rewrite He. cbn [bind]. eauto.
Qed.

(** The two functions fail in one way only, by running out of recursion
    depth; and on a graph that lies on a cycle of typing edges they do so
    whatever the depth allowed: the recursion has no visited set, so the
    acyclicity of the typings is what ends it. *)
Theorem ancestors_descendants_recursion :
  forall h fuel g,
    (forall e, get_ancestors fuel h g = Raise e -> e = RecursionError)
    /\ (forall e, get_descendants fuel h g = Raise e -> e = RecursionError)
    /\ (forall mid, is_path h (g :: mid ++ [g]) ->
                    get_ancestors fuel h g = Raise RecursionError
                    /\ get_descendants fuel h g = Raise RecursionError).
Proof.
  intros h fuel g.
  split; [apply get_ancestors_only_recursion_error |].
  split; [apply get_descendants_only_recursion_error |].
  intros mid Hpath.
  pose proof (cycle_neighbours h g mid Hpath) as Hn. split.
  - destruct (get_ancestors_raises_on_cycle h (g :: mid)
                (fun y Hy => proj1 (Hn y Hy)) fuel g (or_introl eq_refl))
      as [e He].
    rewrite He. f_equal.
    exact (get_ancestors_only_recursion_error h fuel g e He).
  - destruct (get_descendants_raises_on_cycle h (g :: mid)
                (fun y Hy => proj2 (Hn y Hy)) fuel g (or_introl eq_refl))
      as [e He].
    rewrite He. f_equal.
    exact (get_descendants_only_recursion_error h fuel g e He).
Qed.

(** Two graphs typed by each other. *)
Definition cyclic_hierarchy : Hierarchy :=
  mkHierarchy
    [("A", (plain_graph ["a"], [])); ("B", (plain_graph ["b"], []))]
    [(("A", "B"), ([("a", "b")], [])); (("B", "A"), ([("b", "a")], []))]
    [].

Lemma ancestors_descendants_recursion_witness :
  get_ancestors 1000 cyclic_hierarchy "A" = Raise RecursionError
  /\ get_descendants 1000 cyclic_hierarchy "A" = Raise RecursionError.
Proof.
  apply (proj2 (proj2 (ancestors_descendants_recursion
                         cyclic_hierarchy 1000 "A")) ["B"]).
  simpl. auto.
Defined.

(** ** Stage 0 of [rewrite]: what is accepted *)

(** Without control relations the instance alone decides: Stage 0 accepts
    the call exactly when the instance (the identity of the left-hand side
    when none is given) is a total homomorphism into the rewritten graph and
    is injective, and it then returns that instance with two empty
    relations; the strict mode changes nothing for a rule that adds no
    node. *)
Theorem stage0_without_control_relations :
  forall fuel h graph_id rule instance strict origin,
    get_graph h graph_id = Ok origin ->
    (strict = true -> added_nodes rule = []) ->
    (forall r,
        _check_rule_instance_typing fuel h graph_id rule instance
                                    None None strict = Ok r ->
        r = (normalized_instance rule instance, [], []))
    /\ ((exists r,
            _check_rule_instance_typing fuel h graph_id rule instance
                                        None None strict = Ok r)
        <-> is_homomorphism (lhs rule) origin
                            (normalized_instance rule instance) = true
            /\ is_monic (normalized_instance rule instance) = true).
Proof.
  intros fuel h g rule instance strict origin Hg Hstrict.
  assert (Hs : check_strict fuel h g rule [] strict = Ok tt).
  { unfold check_strict. destruct strict; [| reflexivity].
    now rewrite (Hstrict eq_refl). }
  unfold _check_rule_instance_typing, check_homomorphism.
  rewrite Hg. cbn [bind normalized_typing].
  destruct (is_homomorphism (lhs rule) origin
                            (normalized_instance rule instance)).
  - destruct (is_monic (normalized_instance rule instance)); cbn [negb].
    + cbn. rewrite Hs. cbn. split.
      * intros r E. now inversion E.
      * split; [auto | eauto].
    + split; [discriminate |]. split; [intros [r E]; discriminate |].
      intros [_ E]. discriminate.
  - split; [discriminate |]. split; [intros [r E]; discriminate |].
    intros [E _]. discriminate.
Qed.

Lemma stage0_without_control_relations_witness :
  (forall r,
      _check_rule_instance_typing 3 typed_hierarchy "A" (keep_rule "a") None
                                  None None true = Ok r ->
      r = (normalized_instance (keep_rule "a") None, [], []))
  /\ ((exists r,
          _check_rule_instance_typing 3 typed_hierarchy "A" (keep_rule "a")
                                      None None None true = Ok r)
      <-> is_homomorphism (lhs (keep_rule "a")) (plain_graph ["a"])
                          (normalized_instance (keep_rule "a") None) = true
          /\ is_monic (normalized_instance (keep_rule "a") None) = true).
Proof.
  apply (stage0_without_control_relations
           3 typed_hierarchy "A" (keep_rule "a") None true
           (plain_graph ["a"])); reflexivity.
Defined.



(** ** Auto-completion of [rhs_typing] *)

Lemma dget_dupdate_other {K V} `{EqKey K} (d2 : dict K V) :
  forall d k, ~ In k (dkeys d2) -> dget (dupdate d d2) k = dget d k.
Proof.
  induction d2 as [|[k2 v2] r IH]; intros d k Hnot; [reflexivity |].
  rewrite dupdate_step, IH by (intros Hc; apply Hnot; now right).
  rewrite dget_dset. destruct (keqb_spec k2 k) as [-> | Hne]; [| reflexivity].
  exfalso. apply Hnot. now left.
Qed.

(** The entry [t'] has the nodes of the entry [t], with the same sets. *)
Definition entry_extends (t t' : dict node (list node)) : Prop :=
  forall n ns, dget t n = Some ns -> dget t' n = Some ns.

(** The state of the loops of the auto-completion: [rhs_typing] as updated
    in place so far, and [new_rhs_typing]. *)
Definition autocomplete_inv (fuel : nat) (h : Hierarchy) (rt : typing_rel)
           (st : typing_rel * typing_rel) : Prop :=
  (forall g, In g (dkeys (fst st)) <-> In g (dkeys rt))
  /\ (forall g t, dget rt g = Some t ->
                  exists t', dget (fst st) g = Some t' /\ entry_extends t t')
  /\ (forall g, In g (dkeys (snd st)) ->
                ~ In g (dkeys rt)
                /\ exists a desc,
                    In a (dkeys rt)
                    /\ get_descendants fuel h a = Ok desc
                    /\ In g (dkeys desc)).

Lemma autocomplete_descendant_inv fuel h rt a desc typing st dt st' :
  In a (dkeys rt) -> get_descendants fuel h a = Ok desc -> In dt desc ->
  autocomplete_inv fuel h rt st ->
  autocomplete_descendant rt typing st dt = Ok st' ->
  autocomplete_inv fuel h rt st'.
Proof.
  intros Ha Hdesc Hdt Hinv E. destruct dt as [d dtyping].
  unfold autocomplete_descendant in E.
  destruct (dmem rt d) eqn:Hmem; cbn [negb] in E.
  - revert E. apply for_each_invariant; [| exact Hinv].
    clear Hinv st st'. intros st [rhs_n graph_ns] st' _ Hinv E.
    cbv beta iota in E.
    match type of E with
    | bind ?m _ = _ => destruct m as [drt|] eqn:Hdrt; cbn [bind] in E;
                       [| discriminate]
    end.
    destruct (dget drt rhs_n) as [dns|] eqn:Hn.
    + destruct (for_each graph_ns _ tt); cbn [bind] in E; [| discriminate].
      injection E as <-. exact Hinv.
    + destruct (image_set dtyping graph_ns) as [img|]; cbn [bind] in E;
        [| discriminate].
      injection E as <-. destruct Hinv as [Hk [Hext Hnew]].
      unfold getitem in Hdrt.
      match type of Hdrt with
      | match ?m with _ => _ end = _ =>
          destruct m as [drt'|] eqn:Hd; [| discriminate]
      end.
      injection Hdrt as ->.
      split; [| split]; cbn [fst snd].
      * intros g. rewrite dkeys_dset, <- Hk. split; [| tauto].
        intros [-> | Hg]; [| assumption]. eapply dget_Some_keys; eauto.
      * intros g t Ht. rewrite dget_dset.
        destruct (Hext g t Ht) as [t' [Ht' Hsub]].
        destruct (keqb_spec d g) as [-> | Hne]; [| eauto].
        exists (dset drt rhs_n img). split; [reflexivity |].
        intros n ns Hns. rewrite dget_dset.
        assert (Et : Some t' = Some drt)
          by exact (eq_trans (eq_sym Ht') Hd).
        injection Et as ->.
        destruct (keqb_spec rhs_n n) as [-> | Hne]; [| auto].
        apply Hsub in Hns. congruence.
      * exact Hnew.
  - match type of E with
    | bind ?m _ = _ => destruct m as [fresh|]; cbn [bind] in E;
                       [| discriminate]
    end.
    injection E as <-. destruct Hinv as [Hk [Hext Hnew]].
    split; [| split]; cbn [fst snd]; try assumption.
    intros g Hg. apply dkeys_dset in Hg. destruct Hg as [-> | Hg]; [| auto].
    split.
    + intros Hc. apply dmem_keys in Hc. congruence.
    + exists a, desc. split; [assumption |]. split; [assumption |].
      unfold dkeys. apply in_map_iff. exists (d, dtyping). auto.
Qed.

(** The auto-completion never drops or changes what the caller gave: every
    graph of [rhs_typing] keeps its entry, to which nodes may only be added,
    and a graph that the completed relation names besides is a descendant
    of one that the caller named. *)
Theorem autocomplete_rhs_typing_extends :
  forall fuel h rt rt',
    autocomplete_rhs_typing fuel h rt = Ok rt' ->
    (forall g t, dget rt g = Some t ->
                 exists t', dget rt' g = Some t' /\ entry_extends t t')
    /\ (forall g, In g (dkeys rt') ->
                  In g (dkeys rt)
                  \/ exists a desc,
                      In a (dkeys rt)
                      /\ get_descendants fuel h a = Ok desc
                      /\ In g (dkeys desc)).
Proof.
  intros fuel h rt rt' E. unfold autocomplete_rhs_typing in E.
  match type of E with
  | bind ?m _ = _ => destruct m as [st|] eqn:Eloop; cbn [bind] in E;
                     [| discriminate]
  end.
  injection E as <-.
  assert (Hinv : autocomplete_inv fuel h rt st).
  { revert Eloop. apply for_each_invariant.
    - intros s a s' Ha Hs Ea. cbv beta in Ea.
      match type of Ea with
      | bind ?m _ = _ => destruct m as [typing|]; cbn [bind] in Ea;
                         [| discriminate]
      end.
      destruct (get_descendants fuel h a) as [desc|] eqn:Hdesc;
        cbn [bind] in Ea; [| discriminate].
      assert (Hgen : forall l s0 s1,
                 (forall dt, In dt l -> In dt desc) ->
                 autocomplete_inv fuel h rt s0 ->
                 for_each l (autocomplete_descendant rt typing) s0 = Ok s1 ->
                 autocomplete_inv fuel h rt s1).
      { induction l as [|dt l IH]; intros s0 s1 Hl Hs0 El.
        - simpl in El. injection El as <-. exact Hs0.
        - cbn [for_each] in El.
          destruct (autocomplete_descendant rt typing s0 dt) as [s2|] eqn:E2;
            cbn [bind] in El; [| discriminate].
          apply (IH s2 s1); [intros x Hx; apply Hl; now right | | exact El].
          apply (autocomplete_descendant_inv
                   fuel h rt a desc typing s0 dt s2); auto.
          apply Hl. now left. }
      apply (Hgen desc s s'); auto.
    - split; [| split]; cbn [fst snd].
      + intros g. reflexivity.
      + intros g t Ht. exists t. split; [assumption |]. intros n ns Hn.
        exact Hn.
      + intros g []. }
  destruct Hinv as [Hk [Hext Hnew]]. split.
  - intros g t Ht. destruct (Hext g t Ht) as [t' [Ht' Hsub]].
    exists t'. split; [| assumption].
    rewrite dget_dupdate_other; [assumption |].
    intros Hc. apply Hnew in Hc. destruct Hc as [Hnot _]. apply Hnot.
    eapply dget_Some_keys; eauto.
  - intros g Hg. apply dkeys_dupdate in Hg. destruct Hg as [Hg | Hg].
    + left. now apply Hk.
    + right. apply Hnew in Hg. tauto.
Qed.

Lemma autocomplete_rhs_typing_extends_witness :
  (forall g t, dget [("M1", [("c", ["u"])])] g = Some t ->
               exists t',
                 dget [("M1", [("c", ["u"])]); ("M2", [("c", ["w"])])] g
                 = Some t'
                 /\ entry_extends t t')
  /\ (forall g,
         In g (dkeys [("M1", [("c", ["u"])]); ("M2", [("c", ["w"])])]) ->
         In g (dkeys [("M1", [("c", ["u"])])])
         \/ exists a desc,
             In a (dkeys [("M1", [("c", ["u"])])])
             /\ get_descendants 4 triangle_hierarchy a = Ok desc
             /\ In g (dkeys desc)).
Proof.
  apply (autocomplete_rhs_typing_extends
           4 triangle_hierarchy [("M1", [("c", ["u"])])]
           [("M1", [("c", ["u"])]); ("M2", [("c", ["w"])])]).
  reflexivity.
Defined.

(** ** Reading a hierarchy from JSON *)

Lemma mfor_each_invariant {A S} (P : Hierarchy -> Prop) (l : list A)
      (body : S -> A -> M S) :
  (forall s x h s' h', In x l -> P h -> body s x h = (Ok s', h') -> P h') ->
  forall s h s' h', P h -> mfor_each l body s h = (Ok s', h') -> P h'.
Proof.
  induction l as [|x r IH]; intros Hbody s h s' h' Hh E; simpl in E.
  - run_ok. assumption.
  - run_ok.
    match goal with
    | H1 : body s x h = (Ok ?s1, ?h1), H2 : mfor_each r body ?s1 ?h1 = _ |- _ =>
        apply (IH (fun s0 x0 h0 s0' h0' Hx => Hbody s0 x0 h0 s0' h0' (or_intror Hx))
                  s1 h1 s' h'); [| exact H2];
        exact (Hbody s x h s1 h1 (or_introl eq_refl) Hh H1)
    end.
Qed.

Lemma mfor_each_app {A S} (l1 l2 : list A) (body : S -> A -> M S) s h :
  mfor_each (l1 ++ l2) body s h
  = mbind (mfor_each l1 body s) (fun s' => mfor_each l2 body s') h.
Proof.
  revert s h. induction l1 as [|x r IH]; intros s h; simpl.
  - reflexivity.
  - unfold mbind. destruct (body s x h) as [[s1|e] h1]; [| reflexivity].
    rewrite IH. reflexivity.
Qed.

(** What one step of each loop of [from_json] does to the three stores. *)
Lemma add_graph_from_data_stores g ns es a h h' :
  add_graph_from_data g ns es a h = (Ok tt, h') ->
  graphs h' = graphs h ++ [g]
  /\ h_typings h' = h_typings h /\ h_relations h' = h_relations h.
Proof.
  unfold add_graph_from_data. destruct (inb g (graphs h)); [discriminate |].
  intros E. inversion E; subst. unfold graphs, dkeys. cbn [h_graphs].
  rewrite map_app. auto.
Qed.

Lemma add_typing_stores s t m a h h' :
  add_typing s t m a h = (Ok tt, h') ->
  h_graphs h' = h_graphs h
  /\ typings h' = typings h ++ [(s, t)] /\ h_relations h' = h_relations h.
Proof.
  unfold add_typing.
  destruct (dget (h_graphs h) s) as [[gs ?]|]; [| discriminate].
  destruct (dget (h_graphs h) t) as [[gt ?]|]; [| discriminate].
  destruct (inb (s, t) (typings h)); [discriminate |].
  destruct (negb (is_homomorphism gs gt m)); [discriminate |].
  destruct (_ || _); [discriminate |].
  destruct (negb (forallb _ _)); [discriminate |].
  intros E. inversion E; subst. unfold typings, dkeys. cbn [h_typings].
  rewrite map_app. auto.
Qed.

Lemma add_relation_stores l r rel a h h' :
  add_relation l r rel a h = (Ok tt, h') ->
  h_graphs h' = h_graphs h /\ h_typings h' = h_typings h
  /\ dkeys (h_relations h') = dkeys (h_relations h) ++ [(l, r)].
Proof.
  unfold add_relation.
  destruct (dget (h_graphs h) l) as [[gl ?]|]; [| discriminate].
  destruct (dget (h_graphs h) r) as [[gr ?]|]; [| discriminate].
  destruct (inb (l, r) (relations h)); [discriminate |].
  destruct (negb _); [discriminate |].
  intros E. inversion E; subst. unfold dkeys. cbn [h_relations].
  rewrite map_app. auto.
Qed.

(** Nothing that [ignore] lists is in the hierarchy so far. *)
Definition respects_ignore (ignore : option ignore_spec) (h : Hierarchy)
  : Prop :=
  (forall g, In g (graphs h) -> ignored ignore ig_graphs g = false)
  /\ (forall e, In e (typings h) -> ignored ignore ig_typing e = false)
  /\ (forall u v, In (u, v) (relations h) ->
                  ignored ignore ig_relations (u, v) = false
                  /\ ignored ignore ig_relations (v, u) = false).

Lemma from_json_graph_respects ignore gd h u h' :
  respects_ignore ignore h ->
  from_json_graph ignore gd h = (Ok u, h') ->
  respects_ignore ignore h'
  /\ (forall g, In g (graphs h) -> In g (graphs h'))
  /\ (ignored ignore ig_graphs (gd_id gd) = false -> In (gd_id gd) (graphs h')).
Proof.
  intros [Hg [Ht Hr]] E. unfold from_json_graph in E.
  destruct (ignored ignore ig_graphs (gd_id gd)) eqn:Hig.
  - unfold mret in E. inversion E; subst.
    split; [split; auto |]. split; [auto | discriminate].
  - unfold add_graph_from_json in E. destruct u.
    apply add_graph_from_data_stores in E. destruct E as [Eg [Et Er]].
    assert (Hrel : relations h' = relations h)
      by (unfold relations; now rewrite Er).
    assert (Htyp : typings h' = typings h)
      by (unfold typings; now rewrite Et).
    split; [split; [| split] |].
    + intros g Hin. rewrite Eg in Hin. apply in_app_or in Hin.
      destruct Hin as [Hin | [<- | []]]; auto.
    + rewrite Htyp. assumption.
    + rewrite Hrel. assumption.
    + split; intros; rewrite Eg; apply in_or_app; [now left |].
      right. now left.
Qed.

Lemma from_json_typing_respects ignore td h u h' :
  respects_ignore ignore h ->
  from_json_typing ignore td h = (Ok u, h') ->
  respects_ignore ignore h' /\ graphs h' = graphs h.
Proof.
  intros [Hg [Ht Hr]] E. unfold from_json_typing in E.
  destruct (ignored ignore ig_typing (td_from td, td_to td)) eqn:Hig.
  - unfold mret in E. inversion E; subst. split; [split; auto | reflexivity].
  - destruct u. apply add_typing_stores in E. destruct E as [Eg [Et Er]].
    assert (Hrel : relations h' = relations h)
      by (unfold relations; now rewrite Er).
    assert (Hgr : graphs h' = graphs h) by (unfold graphs; now rewrite Eg).
    split; [split; [| split] | assumption].
    + rewrite Hgr. assumption.
    + intros e Hin. rewrite Et in Hin. apply in_app_or in Hin.
      destruct Hin as [Hin | [<- | []]]; auto.
    + rewrite Hrel. assumption.
Qed.

Lemma from_json_relation_respects ignore rd h u h' :
  respects_ignore ignore h ->
  from_json_relation ignore rd h = (Ok u, h') ->
  respects_ignore ignore h' /\ graphs h' = graphs h.
Proof.
  intros [Hg [Ht Hr]] E. unfold from_json_relation in E. cbv zeta in E.
  destruct (ignored ignore ig_relations (rd_from rd, rd_to rd)) eqn:Hig1;
    cbn [orb] in E.
  - unfold mret in E. inversion E; subst. split; [split; auto | reflexivity].
  - destruct (ignored ignore ig_relations (rd_to rd, rd_from rd)) eqn:Hig2.
    + unfold mret in E. inversion E; subst.
      split; [split; auto | reflexivity].
    + run_ok.
      destruct (inb (rd_from rd, rd_to rd) (relations h)).
      * run_ok. split; [split; auto | reflexivity].
      * destruct u. apply add_relation_stores in E.
        destruct E as [Eg [Et Er]].
        assert (Hgr : graphs h' = graphs h) by (unfold graphs; now rewrite Eg).
        assert (Htyp : typings h' = typings h)
          by (unfold typings; now rewrite Et).
        split; [split; [| split] | assumption].
        -- rewrite Hgr. assumption.
        -- rewrite Htyp. assumption.
        -- intros a b Hin. apply relations_In in Hin. rewrite Er in Hin.
           cbn [fst snd] in Hin.
           destruct Hin as [Hin | Hin]; apply in_app_or in Hin;
             destruct Hin as [Hin | [E0 | []]].
           ++ apply Hr. apply relations_In. now left.
           ++ inversion E0; subst. auto.
           ++ apply Hr. apply relations_In. right. exact Hin.
           ++ inversion E0; subst. auto.
Qed.

(** [from_json] honours [ignore]: the hierarchy it returns holds no graph,
    no typing edge and no relation (in either orientation) that [ignore]
    lists, and it holds every graph of the JSON data that [ignore] does not
    list. *)
Theorem from_json_respects_ignore :
  forall json ignore h,
    from_json json ignore = Ok h ->
    (forall g, In g (graphs h) -> ignored ignore ig_graphs g = false)
    /\ (forall e, In e (typings h) -> ignored ignore ig_typing e = false)
    /\ (forall u v, In (u, v) (relations h) ->
                    ignored ignore ig_relations (u, v) = false
                    /\ ignored ignore ig_relations (v, u) = false)
    /\ (forall gd, In gd (jd_graphs json) ->
                   ignored ignore ig_graphs (gd_id gd) = false ->
                   In (gd_id gd) (graphs h)).
Proof.
  intros json ignore h E. unfold from_json in E.
  destruct (from_json_steps json ignore empty_hierarchy) as [[u|e] h0] eqn:Es;
    [| discriminate].
  injection E as ->. unfold from_json_steps in Es. run_ok.
  match goal with
  | H1 : mfor_each (jd_graphs json) _ tt empty_hierarchy = (Ok _, ?h1),
    H2 : mfor_each (jd_typing json) _ tt ?h1 = (Ok _, ?h2),
    H3 : mfor_each (jd_relations json) _ tt ?h2 = (Ok _, h) |- _ =>
      rename H1 into Hgraphs; rename H2 into Htypings;
      rename H3 into Hrelations;
      rename h1 into hg; rename h2 into ht
  end.
  assert (Hg : respects_ignore ignore hg
               /\ forall gd, In gd (jd_graphs json) ->
                             ignored ignore ig_graphs (gd_id gd) = false ->
                             In (gd_id gd) (graphs hg)).
  { clear Htypings Hrelations. revert Hgraphs.
    generalize (jd_graphs json) as l.
    assert (Hgen : forall l h0 u0,
               respects_ignore ignore h0 ->
               mfor_each l (fun _ gd => from_json_graph ignore gd) tt h0
               = (Ok u0, hg) ->
               respects_ignore ignore hg
               /\ (forall g, In g (graphs h0) -> In g (graphs hg))
               /\ forall gd, In gd l ->
                             ignored ignore ig_graphs (gd_id gd) = false ->
                             In (gd_id gd) (graphs hg)).
    { induction l as [|gd l IH]; intros h0 u0 Hh0 El; simpl in El.
      - run_ok. split; [assumption |]. split; [auto | intros gd []].
      - run_ok.
        match goal with
        | H1 : from_json_graph ignore gd h0 = (Ok ?u1, ?h1),
          H2 : mfor_each l _ ?u1 ?h1 = _ |- _ =>
            destruct (from_json_graph_respects ignore gd h0 u1 h1 Hh0 H1)
              as [Hr1 [Hk1 Hin1]];
            destruct u1;
            destruct (IH h1 u0 Hr1 H2) as [Hr [Hk Hin]]
        end.
        split; [assumption |]. split; [auto |].
        intros gd' [<- | Hgd'] Hig; auto. }
    intros l El.
    destruct (Hgen l empty_hierarchy _ (conj (fun g (H : In g []) => match H with end)
                  (conj (fun e (H : In e []) => match H with end)
                        (fun u v (H : In (u, v) []) => match H with end))) El)
      as [Hr [_ Hin]].
    split; assumption. }
  destruct Hg as [Hrg Hing].
  assert (Ht : respects_ignore ignore ht /\ graphs ht = graphs hg).
  { revert Htypings.
    apply (mfor_each_invariant
             (fun h0 => respects_ignore ignore h0 /\ graphs h0 = graphs hg)).
    - intros s td h0 s' h0' _ [Hr0 Hg0] Estep.
      destruct (from_json_typing_respects ignore td h0 s' h0' Hr0 Estep)
        as [Hr1 Hg1].
      split; [assumption | congruence].
    - split; [assumption | reflexivity]. }
  destruct Ht as [Hrt Hgt].
  assert (Hr : respects_ignore ignore h /\ graphs h = graphs hg).
  { revert Hrelations.
    apply (mfor_each_invariant
             (fun h0 => respects_ignore ignore h0 /\ graphs h0 = graphs hg)).
    - intros s rd h0 s' h0' _ [Hr0 Hg0] Estep.
      destruct (from_json_relation_respects ignore rd h0 s' h0' Hr0 Estep)
        as [Hr1 Hg1].
      split; [assumption | congruence].
    - split; assumption. }
  destruct Hr as [[H1 [H2 H3]] Hgh].
  split; [assumption |]. split; [assumption |]. split; [assumption |].
  intros gd Hgd Hig. rewrite Hgh. auto.
Qed.

(** The JSON data of [typed_hierarchy]. *)
Definition typed_json : json_data :=
  Eval vm_compute in
    match to_json typed_hierarchy None with
    | Ok j => j
    | Raise _ => mkJson [] [] []
    end.

Lemma from_json_respects_ignore_witness :
  let ignore :=
    Some (mkIgnore (Some ["B"]) (Some [("A", "B")]) (Some [("B", "A")])) in
  (forall g, In g (graphs single_hierarchy) ->
             ignored ignore ig_graphs g = false)
  /\ (forall e, In e (typings single_hierarchy) ->
                ignored ignore ig_typing e = false)
  /\ (forall u v, In (u, v) (relations single_hierarchy) ->
                  ignored ignore ig_relations (u, v) = false
                  /\ ignored ignore ig_relations (v, u) = false)
  /\ (forall gd, In gd (jd_graphs typed_json) ->
                 ignored ignore ig_graphs (gd_id gd) = false ->
                 In (gd_id gd) (graphs single_hierarchy)).
Proof.
  apply (from_json_respects_ignore
           typed_json
           (Some (mkIgnore (Some ["B"]) (Some [("A", "B")])
                           (Some [("B", "A")])))
           single_hierarchy).
  reflexivity.
Defined.

Lemma from_json_graphs_only_hierarchy_error ignore :
  forall l h e h',
    mfor_each l (fun _ gd => from_json_graph ignore gd) tt h = (Raise e, h') ->
    e = HierarchyError.
Proof.
  induction l as [|gd l IH]; intros h e h' E; simpl in E; [discriminate |].
  unfold mbind in E.
  destruct (from_json_graph ignore gd h) as [[u|e1] h1] eqn:E1.
  - destruct u. eauto.
  - inversion E; subst. unfold from_json_graph in E1.
    destruct (ignored ignore ig_graphs (gd_id gd)); [discriminate |].
    unfold add_graph_from_json, add_graph_from_data in E1.
    destruct (inb (gd_id gd) (graphs h)); now inversion E1.
Qed.

Lemma from_json_graphs_adds ignore :
  forall l h u h',
    mfor_each l (fun _ gd => from_json_graph ignore gd) tt h = (Ok u, h') ->
    (forall g, In g (graphs h) -> In g (graphs h'))
    /\ forall gd, In gd l -> ignored ignore ig_graphs (gd_id gd) = false ->
                  In (gd_id gd) (graphs h').
Proof.
  induction l as [|gd l IH]; intros h u h' E; simpl in E.
  - run_ok. split; [auto | intros gd []].
  - run_ok.
    match goal with
    | H1 : from_json_graph ignore gd h = (Ok ?u1, ?h1),
      H2 : mfor_each l _ ?u1 ?h1 = _ |- _ =>
        destruct u1; destruct (IH h1 u h' H2) as [Hk Hin];
        assert (Hstep : (forall g, In g (graphs h) -> In g (graphs h1))
                        /\ (ignored ignore ig_graphs (gd_id gd) = false ->
                            In (gd_id gd) (graphs h1)))
    end.
    { unfold from_json_graph in *.
      destruct (ignored ignore ig_graphs (gd_id gd)).
      - run_ok. split; [auto | discriminate].
      - unfold add_graph_from_json in *.
        match goal with
        | H : add_graph_from_data _ _ _ _ _ = _ |- _ =>
            apply add_graph_from_data_stores in H; destruct H as [Eg _]
        end.
        rewrite Eg. split; intros; apply in_or_app; [now left |].
        right. now left. }
    destruct Hstep as [Hk1 Hin1]. split; [auto |].
    intros gd' [<- | Hgd'] Hig; auto.
Qed.

(** JSON data that lists a graph id twice is rejected: unless [ignore] lists
    the id, [from_json] raises [HierarchyError]. *)
Theorem from_json_rejects_repeated_graph :
  forall json ignore l1 gd1 l2 gd2 l3,
    jd_graphs json = l1 ++ gd1 :: l2 ++ gd2 :: l3 ->
    gd_id gd1 = gd_id gd2 ->
    ignored ignore ig_graphs (gd_id gd1) = false ->
    from_json json ignore = Raise HierarchyError.
Proof.
  intros json ignore l1 gd1 l2 gd2 l3 Hsplit Hid Hig.
  assert (Hloop : exists h',
             mfor_each (jd_graphs json)
                       (fun _ gd => from_json_graph ignore gd) tt
                       empty_hierarchy
             = (Raise HierarchyError, h')).
  { rewrite Hsplit.
    replace (l1 ++ gd1 :: l2 ++ gd2 :: l3)
      with ((l1 ++ gd1 :: l2) ++ gd2 :: l3)
      by (rewrite <- app_assoc; reflexivity).
    rewrite mfor_each_app. unfold mbind at 1.
    destruct (mfor_each (l1 ++ gd1 :: l2) _ tt empty_hierarchy)
      as [[u|e] h1] eqn:E1.
    - apply from_json_graphs_adds in E1. destruct E1 as [_ Hin].
      assert (Hg : In (gd_id gd2) (graphs h1)).
      { rewrite <- Hid. apply Hin; [| assumption].
        apply in_or_app. right. now left. }
      cbn [mfor_each]. unfold mbind at 1.
      assert (Hig2 : ignored ignore ig_graphs (gd_id gd2) = false)
        by (rewrite <- Hid; exact Hig).
      unfold from_json_graph at 1. rewrite Hig2.
      unfold add_graph_from_json, add_graph_from_data.
      apply inb_In in Hg. rewrite Hg. eauto.
    - apply from_json_graphs_only_hierarchy_error in E1. subst. eauto. }
  destruct Hloop as [h' Hloop].
  unfold from_json, from_json_steps. unfold mbind at 1. now rewrite Hloop.
Qed.

Lemma from_json_rejects_repeated_graph_witness :
  from_json (mkJson [mkGraphData "A" (mkGraphJson [] []) None;
                     mkGraphData "A" (mkGraphJson [] []) None] [] [])
            None
  = Raise HierarchyError.
Proof.
  apply (from_json_rejects_repeated_graph
           (mkJson [mkGraphData "A" (mkGraphJson [] []) None;
                    mkGraphData "A" (mkGraphJson [] []) None] [] [])
           None [] (mkGraphData "A" (mkGraphJson [] []) None) []
           (mkGraphData "A" (mkGraphJson [] []) None) []);
    reflexivity.
Defined.

(** ** Writing a hierarchy to JSON *)

(** The JSON data with the graph ids passed through [rename_nodes]. *)
Definition rename_graph_data (rn : option (dict gid gid)) (gd : graph_data)
  : graph_data :=
  mkGraphData (renamed rn (gd_id gd)) (gd_graph gd) (gd_attrs gd).

Definition rename_typing_data (rn : option (dict gid gid)) (td : typing_data)
  : typing_data :=
  mkTypingData (renamed rn (td_from td)) (renamed rn (td_to td))
               (td_mapping td) (td_attrs td).

Definition rename_relation_data (rn : option (dict gid gid))
           (rd : relation_data) : relation_data :=
  mkRelationData (renamed rn (rd_from rd)) (renamed rn (rd_to rd))
                 (rd_rel rd) (rd_attrs rd).

Definition rename_json (rn : option (dict gid gid)) (j : json_data)
  : json_data :=
  mkJson (map (rename_graph_data rn) (jd_graphs j))
         (map (rename_typing_data rn) (jd_typing j))
         (map (rename_relation_data rn) (jd_relations j)).

Lemma to_json_graphs_renamed h rn :
  forall l acc r,
    for_each l (to_json_graph h None) acc = Ok r ->
    for_each l (to_json_graph h rn) (map (rename_graph_data rn) acc)
    = Ok (map (rename_graph_data rn) r).
Proof.
  induction l as [|[n a] l IH]; intros acc r E; simpl in *.
  - now inversion E.
  - destruct (get_graph h n) as [g|]; cbn [bind] in *; [| discriminate].
    apply IH in E. rewrite map_app in E. exact E.
Qed.

Lemma to_json_typings_renamed h rn :
  forall l acc r,
    for_each l (to_json_typing h None) acc = Ok r ->
    for_each l (to_json_typing h rn) (map (rename_typing_data rn) acc)
    = Ok (map (rename_typing_data rn) r).
Proof.
  induction l as [|[[s t] a] l IH]; intros acc r E; simpl in *.
  - now inversion E.
  - destruct (get_typing h s t) as [m|]; cbn [bind] in *; [| discriminate].
    apply IH in E. rewrite map_app in E. exact E.
Qed.

Lemma to_json_relations_renamed h rn :
  forall l visited acc r,
    for_each l (to_json_relation h None) (visited, acc) = Ok r ->
    for_each l (to_json_relation h rn)
             (visited, map (rename_relation_data rn) acc)
    = Ok (fst r, map (rename_relation_data rn) (snd r)).
Proof.
  induction l as [|[[u v] a] l IH]; intros visited acc r E;
    cbn [for_each] in *.
  - inversion E. reflexivity.
  - unfold to_json_relation at 1 in E. unfold to_json_relation at 1.
    destruct (negb (inb (u, v) visited) && negb (inb (v, u) visited)).
    + destruct (get_relation h u v) as [rel|]; cbn [bind] in *;
        [| discriminate].
      apply IH in E. rewrite map_app in E. exact E.
    + cbn [bind] in *. now apply IH.
Qed.

Lemma to_json_never_raises h :
  exists j, to_json h None = Ok j.
Proof.
  unfold to_json.
  assert (Hg : forall l acc,
             (forall na, In na l -> In (fst na) (graphs h)) ->
             exists r, for_each l (to_json_graph h None) acc = Ok r).
  { induction l as [|[n a] l IH]; intros acc Hl; simpl; [eauto |].
    unfold get_graph.
    destruct (dget (h_graphs h) n) as [ga|] eqn:E.
    - cbn [bind]. apply IH. intros na Hna. apply Hl. now right.
    - apply dget_None_keys in E. exfalso. apply E.
      apply (Hl (n, a)). now left. }
  assert (Ht : forall l acc,
             (forall sta, In sta l -> In (fst sta) (typings h)) ->
             exists r, for_each l (to_json_typing h None) acc = Ok r).
  { induction l as [|[[s t] a] l IH]; intros acc Hl; simpl; [eauto |].
    destruct (get_typing_In h s t (Hl (s, t, a) (or_introl eq_refl)))
      as [m Hm].
    rewrite Hm. cbn [bind]. apply IH. intros sta Hsta. apply Hl. now right. }
  assert (Hr : forall l st,
             (forall uva, In uva l -> In (fst uva) (relations h)) ->
             exists r, for_each l (to_json_relation h None) st = Ok r).
  { induction l as [|[[u v] a] l IH]; intros [visited acc] Hl;
      cbn [for_each]; [eauto |].
    unfold to_json_relation at 1.
    assert (Hl' : forall uva, In uva l -> In (fst uva) (relations h))
      by (intros uva Huva; apply Hl; now right).
    destruct (negb (inb (u, v) visited) && negb (inb (v, u) visited));
      [| cbn [bind]; now apply IH].
    pose proof (Hl (u, v, a) (or_introl eq_refl)) as Hin.
    cbn [fst] in Hin. apply relations_In in Hin. cbn [fst snd] in Hin.
    unfold get_relation.
    destruct (dget (h_relations h) (u, v)) as [ra|] eqn:E1.
    - cbn [bind]. now apply IH.
    - destruct (dget (h_relations h) (v, u)) as [ra|] eqn:E2.
      + cbn [bind]. now apply IH.
      + apply dget_None_keys in E1. apply dget_None_keys in E2. tauto. }
  destruct (Hg (graphs_data h) []) as [gs Egs].
  { intros [n a] Hin. apply graphs_data_In in Hin. destruct Hin as [g Hin].
    unfold graphs, dkeys. apply in_map_iff. exists (n, (g, a)). auto. }
  destruct (Ht (typings_data h) []) as [ts Ets].
  { intros [[s t] a] Hin. apply typings_data_In in Hin.
    destruct Hin as [m Hin].
    unfold typings, dkeys. apply in_map_iff. exists ((s, t), (m, a)). auto. }
  destruct (Hr (relations_data h) ([], [])) as [rs Ers].
  { intros [[u v] a] Hin. apply relations_data_In in Hin.
    destruct Hin as [r [Hin | Hin]]; apply relations_In; cbn [fst snd];
      [left | right]; unfold dkeys; apply in_map_iff;
      [exists ((u, v), (r, a)) | exists ((v, u), (r, a))]; auto. }
  rewrite Egs, Ets, Ers. cbn [bind]. eauto.
Qed.

(** [to_json] never raises, and [rename_nodes] only renames: the data
    returned with a renaming is the data returned without it, with every
    graph id (of a graph entry, of the two ends of a typing entry or of a
    relation entry) replaced by its new name when it has one. *)
Theorem to_json_renames_ids :
  forall h rename_nodes,
    exists j,
      to_json h None = Ok j
      /\ to_json h rename_nodes = Ok (rename_json rename_nodes j).
Proof.
  intros h rn. destruct (to_json_never_raises h) as [j Ej].
  exists j. split; [assumption |]. unfold to_json in *.
  destruct (for_each (graphs_data h) (to_json_graph h None) [])
    as [gs|] eqn:Egs; cbn [bind] in Ej; [| discriminate].
  destruct (for_each (typings_data h) (to_json_typing h None) [])
    as [ts|] eqn:Ets; cbn [bind] in Ej; [| discriminate].
  destruct (for_each (relations_data h) (to_json_relation h None) ([], []))
    as [rs|] eqn:Ers; cbn [bind] in Ej; [| discriminate].
  injection Ej as <-.
  apply (to_json_graphs_renamed h rn) in Egs.
  apply (to_json_typings_renamed h rn) in Ets.
  apply (to_json_relations_renamed h rn) in Ers.
  cbn [map] in Egs, Ets, Ers. rewrite Egs, Ets, Ers. reflexivity.
Qed.

(** ** Copies of graphs *)

Lemma copy_attachment_graphs g new x h u h' :
  copy_attachment g new x h = (Ok u, h') -> h_graphs h' = h_graphs h.
Proof.
  unfold copy_attachment. intros E. run_ok.
  repeat match goal with
         | H : (if ?b then _ else _) _ = (Ok _, _) |- _ =>
             destruct b; run_ok
         | H : add_typing _ _ _ _ _ = (Ok ?v, _) |- _ =>
             destruct v; apply add_typing_stores in H;
             destruct H as [? [_ _]]
         | H : add_relation _ _ _ _ _ = (Ok ?v, _) |- _ =>
             destruct v; apply add_relation_stores in H;
             destruct H as [? [_ _]]
         end;
    congruence.
Qed.

(** [copy_graph] refuses an id that is taken, leaving the hierarchy as it
    was; when it succeeds, the new id was free, the graph stored under it has
    the nodes, edges and attributes of the original, the other graphs are
    the ones there were, and every typing edge there was is still there with
    its map. *)
Theorem copy_graph_copies :
  forall graph_id new_graph_id attach_graphs h,
    (In new_graph_id (graphs h) ->
     copy_graph graph_id new_graph_id attach_graphs h
     = (Raise HierarchyError, h))
    /\ (forall u h',
           copy_graph graph_id new_graph_id attach_graphs h = (Ok u, h') ->
           ~ In new_graph_id (graphs h)
           /\ graphs h' = graphs h ++ [new_graph_id]
           /\ get_graph h' new_graph_id = get_graph h graph_id
           /\ get_graph_attrs h' new_graph_id = get_graph_attrs h graph_id
           /\ (forall x, In x (graphs h) ->
                         get_graph h' x = get_graph h x
                         /\ get_graph_attrs h' x = get_graph_attrs h x)
           /\ extends h h').
Proof.
  intros g new attach h. split.
  - intros Hin. unfold copy_graph, mbind, mread. apply inb_In in Hin.
    now rewrite Hin.
  - intros u h' E. pose proof (copy_graph_extends _ _ _ _ E) as Hext.
    unfold copy_graph in E. run_ok.
    destruct (inb new (graphs h)) eqn:Hnew; [discriminate |]. run_ok.
    apply inb_not_In in Hnew.
    match goal with
    | H1 : get_graph_attrs h g = Ok ?a, H2 : get_graph h g = Ok ?gr,
      H3 : add_graph_from_data _ _ _ _ h = (Ok ?v, ?h1),
      H4 : mfor_each attach _ tt ?h1 = _ |- _ =>
        rename H1 into Ha; rename H2 into Hg; rename H3 into Hadd;
        rename H4 into Hloop; rename h1 into hc
    end.
    assert (Hgr : h_graphs h' = h_graphs hc).
    { revert Hloop.
      apply (mfor_each_invariant (fun h0 => h_graphs h0 = h_graphs hc)).
      - intros s x0 h0 s' h0' _ Hh0 Estep.
        apply copy_attachment_graphs in Estep. congruence.
      - reflexivity. }
    unfold add_graph_from_data in Hadd.
    destruct (inb new (graphs h)); [discriminate |].
    inversion Hadd; subst hc; clear Hadd.
    cbn [h_graphs] in Hgr.
    split; [assumption |]. split; [| split; [| split; [| split]]].
    + unfold graphs, dkeys. rewrite Hgr, map_app. reflexivity.
    + unfold get_graph at 1. rewrite Hgr.
      rewrite dget_app_none by (now apply dget_None_keys).
      cbn [dget]. rewrite keqb_refl. cbn [fst]. rewrite Hg.
      match type of Hg with _ = Ok ?gr => now destruct gr end.
    + unfold get_graph_attrs at 1. rewrite Hgr.
      rewrite dget_app_none by (now apply dget_None_keys).
      cbn [dget]. rewrite keqb_refl. cbn [snd]. now rewrite Ha.
    + intros y Hy. unfold get_graph, get_graph_attrs. rewrite Hgr.
      destruct (dget (h_graphs h) y) as [ga|] eqn:Ey.
      * erewrite dget_app_some by exact Ey. auto.
      * apply dget_None_keys in Ey. contradiction.
    + assumption.
Qed.

(** [typed_hierarchy] once its graph [A] has been copied as [C], attached
    to [B]. *)
Definition typed_hierarchy_copy : Hierarchy :=
  Eval vm_compute in snd (copy_graph "A" "C" ["B"] typed_hierarchy).

Lemma copy_graph_copies_witness :
  copy_graph "A" "B" ["B"] typed_hierarchy
  = (Raise HierarchyError, typed_hierarchy)
  /\ (~ In "C" (graphs typed_hierarchy)
      /\ graphs typed_hierarchy_copy = graphs typed_hierarchy ++ ["C"]
      /\ get_graph typed_hierarchy_copy "C" = get_graph typed_hierarchy "A"
      /\ get_graph_attrs typed_hierarchy_copy "C"
         = get_graph_attrs typed_hierarchy "A"
      /\ (forall x, In x (graphs typed_hierarchy) ->
                    get_graph typed_hierarchy_copy x
                    = get_graph typed_hierarchy x
                    /\ get_graph_attrs typed_hierarchy_copy x
                       = get_graph_attrs typed_hierarchy x)
      /\ extends typed_hierarchy typed_hierarchy_copy).
Proof.
  split.
  - apply (proj1 (copy_graph_copies "A" "B" ["B"] typed_hierarchy)).
    simpl. auto.
  - apply (proj2 (copy_graph_copies "A" "C" ["B"] typed_hierarchy) tt).
    reflexivity.
Defined.

Lemma mbind_step {A B} (m : M A) (f : A -> M B) h a h1 :
  m h = (Ok a, h1) -> mbind m f h = f a h1.
Proof. intros E. unfold mbind. now rewrite E. Qed.

Lemma mbind_raise {A B} (m : M A) (f : A -> M B) h e h1 :
  m h = (Raise e, h1) -> mbind m f h = (Raise e, h1).
Proof. intros E. unfold mbind. now rewrite E. Qed.

(** The check that opens [duplicate_subgraph] compares the new ids with the
    graphs of the hierarchy, not with each other: when two graphs are to be
    copied under the same free id, the first copy is made, the second one
    raises [HierarchyError], and the hierarchy is left with the first
    copy. *)
Theorem duplicate_subgraph_repeated_new_id :
  forall h a b x,
    In a (graphs h) -> ~ In x (graphs h) ->
    exists h',
      duplicate_subgraph [(a, x); (b, x)] [] h = (Raise HierarchyError, h')
      /\ graphs h' = graphs h ++ [x]
      /\ get_graph h' x = get_graph h a.
Proof.
  intros h a b x Ha Hx.
  destruct (copy_graph a x [] h) as [[u|e] h1] eqn:E1.
  - destruct (proj2 (copy_graph_copies a x [] h) u h1 E1)
      as [_ [Hg [Hgr _]]].
    exists h1. split; [| split; assumption].
    assert (E2 : copy_graph b x [] h1 = (Raise HierarchyError, h1)).
    { apply (proj1 (copy_graph_copies b x [] h1)). rewrite Hg.
      apply in_or_app. right. now left. }
    apply inb_not_In in Hx.
    unfold duplicate_subgraph.
    rewrite (mbind_step _ _ h (graphs h) h) by reflexivity.
    rewrite (mbind_step _ _ h tt h)
      by (unfold mread; cbn [for_each snd]; rewrite Hx; reflexivity).
    apply mbind_raise. cbn [mfor_each fst snd].
    rewrite (mbind_step _ _ h u h1) by exact E1.
    apply mbind_raise. exact E2.
  - exfalso. unfold copy_graph, mbind, mread in E1.
    apply inb_not_In in Hx. rewrite Hx in E1.
    unfold get_graph_attrs, get_graph in E1.
    destruct (dget (h_graphs h) a) as [[gr at_]|] eqn:Ea.
    + cbn [fst snd] in E1. unfold add_graph_from_data in E1.
      rewrite Hx in E1. cbn [mfor_each] in E1. unfold mret in E1.
      discriminate.
    + apply dget_None_keys in Ea. contradiction.
Qed.

Lemma duplicate_subgraph_repeated_new_id_witness :
  exists h',
    duplicate_subgraph [("A", "C"); ("B", "C")] [] typed_hierarchy
    = (Raise HierarchyError, h')
    /\ graphs h' = graphs typed_hierarchy ++ ["C"]
    /\ get_graph h' "C" = get_graph typed_hierarchy "A".
Proof.
  apply (duplicate_subgraph_repeated_new_id typed_hierarchy "A" "B" "C").
  - simpl. auto.
  - simpl. intuition discriminate.
Defined.

(** ** [get_rule_propagations] and the ids of graphs *)







(** ** What [duplicate_subgraph] leaves behind when it succeeds *)

Lemma duplicate_typing_graphs gd s t visited h v h' :
  duplicate_typing gd s t visited h = (Ok v, h') -> h_graphs h' = h_graphs h.
Proof.
  unfold duplicate_typing. intros E. run_ok.
  match goal with
  | H : add_typing _ _ _ _ _ = (Ok ?u, _) |- _ =>
      destruct u; apply add_typing_stores in H; tauto
  end.
Qed.

Lemma duplicate_typings_of_graphs gd visited g h v h' :
  duplicate_typings_of gd visited g h = (Ok v, h') ->
  h_graphs h' = h_graphs h.
Proof.
  unfold duplicate_typings_of. intros E. run_ok.
  match goal with
  | H1 : mfor_each _ _ visited h = (Ok ?v1, ?h1),
    H2 : mfor_each _ _ ?v1 ?h1 = (Ok v, h') |- _ =>
      apply (mfor_each_invariant (fun h0 => h_graphs h0 = h_graphs h)) in H1;
      [ apply (mfor_each_invariant (fun h0 => h_graphs h0 = h_graphs h)) in H2;
        [ exact H2 | | exact H1 ] | | reflexivity ]
  end;
    intros s0 x0 h0 s0' h0' _ Hh0 Estep;
    apply duplicate_typing_graphs in Estep; congruence.
Qed.

Lemma get_graph_graphs h g gr : get_graph h g = Ok gr -> In g (graphs h).
Proof.
  unfold get_graph. destruct (dget (h_graphs h) g) eqn:E; [| discriminate].
  intros _. eapply dget_Some_keys; eauto.
Qed.

Lemma copy_graphs_loop attach :
  forall l h u h',
    mfor_each l (fun _ on => copy_graph (fst on) (snd on) attach) tt h
    = (Ok u, h') ->
    graphs h' = graphs h ++ map snd l
    /\ (forall x, In x (graphs h) ->
                  get_graph h' x = get_graph h x
                  /\ get_graph_attrs h' x = get_graph_attrs h x)
    /\ (forall o n, In (o, n) l ->
                    get_graph h' n = get_graph h' o
                    /\ get_graph_attrs h' n = get_graph_attrs h' o
                    /\ exists gr, get_graph h' o = Ok gr).
Proof.
  induction l as [|[o n] l IH]; intros h u h' E; simpl in E.
  - run_ok. rewrite app_nil_r. split; [reflexivity |].
    split; [auto | intros o n []].
  - unfold mbind in E. cbn [fst snd] in E.
    destruct (copy_graph o n attach h) as [[[]|e] h1] eqn:Hcopy;
      [| discriminate].
    destruct (proj2 (copy_graph_copies o n attach h) tt h1 Hcopy)
      as [Hfree [Hg1 [Hgr1 [Hat1 [Hold1 _]]]]].
    destruct (IH h1 u h' E) as [Hg [Hold Hnew]].
    assert (Ho : In o (graphs h)).
    { unfold copy_graph in Hcopy. run_ok.
      destruct (inb n (graphs h)); [discriminate |]. run_ok.
      eapply get_graph_graphs; eauto. }
    assert (Hin1 : forall x, In x (graphs h) -> In x (graphs h1))
      by (intros x Hx; rewrite Hg1; apply in_or_app; now left).
    assert (Hn1 : In n (graphs h1))
      by (rewrite Hg1; apply in_or_app; right; now left).
    split; [| split].
    + rewrite Hg, Hg1, <- app_assoc. reflexivity.
    + intros x Hx. destruct (Hold x (Hin1 x Hx)) as [E1 E2].
      destruct (Hold1 x Hx) as [E3 E4]. split; congruence.
    + intros o' n' [E0 | Hin].
      * inversion E0; subst o' n'.
        destruct (Hold n Hn1) as [E1 E2].
        destruct (Hold o (Hin1 o Ho)) as [E3 E4].
        destruct (Hold1 o Ho) as [E5 E6].
        split; [congruence |]. split; [congruence |].
        unfold get_graph. unfold graphs in Ho.
        destruct (dget (h_graphs h) o) as [ga|] eqn:Eo.
        -- assert (Eg : get_graph h o = Ok (fst ga))
             by (unfold get_graph; now rewrite Eo).
           exists (fst ga). fold (get_graph h' o). congruence.
        -- apply dget_None_keys in Eo. contradiction.
      * now apply Hnew.
Qed.

(** When [duplicate_subgraph] succeeds, the graphs of the hierarchy are the
    old ones followed by the new ids, in the order of [graph_dict]; the old
    graphs are untouched; and every new id holds an exact copy (nodes, edges,
    attributes) of the graph it duplicates. *)
Theorem duplicate_subgraph_copies :
  forall graph_dict attach_graphs h h',
    duplicate_subgraph graph_dict attach_graphs h = (Ok tt, h') ->
    graphs h' = graphs h ++ dvalues graph_dict
    /\ (forall x, In x (graphs h) ->
                  get_graph h' x = get_graph h x
                  /\ get_graph_attrs h' x = get_graph_attrs h x)
    /\ (forall original new,
           In (original, new) graph_dict ->
           get_graph h' new = get_graph h' original
           /\ get_graph_attrs h' new = get_graph_attrs h' original
           /\ exists gr, get_graph h' original = Ok gr).
Proof.
  intros gd attach h h' E. unfold duplicate_subgraph in E.
  unfold mbind at 1, mread at 1 in E. unfold mbind at 1, mread at 1 in E.
  destruct (for_each gd _ tt) as [[]|]; [| discriminate].
  unfold mbind at 1 in E.
  destruct (mfor_each gd _ tt h) as [[[]|e] h1] eqn:Hcopies; [| discriminate].
  unfold mbind at 1 in E.
  destruct (mfor_each (dkeys gd) _ [] h1) as [[vf|e] hf] eqn:Htypings;
    [| discriminate].
  unfold mret in E. injection E as <-.
  apply copy_graphs_loop in Hcopies. destruct Hcopies as [Hg [Hold Hnew]].
  assert (Hgr : h_graphs hf = h_graphs h1).
  { revert Htypings.
    apply (mfor_each_invariant (fun h0 => h_graphs h0 = h_graphs h1));
      [| reflexivity].
    intros s0 x0 h0 s0' h0' _ Hh0 Estep.
    apply duplicate_typings_of_graphs in Estep. congruence. }
  unfold graphs, get_graph, get_graph_attrs in *. rewrite Hgr.
  split; [exact Hg |]. split; [exact Hold | exact Hnew].
Qed.

(** [typed_hierarchy] once both of its graphs have been duplicated. *)
Definition typed_hierarchy_duplicate : Hierarchy :=
  Eval vm_compute in
    snd (duplicate_subgraph [("A", "A2"); ("B", "B2")] [] typed_hierarchy).

Lemma duplicate_subgraph_copies_witness :
  graphs typed_hierarchy_duplicate
  = graphs typed_hierarchy ++ dvalues [("A", "A2"); ("B", "B2")]
  /\ (forall x, In x (graphs typed_hierarchy) ->
                get_graph typed_hierarchy_duplicate x
                = get_graph typed_hierarchy x
                /\ get_graph_attrs typed_hierarchy_duplicate x
                   = get_graph_attrs typed_hierarchy x)
  /\ (forall original new,
         In (original, new) [("A", "A2"); ("B", "B2")] ->
         get_graph typed_hierarchy_duplicate new
         = get_graph typed_hierarchy_duplicate original
         /\ get_graph_attrs typed_hierarchy_duplicate new
            = get_graph_attrs typed_hierarchy_duplicate original
         /\ exists gr, get_graph typed_hierarchy_duplicate original = Ok gr).
Proof.
  apply (duplicate_subgraph_copies
           [("A", "A2"); ("B", "B2")] [] typed_hierarchy
           typed_hierarchy_duplicate).
  reflexivity.
Defined.

(** ** Stage 0 of [rewrite]: what an accepted [rhs_typing] says *)








(** ** What [copy_graph] attaches *)

Lemma extends_successors h h' g x :
  extends h h' -> In x (successors h g) -> In x (successors h' g).
Proof.
  intros Hex Hin. apply successors_In. apply successors_In in Hin.
  eapply typings_extends; eauto.
Qed.

Lemma extends_predecessors h h' g x :
  extends h h' -> In x (predecessors h g) -> In x (predecessors h' g).
Proof.
  intros Hex Hin. apply predecessors_In. apply predecessors_In in Hin.
  eapply typings_extends; eauto.
Qed.

Lemma copy_attachment_attaches g new x h u h' :
  copy_attachment g new x h = (Ok u, h') ->
  (forall m, In x (successors h g) -> get_typing h g x = Ok m ->
             get_typing h' new x = Ok m)
  /\ (forall m, In x (predecessors h g) -> get_typing h x g = Ok m ->
                get_typing h' x new = Ok m).
Proof.
  intros E. unfold copy_attachment in E.
  unfold mbind at 1, mread at 1 in E. unfold mbind at 1 in E.
  destruct ((if inb x (successors h g)
             then m <~ mread (fun h0 => get_typing h0 g x);;
                  add_typing new x m None
             else mret tt) h) as [[[]|e] h1] eqn:E1; [| discriminate].
  unfold mbind at 1, mread at 1 in E. unfold mbind at 1 in E.
  destruct ((if inb x (predecessors h1 g)
             then m <~ mread (fun h0 => get_typing h0 x g);;
                  add_typing x new m None
             else mret tt) h1) as [[[]|e] h2] eqn:E2; [| discriminate].
  unfold mbind at 1, mread at 1 in E.
  destruct (adjacent_relations h2 g) as [adj|]; [| discriminate].
  assert (Hex1 : extends h h1
                 /\ forall m, In x (successors h g) ->
                              get_typing h g x = Ok m ->
                              get_typing h1 new x = Ok m).
  { destruct (inb x (successors h g)) eqn:Hs.
    - unfold mbind, mread in E1.
      destruct (get_typing h g x) as [m|] eqn:Hm; [| discriminate].
      apply add_typing_ok in E1. destruct E1 as [Hex [Ht _]].
      split; [assumption |]. intros m' _ Em'. congruence.
    - unfold mret in E1. inversion E1; subst. split; [apply extends_refl |].
      intros m Hin _. apply inb_In in Hin. congruence. }
  destruct Hex1 as [Hex1 Hs1].
  assert (Hex2 : extends h1 h2
                 /\ forall m, In x (predecessors h1 g) ->
                              get_typing h1 x g = Ok m ->
                              get_typing h2 x new = Ok m).
  { destruct (inb x (predecessors h1 g)) eqn:Hp.
    - unfold mbind, mread in E2.
      destruct (get_typing h1 x g) as [m|] eqn:Hm; [| discriminate].
      apply add_typing_ok in E2. destruct E2 as [Hex [Ht _]].
      split; [assumption |]. intros m' _ Em'. congruence.
    - unfold mret in E2. inversion E2; subst. split; [apply extends_refl |].
      intros m Hin _. apply inb_In in Hin. congruence. }
  destruct Hex2 as [Hex2 Hp2].
  assert (Hex3 : extends h2 h').
  { destruct (inb x adj).
    - unfold mbind, mread in E.
      destruct (get_relation h2 x g) as [r|]; [| discriminate].
      destruct u. now apply add_relation_ok in E.
    - unfold mret in E. inversion E; subst. apply extends_refl. }
  split.
  - intros m Hin Hm.
    eapply extends_get_typing; [exact Hex3 |].
    eapply extends_get_typing; [exact Hex2 |]. auto.
  - intros m Hin Hm. eapply extends_get_typing; [exact Hex3 |]. apply Hp2.
    + now apply (extends_predecessors h h1).
    + eapply extends_get_typing; [exact Hex1 | assumption].
Qed.

Lemma copy_attachments_attach g new :
  forall attach h u h',
    mfor_each attach (fun _ x => copy_attachment g new x) tt h = (Ok u, h') ->
    forall x, In x attach ->
      (forall m, In x (successors h g) -> get_typing h g x = Ok m ->
                 get_typing h' new x = Ok m)
      /\ (forall m, In x (predecessors h g) -> get_typing h x g = Ok m ->
                    get_typing h' x new = Ok m).
Proof.
  induction attach as [|y attach IH]; intros h u h' E x Hx; [destruct Hx |].
  cbn [mfor_each] in E. unfold mbind in E.
  destruct (copy_attachment g new y h) as [[[]|e] h1] eqn:E1; [| discriminate].
  pose proof (copy_attachment_extends _ _ _ _ E1) as Hex1.
  assert (Hex : extends h1 h').
  { eapply mfor_each_extends; [| exact E].
    intros [] x0 h0 s' h0' Hc. now apply copy_attachment_extends in Hc. }
  destruct Hx as [<- | Hx].
  - destruct (copy_attachment_attaches g new y h tt h1 E1) as [Hs Hp].
    split; intros m Hin Hm; (eapply extends_get_typing; [exact Hex |]); auto.
  - destruct (IH h1 u h' E x Hx) as [Hs Hp].
    split; intros m Hin Hm.
    + apply Hs; [now apply (extends_successors h h1) |].
      eapply extends_get_typing; [exact Hex1 | assumption].
    + apply Hp; [now apply (extends_predecessors h h1) |].
      eapply extends_get_typing; [exact Hex1 | assumption].
Qed.

(** When [copy_graph] succeeds, the copy is attached as the original is to
    every graph of [attach_graphs]: a successor of the original among them
    types the copy by the map with which it types the original, and a
    predecessor among them is typed by the copy as it is by the original. *)
Theorem copy_graph_attaches :
  forall graph_id new_graph_id attach_graphs h u h',
    copy_graph graph_id new_graph_id attach_graphs h = (Ok u, h') ->
    forall x, In x attach_graphs ->
      (forall m, get_typing h graph_id x = Ok m ->
                 get_typing h' new_graph_id x = Ok m)
      /\ (forall m, get_typing h x graph_id = Ok m ->
                    get_typing h' x new_graph_id = Ok m).
Proof.
  intros g new attach h u h' E x Hx. unfold copy_graph in E.
  unfold mbind at 1, mread at 1 in E.
  destruct (inb new (graphs h)); [discriminate |].
  unfold mbind at 1, mread at 1 in E.
  destruct (get_graph_attrs h g) as [a|]; [| discriminate].
  unfold mbind at 1, mread at 1 in E.
  destruct (get_graph h g) as [gr|]; [| discriminate].
  unfold mbind at 1 in E.
  destruct (add_graph_from_data new (g_nodes gr) (g_edges gr) a h)
    as [[[]|e] hc] eqn:Eadd; [| discriminate].
  apply add_graph_from_data_stores in Eadd. destruct Eadd as [_ [Et _]].
  destruct (copy_attachments_attach g new attach hc u h' E x Hx) as [Hs Hp].
  assert (Hget : forall s t, get_typing hc s t = get_typing h s t)
    by (intros s t; unfold get_typing; now rewrite Et).
  assert (Htyp : typings hc = typings h) by (unfold typings; now rewrite Et).
  split; intros m Hm.
  - apply Hs; [| now rewrite Hget].
    apply successors_In. rewrite Htyp. eapply get_typing_edge; eauto.
  - apply Hp; [| now rewrite Hget].
    apply predecessors_In. rewrite Htyp. eapply get_typing_edge; eauto.
Qed.

Lemma copy_graph_attaches_witness :
  (forall m, get_typing typed_hierarchy "A" "B" = Ok m ->
             get_typing typed_hierarchy_copy "C" "B" = Ok m)
  /\ (forall m, get_typing typed_hierarchy "B" "A" = Ok m ->
                get_typing typed_hierarchy_copy "B" "C" = Ok m).
Proof.
  apply (copy_graph_attaches "A" "C" ["B"] typed_hierarchy tt
                             typed_hierarchy_copy).
  - reflexivity.
  - simpl. auto.
Defined.
